(** * arg-parser: option descriptors, matcher, arity consumer and parse driver

    A shallow embedding of the header-only parser of [argparser.hpp] /
    [argparser.tpp] (the revision with the free functions [argp::parse],
    [argp::impl::match_option] and [argp::impl::handle_match]), followed by
    the properties of the specification that concern it.

    Conventions.
    - A C [int] is a [Z]; [argc] is passed next to [argv] as in the source.
      An [int] computation whose result the type cannot hold is undefined
      behaviour and shows up as the outcome [Undefined].
    - [const char *argv[]] is a [list string]; reading [argv[i]] outside the
      list is undefined behaviour and shows up as the outcome [Undefined].
    - [std::vector<OptionBase *> opts] is the list of the objects pointed to,
      in vector order (the pointers are taken to be pairwise distinct); a
      pointer into it is an index, and the in-place mutation of a descriptor
      is an update of the list at that index.
    - A C++ exception is the outcome [Throw e]; the descriptors keep whatever
      was written to them before the exception left the function. *)

From Stdlib Require Import ZArith Lia Ascii String Sorted.
From stdpp Require Import base list strings gmap.

Local Open Scope Z_scope.

(** ** Exceptions and outcomes *)

Inductive exception : Type :=
| invalid_argument (what : string)
| out_of_range (what : string)
| length_error (what : string).

Definition what (e : exception) : string :=
  match e with
  | invalid_argument w => w
  | out_of_range w => w
  | length_error w => w
  end.

(** The three failures of the specification, as the source throws them. *)
Definition ConversionError : exception :=
  invalid_argument "Could not parse the data.".
Definition InsufficientArgumentsError : exception :=
  out_of_range "Not enough arguments.".
Definition InvalidArityError : exception :=
  invalid_argument "Invalid number of requested parameters.".

Inductive result (A : Type) : Type :=
| Return (a : A)
| Throw (e : exception)
| Undefined.
Arguments Return {A} a.
Arguments Throw {A} e.
Arguments Undefined {A}.

(** ** Formatted extraction from a [std::istringstream]

    [iss >> val] for [int] and [bool] targets on a freshly built stream
    (flags [skipws | dec], classic locale), after the C++ standard
    ([istream.formatted.arithmetic], [facet.num.get.virtuals]). *)
Module Istream.

Definition INT_MAX : Z := 2147483647.
Definition INT_MIN : Z := -2147483648.
Definition LONG_MAX : Z := 9223372036854775807.
Definition LONG_MIN : Z := -9223372036854775808.

Definition isspace (c : ascii) : bool :=
  let n := nat_of_ascii c in
  Nat.eqb n 32 || (Nat.leb 9 n && Nat.leb n 13).

Definition isdigit (c : ascii) : bool :=
  let n := nat_of_ascii c in
  Nat.leb 48 n && Nat.leb n 57.

Definition digit_value (c : ascii) : Z :=
  Z.of_nat (nat_of_ascii c - 48).

(** The sentry: leading white space is discarded. *)
Fixpoint skipws (s : string) : string :=
  match s with
  | String c s' => if isspace c then skipws s' else s
  | EmptyString => s
  end.

(** Stage 2 for [%d]: the longest run of decimal digits; [None] when there
    is no digit at all, else the number they spell. *)
Fixpoint accumulate (s : string) (acc : option Z) : option Z :=
  match s with
  | String c s' =>
      if isdigit c
      then accumulate s' (Some (10 * default 0 acc + digit_value c))
      else acc
  | EmptyString => acc
  end.

(** The field is an optional sign followed by digits. *)
Definition field (s : string) : option Z :=
  match s with
  | String "-" s' => Z.opp <$> accumulate s' None
  | String "+" s' => accumulate s' None
  | _ => accumulate s None
  end.

(** [num_get::get] into a [long]: the failbit and the value stored.
    [None]: the sentry found nothing but white space, the stream fails and
    nothing is stored. *)
Definition get_long (str : string) : option (bool * Z) :=
  match skipws str with
  | EmptyString => None
  | s =>
      Some match field s with
           | None => (true, 0)
           | Some v =>
               if v <? LONG_MIN then (true, LONG_MIN)
               else if LONG_MAX <? v then (true, LONG_MAX)
               else (false, v)
           end
  end.

(** [operator>>(int &val)]: returns [!iss] and the new content of [val]. *)
Definition extract_int (str : string) (val : Z) : bool * Z :=
  match get_long str with
  | None => (true, val)
  | Some (err, lval) =>
      if lval <? INT_MIN then (true, INT_MIN)
      else if INT_MAX <? lval then (true, INT_MAX)
      else (err, lval)
  end.

(** [operator>>(bool &val)] without [boolalpha]. *)
Definition extract_bool (str : string) (val : bool) : bool * bool :=
  match get_long str with
  | None => (true, val)
  | Some (err, lval) =>
      if lval =? 0 then (err, false)
      else if lval =? 1 then (err, true)
      else (true, true)
  end.

End Istream.

(** ** Option descriptors *)

(** [split_options::Type] *)
Inductive Type_ : Type := POSITIONAL | KEYWORD.

(** The payload [T val] of [PositionalOption<T>] and [KeywordOption<T>], for
    the instantiations [int], [std::string] and [bool]; the constructor says
    which [T] the descriptor was instantiated at. *)
Inductive Value : Type :=
| VInt (v : Z)
| VString (v : string)
| VBool (v : bool).

(** The descriptor objects: the two class templates of the header, with
    their base-class fields, and one user-defined subclass. [is_set_] is the
    field of [OptionBase]. *)
Inductive OptionBase : Type :=
| PositionalOption (name help : string) (is_required : bool)
    (is_set_ : bool) (val : Value)
| KeywordOption (identifiers : list string) (help : string)
    (is_set_ : bool) (val : Value)
| CaptureOption (identifiers : list string) (help : string)
    (param_count : Z) (is_set_ : bool) (captured : list string).

(** Modelled from the spec: [CaptureOption] is a user-defined keyword
    subclass of [OptionBase], which the header allows but does not ship. It
    matches a token equal to one of its identifiers, declares the arity
    [param_count] (any [int], [-1] meaning every remaining token) and stores
    the tokens that follow the matched one verbatim. *)
Definition capture_from_string (strings : list string) : list string :=
  drop 1 strings.

(** The constructors of the source: [is_set_] starts out false. *)
Definition new_PositionalOption (name help : string) (is_required : bool)
    (val : Value) : OptionBase :=
  PositionalOption name help is_required false val.

Definition new_KeywordOption (identifiers : list string) (help : string)
    (val : Value) : OptionBase :=
  KeywordOption identifiers help false val.

Definition new_CaptureOption (identifiers : list string) (help : string)
    (param_count : Z) : OptionBase :=
  CaptureOption identifiers help param_count false [].

Definition is_set (o : OptionBase) : bool :=
  match o with
  | PositionalOption _ _ _ s _ => s
  | KeywordOption _ _ s _ => s
  | CaptureOption _ _ _ s _ => s
  end.

Definition set_is_set (o : OptionBase) (b : bool) : OptionBase :=
  match o with
  | PositionalOption n h r _ v => PositionalOption n h r b v
  | KeywordOption ids h _ v => KeywordOption ids h b v
  | CaptureOption ids h pc _ c => CaptureOption ids h pc b c
  end.

(** [get_val]; a [CaptureOption] has no scalar payload. *)
Definition get_val (o : OptionBase) : option Value :=
  match o with
  | PositionalOption _ _ _ _ v => Some v
  | KeywordOption _ _ _ v => Some v
  | CaptureOption _ _ _ _ _ => None
  end.

Definition set_val (o : OptionBase) (v : Value) : OptionBase :=
  match o with
  | PositionalOption n h r s _ => PositionalOption n h r s v
  | KeywordOption ids h s _ => KeywordOption ids h s v
  | CaptureOption _ _ _ _ _ => o
  end.

Definition get_captured (o : OptionBase) : list string :=
  match o with
  | CaptureOption _ _ _ _ c => c
  | _ => []
  end.

Definition get_type (o : OptionBase) : Type_ :=
  match o with
  | PositionalOption _ _ _ _ _ => POSITIONAL
  | KeywordOption _ _ _ _ => KEYWORD
  | CaptureOption _ _ _ _ _ => KEYWORD
  end.

(** [KeywordOption<T>::NUM_OPTS] *)
Definition NUM_OPTS (val : Value) : Z :=
  match val with
  | VBool _ => 0
  | _ => 1
  end.

Definition get_param_count (o : OptionBase) : Z :=
  match o with
  | PositionalOption _ _ _ _ _ => 0
  | KeywordOption _ _ _ v => NUM_OPTS v
  | CaptureOption _ _ pc _ _ => pc
  end.

(** The loop of [KeywordOption<T>::matches]. *)
Fixpoint matches_identifiers (identifiers : list string) (identifier : string)
    : bool :=
  match identifiers with
  | [] => false
  | id :: rest =>
      if String.eqb id identifier then true
      else matches_identifiers rest identifier
  end.

Definition matches (o : OptionBase) (identifier : string) : bool :=
  match o with
  | PositionalOption _ _ _ _ _ => negb (is_set o)
  | KeywordOption ids _ _ _ => matches_identifiers ids identifier
  | CaptureOption ids _ _ _ _ => matches_identifiers ids identifier
  end.

(** The conversion of the token [str] shared by [PositionalOption<T>] and
    [KeywordOption<T>]. For [int] and [bool] it is the unspecialised template
    body [iss >> this->val; if (!iss) throw ...], in which the extraction
    writes the value before the stream state is looked at; for [std::string]
    it is the specialisation, which stores the token as it is. *)
Definition stream_from_string (o : OptionBase) (val : Value) (str : string)
    : result unit * OptionBase :=
  match val with
  | VInt v =>
      let '(bad, v') := Istream.extract_int str v in
      (if bad then Throw ConversionError else Return tt, set_val o (VInt v'))
  | VBool b =>
      let '(bad, b') := Istream.extract_bool str b in
      (if bad then Throw ConversionError else Return tt, set_val o (VBool b'))
  | VString _ => (Return tt, set_val o (VString str))
  end.

(** [strings[n]] of a [std::vector]: unchecked. *)
Definition at_index (strings : list string) (n : nat)
    (k : string -> result unit * OptionBase) (o : OptionBase)
    : result unit * OptionBase :=
  match strings !! n with
  | Some s => k s
  | None => (Undefined, o)
  end.

Definition from_string (o : OptionBase) (strings : list string)
    : result unit * OptionBase :=
  match o with
  | PositionalOption _ _ _ _ val =>
      at_index strings 0%nat (stream_from_string o val) o
  | KeywordOption _ _ _ (VBool _) => (Return tt, set_val o (VBool true))
  | KeywordOption _ _ _ val =>
      at_index strings 1%nat (stream_from_string o val) o
  | CaptureOption ids h pc s _ =>
      (Return tt, CaptureOption ids h pc s (capture_from_string strings))
  end.

(** [OptionBase::parse] *)
Definition OptionBase_parse (o : OptionBase) (strings : list string)
    : result unit * OptionBase :=
  match from_string o strings with
  | (Return tt, o') => (Return tt, set_is_set o' true)
  | (Throw e, o') => (Throw e, o')
  | (Undefined, o') => (Undefined, o')
  end.

(** ** Registry, matcher, consumer and driver *)

(** [struct split_options]: the two vectors hold pointers, here indices into
    the registry. *)
Record split_options : Type := mk_split_options {
  positional : list nat;
  keyword : list nat
}.

(** The loop of the constructor [split_options::split_options]; [p] is the
    position of the option being looked at. *)
Fixpoint split_options_loop (options : list OptionBase) (p : nat)
    (this : split_options) : split_options :=
  match options with
  | [] => this
  | opt :: rest =>
      split_options_loop rest (S p)
        match get_type opt with
        | POSITIONAL =>
            mk_split_options (positional this ++ [p]) (keyword this)
        | KEYWORD =>
            mk_split_options (positional this) (keyword this ++ [p])
        end
  end.

Definition split_options_ctor (options : list OptionBase) : split_options :=
  split_options_loop options 0%nat (mk_split_options [] []).

(** One of the two [for (auto opt : ...) if (opt->matches(arg)) return opt;]
    loops of [match_option]. *)
Fixpoint first_match (arg : string) (opts : list OptionBase)
    (ptrs : list nat) : option nat :=
  match ptrs with
  | [] => None
  | p :: rest =>
      match opts !! p with
      | Some opt =>
          if matches opt arg then Some p else first_match arg opts rest
      | None => first_match arg opts rest
      end
  end.

(** [impl::match_option]; [None] is [nullptr]. *)
Definition match_option (arg : string) (opts : list OptionBase)
    : option nat :=
  let split_opts := split_options_ctor opts in
  match first_match arg opts (keyword split_opts) with
  | Some opt => Some opt
  | None => first_match arg opts (positional split_opts)
  end.

(** [argv[i]] *)
Definition argv_at (argv : list string) (i : Z) : option string :=
  if i <? 0 then None else argv !! Z.to_nat i.

(** The loop [for (...; i < end; i++) opts.push_back(argv[i])] of
    [handle_match], over the [n = end - i] iterations it makes; returns the
    vector and the final [i]. *)
Fixpoint push_back_args (n : nat) (argv : list string) (i : Z)
    (opts : list string) : option (list string * Z) :=
  match n with
  | O => Some (opts, i)
  | S n' =>
      match argv_at argv i with
      | Some s => push_back_args n' argv (i + 1) (opts ++ [s])
      | None => None
      end
  end.

(** Whether an [int] can hold [r]. [argc] is an [int] of the caller, so
    every value from [INT_MIN] up to [argc] can be held, whatever the length
    of the list that stands for [argv] here; for an [argc] that is an [int]
    this is the range of [int]. *)
Definition int_fits (argc r : Z) : bool :=
  (Istream.INT_MIN <=? r) && (r <=? Z.max Istream.INT_MAX argc).

(** An [int] result: [None] is signed overflow. *)
Definition checked (argc r : Z) : option Z :=
  if int_fits argc r then Some r else None.

(** The arity after [if (param_count == -1) param_count = argc - i - 1;]. *)
Definition resolve_param_count (argc i param_count : Z) : option Z :=
  if param_count =? -1
  then match checked argc (argc - i) with
       | Some d => checked argc (d - 1)
       | None => None
       end
  else checked argc param_count.

(** [impl::handle_match]. [opt] is the index of the matched descriptor; the
    result is the value left in the reference [i]. [opts.reserve(n)] with a
    negative [n], which becomes a huge [size_t], throws [std::length_error]
    (the message is the library's). *)
Definition handle_match (i : Z) (opt : nat) (argc : Z) (argv : list string)
    (opts : list OptionBase) : result Z * list OptionBase :=
  match opts !! opt with
  | None => (Undefined, opts)
  | Some o =>
      let param_count := get_param_count o in
      if param_count <? -1 then (Throw InvalidArityError, opts)
      else
        match resolve_param_count argc i param_count with
        | None => (Undefined, opts)
        | Some param_count =>
            match checked argc (i + param_count) with
            | None => (Undefined, opts)
            | Some last =>
                if last >=? argc
                then (Throw InsufficientArgumentsError, opts)
                else
                  match checked argc (param_count + 1) with
                  | None => (Undefined, opts)
                  | Some n =>
                      if n <? 0
                      then (Throw (length_error "vector::reserve"), opts)
                      else
                        let end_ := last + 1 in
                        match
                          push_back_args (Z.to_nat (end_ - i)) argv i []
                        with
                        | None => (Undefined, opts)
                        | Some (strings, i) =>
                            let i := i - 1 in
                            match OptionBase_parse o strings with
                            | (Return tt, o') =>
                                (Return i, <[opt := o']> opts)
                            | (Throw e, o') => (Throw e, <[opt := o']> opts)
                            | (Undefined, o') =>
                                (Undefined, <[opt := o']> opts)
                            end
                        end
                  end
            end
        end
  end.

(** The loop shared by [argp::parse] and [ArgParser::parse], started at index
    [i]; the result carries the vector [unrecognised] as the loop left it.
    Every iteration moves [i] forward, so [fuel] only bounds the number of
    iterations; [None] means that the bound was too small. *)
Fixpoint parse_loop (fuel : nat) (argc : Z) (argv : list string) (i : Z)
    (unrecognised : list string) (opts : list OptionBase)
    : option (result unit * list string * list OptionBase) :=
  if i <? argc then
    match fuel with
    | O => None
    | S fuel' =>
        match argv_at argv i with
        | None => Some (Undefined, unrecognised, opts)
        | Some arg =>
            match match_option arg opts with
            | Some opt =>
                match handle_match i opt argc argv opts with
                | (Return i, opts') =>
                    parse_loop fuel' argc argv (i + 1) unrecognised opts'
                | (Throw e, opts') => Some (Throw e, unrecognised, opts')
                | (Undefined, opts') => Some (Undefined, unrecognised, opts')
                end
            | None =>
                parse_loop fuel' argc argv (i + 1) (unrecognised ++ [arg])
                  opts
            end
        end
    end
  else Some (Return tt, unrecognised, opts).

(** [argp::parse]: [unrecognised] is a local, returned at the end and lost
    when an exception leaves the function. *)
Definition parse (argc : Z) (argv : list string) (opts : list OptionBase)
    (skip_first_n : Z) : option (result (list string) * list OptionBase) :=
  match parse_loop (Z.to_nat argc) argc argv skip_first_n [] opts with
  | None => None
  | Some (Return tt, unrecognised, opts') => Some (Return unrecognised, opts')
  | Some (Throw e, _, opts') => Some (Throw e, opts')
  | Some (Undefined, _, opts') => Some (Undefined, opts')
  end.

(** The number of tokens of a command line. *)
Definition argc_of (argv : list string) : Z := Z.of_nat (length argv).

(** [class ArgParser] of the member-function revision of the same file: the
    loop is the same, [unrecognised] is a member that the loop appends to,
    and [parse] returns [unrecognised.empty()]. *)
Module ArgParser.

Record t : Type := mk {
  options_ : list OptionBase;
  unrecognised : list string
}.

Definition new (options : list OptionBase) : t := mk options [].

Definition empty (v : list string) : bool :=
  match v with [] => true | _ => false end.

Definition parse (this : t) (argc : Z) (argv : list string)
    (skip_first_n : Z) : option (result bool * t) :=
  match parse_loop (Z.to_nat argc) argc argv skip_first_n
          (unrecognised this) (options_ this) with
  | None => None
  | Some (Return tt, u, opts') => Some (Return (empty u), mk opts' u)
  | Some (Throw e, u, opts') => Some (Throw e, mk opts' u)
  | Some (Undefined, u, opts') => Some (Undefined, mk opts' u)
  end.

Definition get_unrecognised (this : t) : list string := unrecognised this.

End ArgParser.

(** ** The parse driver as the specification words it

    Sections 4.3 and 4.4 of the specification as a big-step relation:
    [scan tokens i u R out R'] says that scanning [tokens] from index [i],
    with [u] already collected as unrecognised and the registry in state [R],
    ends with outcome [out] and leaves the registry in state [R']. *)
Module Spec.

Definition rest : Z := -1.

(** "If a == rest, resolve actual arity to n - i - 1." *)
Definition resolve (a n i : Z) : Z := if a =? rest then n - i - 1 else a.

(** "Slice tokens [i, i+a] inclusive." *)
Definition slice (tokens : list string) (i a : Z) : list string :=
  take (Z.to_nat (a + 1)) (drop (Z.to_nat i) tokens).

Inductive scan (tokens : list string)
  : Z -> list string -> list OptionBase ->
    result (list string) -> list OptionBase -> Prop :=
| scan_end i u R :
    argc_of tokens <= i ->
    scan tokens i u R (Return u) R
| scan_unmatched i u R tok out R' :
    0 <= i -> tokens !! Z.to_nat i = Some tok ->
    match_option tok R = None ->
    scan tokens (i + 1) (u ++ [tok]) R out R' ->
    scan tokens i u R out R'
| scan_invalid_arity i u R tok k o :
    0 <= i -> tokens !! Z.to_nat i = Some tok ->
    match_option tok R = Some k -> R !! k = Some o ->
    get_param_count o < rest ->
    scan tokens i u R (Throw InvalidArityError) R
| scan_insufficient i u R tok k o a :
    0 <= i -> tokens !! Z.to_nat i = Some tok ->
    match_option tok R = Some k -> R !! k = Some o ->
    rest <= get_param_count o ->
    a = resolve (get_param_count o) (argc_of tokens) i ->
    argc_of tokens <= i + a ->
    scan tokens i u R (Throw InsufficientArgumentsError) R
| scan_failed i u R tok k o a e o' :
    0 <= i -> tokens !! Z.to_nat i = Some tok ->
    match_option tok R = Some k -> R !! k = Some o ->
    rest <= get_param_count o ->
    a = resolve (get_param_count o) (argc_of tokens) i ->
    i + a < argc_of tokens ->
    OptionBase_parse o (slice tokens i a) = (Throw e, o') ->
    scan tokens i u R (Throw e) (<[k := o']> R)
| scan_matched i u R tok k o a o' out R' :
    0 <= i -> tokens !! Z.to_nat i = Some tok ->
    match_option tok R = Some k -> R !! k = Some o ->
    rest <= get_param_count o ->
    a = resolve (get_param_count o) (argc_of tokens) i ->
    i + a < argc_of tokens ->
    OptionBase_parse o (slice tokens i a) = (Return tt, o') ->
    scan tokens (i + a + 1) u (<[k := o']> R) out R' ->
    scan tokens i u R out R'.

End Spec.

(** Whether the message of an exception mentions [identifier]. *)
Definition names_identifier (e : exception) (identifier : string) : bool :=
  match String.index 0 identifier (what e) with
  | Some _ => true
  | None => false
  end.

(** The number spelled by a string of decimal digits, by place value. *)
Fixpoint decimal (digits : string) : Z :=
  match digits with
  | EmptyString => 0
  | String c rest =>
      Istream.digit_value c * 10 ^ Z.of_nat (String.length rest)
      + decimal rest
  end.

Fixpoint all_digits (s : string) : bool :=
  match s with
  | EmptyString => true
  | String c rest => Istream.isdigit c && all_digits rest
  end.

(** The first character of [s], if any, satisfies [p]. *)
Definition starts_with (p : ascii -> bool) (s : string) : bool :=
  match s with
  | EmptyString => false
  | String c _ => p c
  end.

Definition is_sign (c : ascii) : bool :=
  Ascii.eqb c "+" || Ascii.eqb c "-".

(** The token a scalar descriptor converts: [strings[0]] for a positional
    descriptor (the matched token), [strings[1]] for a keyword one. *)
Definition param_token (o : OptionBase) (strings : list string)
    : option string :=
  match o with
  | PositionalOption _ _ _ _ _ => strings !! 0%nat
  | KeywordOption _ _ _ _ => strings !! 1%nat
  | CaptureOption _ _ _ _ _ => None
  end.

(** ** Auxiliary notions used by the statements *)

Definition Type_eqb (a b : Type_) : bool :=
  match a, b with
  | POSITIONAL, POSITIONAL | KEYWORD, KEYWORD => true
  | _, _ => false
  end.

(** The positions, counted from [p], of the descriptors of kind [ty]. *)
Fixpoint indices_of (ty : Type_) (l : list OptionBase) (p : nat) : list nat :=
  match l with
  | [] => []
  | o :: rest =>
      (if Type_eqb (get_type o) ty then [p] else [])
      ++ indices_of ty rest (S p)
  end.

(** The position, counted from [p], of the first descriptor of kind [ty]
    that matches [arg]. *)
Fixpoint first_of (ty : Type_) (arg : string) (l : list OptionBase) (p : nat)
    : option nat :=
  match l with
  | [] => None
  | o :: rest =>
      if Type_eqb (get_type o) ty && matches o arg then Some p
      else first_of ty arg rest (S p)
  end.

(** What a call of [OptionBase::parse] may change in a descriptor: nothing of
    its matching contract, and [is_set_] only upwards. *)
Record evolves (o o' : OptionBase) : Prop := mk_evolves {
  evolves_type : get_type o' = get_type o;
  evolves_param_count : get_param_count o' = get_param_count o;
  evolves_is_set : is_set o = true -> is_set o' = true;
  evolves_matches : forall t, matches o t = false -> matches o' t = false
}.

Definition is_string_positional (o : OptionBase) : bool :=
  match o with
  | PositionalOption _ _ _ _ (VString _) => true
  | _ => false
  end.

(** The descriptor [o] once it has taken the token [tok] as its string. *)
Definition fill (o : OptionBase) (tok : string) : OptionBase :=
  set_is_set (set_val o (VString tok)) true.

(** ** Help strings *)

(** The loop of [KeywordOptionBase::get_help]: the identifiers, the first as
    it is and every later one after a comma and a space, appended to [tmp]. *)
Fixpoint join_identifiers (identifiers : list string) (is_first : bool)
    (tmp : string) : string :=
  match identifiers with
  | [] => tmp
  | str :: rest =>
      if is_first then join_identifiers rest false (tmp +:+ str)
      else join_identifiers rest false ((tmp +:+ ", ") +:+ str)
  end.

(** The [std::accumulate] of [KeywordOptionBase::get_help]: the capacity
    reserved for the joined string. *)
Definition reserve_length (identifiers : list string) : Z :=
  fold_left (fun length str => length + Z.of_nat (String.length str) + 2)
    identifiers 0.

(** [PositionalOptionBase::get_help] and [KeywordOptionBase::get_help]; a
    [CaptureOption] inherits the latter. *)
Definition get_help (o : OptionBase) : string * string :=
  match o with
  | PositionalOption name help is_required _ _ =>
      (if is_required then name else "[" +:+ (name +:+ "]"), help)
  | KeywordOption ids help _ _ => (join_identifiers ids true "", help)
  | CaptureOption ids help _ _ _ => (join_identifiers ids true "", help)
  end.

(** Whether [from_string] converts through a stream, the only conversion
    that can fail. *)
Definition uses_stream (o : OptionBase) : bool :=
  match o with
  | PositionalOption _ _ _ _ (VInt _) => true
  | PositionalOption _ _ _ _ (VBool _) => true
  | KeywordOption _ _ _ (VInt _) => true
  | _ => false
  end.

(** What no call of [OptionBase::parse] changes in a descriptor. *)
Record same_descriptor (o o' : OptionBase) : Prop := mk_same_descriptor {
  same_help : get_help o' = get_help o;
  same_type : get_type o' = get_type o;
  same_arity : get_param_count o' = get_param_count o;
  same_conversion : uses_stream o' = uses_stream o;
  same_identifiers :
    get_type o = KEYWORD -> forall t, matches o' t = matches o t
}.

(** ** Output streams and the help renderer *)

(** A [std::ostream] writing to a string, as far as [print_help] uses it:
    the characters written so far, the format flags, the field width and the
    fill character. The stream is taken to stay good. *)
Module Ostream.

(** [std::ios_base::fmtflags]: the three bits of [adjustfield] and, as a
    number, all the other bits. *)
Record fmtflags : Type := mk_fmtflags {
  adjust_left : bool;
  adjust_right : bool;
  adjust_internal : bool;
  other_bits : N
}.

Record t : Type := mk {
  buffer : string;
  flags : fmtflags;
  width : Z;
  fill : ascii
}.

(** [os << std::left]: [setf(left, adjustfield)]. *)
Definition std_left (os : t) : t :=
  mk (buffer os) (mk_fmtflags true false false (other_bits (flags os)))
    (width os) (fill os).

(** [os.flags(f)] *)
Definition set_flags (os : t) (f : fmtflags) : t :=
  mk (buffer os) f (width os) (fill os).

(** [os << std::setw(n)] *)
Definition setw (n : Z) (os : t) : t :=
  mk (buffer os) (flags os) n (fill os).

Fixpoint fill_n (n : nat) (c : ascii) : string :=
  match n with
  | O => EmptyString
  | S n' => String c (fill_n n' c)
  end.

(** Padding of a formatted insertion: up to the field width with the fill
    character, after the text when [adjustfield] is exactly [left] and
    before it otherwise. *)
Definition padded (os : t) (s : string) : string :=
  let n := Z.to_nat (width os - Z.of_nat (String.length s)) in
  if adjust_left (flags os) && negb (adjust_right (flags os))
     && negb (adjust_internal (flags os))
  then s +:+ fill_n n (fill os)
  else fill_n n (fill os) +:+ s.

(** [os << s] for a string, a string view or a character array: the padded
    text is written and the width is reset. *)
Definition put (os : t) (s : string) : t :=
  mk (buffer os +:+ padded os s) (flags os) 0 (fill os).

(** [os << c] for a character. *)
Definition put_char (os : t) (c : ascii) : t := put os (String c EmptyString).

End Ostream.

Definition newline : ascii := "010"%char.
Definition carriage_return : ascii := "013"%char.

(** The inner loop of [operator<<] for [impl::indented]:
    [for (size_t i = 0; i < val.width; i++) os << val.fill;]. *)
Fixpoint indent_loop (n : nat) (fill : ascii) (os : Ostream.t) : Ostream.t :=
  match n with
  | O => os
  | S n' => indent_loop n' fill (Ostream.put_char os fill)
  end.

(** [operator<<(std::ostream &, const impl::indented &)], for the object
    [indented(str, width, fill)]. *)
Fixpoint indented (str : string) (width : nat) (fill : ascii)
    (os : Ostream.t) : Ostream.t :=
  match str with
  | EmptyString => os
  | String c rest =>
      let os := Ostream.put_char os c in
      let os :=
        if Ascii.eqb c newline || Ascii.eqb c carriage_return
        then indent_loop width fill os
        else os in
      indented rest width fill os
  end.

(** [a - b] on [size_t], 64 bits wide. *)
Definition size_sub (a b : Z) : Z := (a - b) mod 2 ^ 64.

(** Conversion of a [size_t] to the [int] that [std::setw] takes. *)
Definition int_of_size (z : Z) : Z :=
  let m := z mod 2 ^ 32 in
  if m <? 2 ^ 31 then m else m - 2 ^ 32.

(** The body of the last loop of [print_help], for one option. *)
Definition print_option (min_w : Z) (os : Ostream.t) (opt : OptionBase)
    : Ostream.t :=
  let help := get_help opt in
  let os :=
    if Z.of_nat (String.length help.1) <=? size_sub min_w 2
    then
      Ostream.put
        (Ostream.put (Ostream.setw (int_of_size (size_sub min_w 2)) os) help.1)
        "  "
    else
      Ostream.put
        (Ostream.setw (int_of_size min_w)
           (Ostream.put (Ostream.put os help.1) (String newline "")))
        "" in
  Ostream.put (indented help.2 (Z.to_nat min_w) " " os) (String newline "").

(** The body of the loop over [split_opts.positional]. *)
Definition print_positional (opts : list OptionBase) (os : Ostream.t)
    (pos_opt : nat) : Ostream.t :=
  match opts !! pos_opt with
  | Some o => Ostream.put (Ostream.put os " ") (get_help o).1
  | None => os
  end.

(** [argp::print_help]; [min_w] is a [size_t]. *)
Definition print_help (os : Ostream.t) (cmd : string)
    (opts : list OptionBase) (min_w : Z) : Ostream.t :=
  let split_opts := split_options_ctor opts in
  let flags := Ostream.flags os in
  let os := Ostream.std_left os in
  let os := Ostream.put (Ostream.put os "Usage: ") cmd in
  let os :=
    if (0 <? length (keyword split_opts))%nat
    then Ostream.put os " <options>"
    else os in
  let os := fold_left (print_positional opts) (positional split_opts) os in
  let os :=
    Ostream.put os (String newline ("Options:" +:+ String newline "")) in
  let os := fold_left (print_option min_w) opts os in
  Ostream.set_flags os flags.

(** The identifiers after the first, each behind a comma and a space. *)
Fixpoint comma_tail (identifiers : list string) : string :=
  match identifiers with
  | [] => EmptyString
  | str :: rest => ", " +:+ (str +:+ comma_tail rest)
  end.

Definition is_line_break (c : ascii) : bool :=
  Ascii.eqb c newline || Ascii.eqb c carriage_return.

(** The text [str] with [width] copies of [fill] after each line break. *)
Definition indent_text (str : string) (width : nat) (fill : ascii) : string :=
  string_of_list_ascii
    (flat_map (fun c => c :: if is_line_break c then repeat fill width else [])
       (list_ascii_of_string str)).

(** The strings of a list one after the other. *)
Definition append_all (l : list string) : string :=
  fold_right String.append EmptyString l.

(** The name column of a help line for a column width [min_w >= 2] and the
    stream's fill character [c]: the name padded to [min_w - 2] characters
    and two spaces, or, when it is too long, the name, a line break and
    [min_w] fill characters. *)
Definition help_column (min_w : Z) (c : ascii) (name : string) : string :=
  if Z.of_nat (String.length name) <=? min_w - 2
  then name +:+ (Ostream.fill_n (Z.to_nat (min_w - 2) - String.length name) c
                 +:+ "  ")
  else name +:+ String newline (Ostream.fill_n (Z.to_nat min_w) c).

(** The help line of a descriptor. *)
Definition help_entry (min_w : Z) (c : ascii) (o : OptionBase) : string :=
  help_column min_w c (get_help o).1
  +:+ (indent_text (get_help o).2 (Z.to_nat min_w) " " +:+ String newline "").

(** The usage line. *)
Definition usage_line (cmd : string) (opts : list OptionBase) : string :=
  "Usage: "
  +:+ (cmd
       +:+ ((if existsb (fun o => Type_eqb (get_type o) KEYWORD) opts
             then " <options>" else "")
            +:+ append_all
                  (map (fun o => " " +:+ (get_help o).1)
                     (List.filter
                        (fun o => Type_eqb (get_type o) POSITIONAL) opts)))).

Definition left_adjusted (f : Ostream.fmtflags) : Prop :=
  Ostream.adjust_left f = true /\ Ostream.adjust_right f = false /\
  Ostream.adjust_internal f = false.

(** [os'] is [os] after some more output: more characters in the buffer
    and the same fill character. *)
Definition stream_extends (os os' : Ostream.t) : Prop :=
  Ostream.fill os' = Ostream.fill os /\
  exists text, Ostream.buffer os' = Ostream.buffer os +:+ text.

(** ** The first revision: options by name in three maps

    [class ArgParser] of the revision that declares options as plain
    [Option] structs and keeps the parsed values in one
    [std::unordered_map] per type, keyed by the option's name. *)
Module Flat.

Inductive OptionType : Type := FLAG | STRING | INT.

(** [struct Option] *)
Record Option_ : Type := mk_Option {
  name : string;
  identifiers : list string;
  opt_type : OptionType;
  help : string
}.

Inductive exception : Type :=
| invalid_argument (what : string)
| logic_error (what : string)
| out_of_range (what : string).

Inductive result (A : Type) : Type :=
| Return (a : A)
| Throw (e : exception)
| Undefined.
Arguments Return {A} a.
Arguments Throw {A} e.
Arguments Undefined {A}.

Record t : Type := mk {
  options_ : list Option_;
  options_flag : gmap string bool;
  options_string : gmap string string;
  options_int : gmap string Z;
  unrecognised : list string;
  default_flag : bool;
  default_string : string;
  default_int : Z
}.

(** [std::stoi(str)]: white space, an optional sign and decimal digits;
    [std::invalid_argument] when there is no digit, [std::out_of_range] when
    the number does not fit an [int]. The messages are those of the
    library. *)
Definition stoi (str : string) : result Z :=
  match Istream.field (Istream.skipws str) with
  | None => Throw (invalid_argument "stoi")
  | Some v =>
      if (v <? Istream.INT_MIN) || (Istream.INT_MAX <? v)
      then Throw (out_of_range "stoi")
      else Return v
  end.

(** [m.insert({k, v})] of a [std::unordered_map]: no effect when the key is
    there already. *)
Definition map_insert {V : Type} (k : string) (v : V) (m : gmap string V)
    : gmap string V :=
  match m !! k with
  | Some _ => m
  | None => <[k := v]> m
  end.

(** [ArgParser::set_value] *)
Definition set_value (this : t) (opt : Option_) (value : string)
    : result unit * t :=
  match opt_type opt with
  | FLAG =>
      (Return tt,
       mk (options_ this) (map_insert (name opt) true (options_flag this))
         (options_string this) (options_int this) (unrecognised this)
         (default_flag this) (default_string this) (default_int this))
  | STRING =>
      (Return tt,
       mk (options_ this) (options_flag this)
         (map_insert (name opt) value (options_string this))
         (options_int this) (unrecognised this)
         (default_flag this) (default_string this) (default_int this))
  | INT =>
      match stoi value with
      | Return n =>
          (Return tt,
           mk (options_ this) (options_flag this) (options_string this)
             (map_insert (name opt) n (options_int this)) (unrecognised this)
             (default_flag this) (default_string this) (default_int this))
      | Throw e => (Throw e, this)
      | Undefined => (Undefined, this)
      end
  end.

(** [ArgParser::set_defaults] *)
Definition set_defaults (this : t) (b : bool) (s : string) (i : Z) : t :=
  mk (options_ this) (options_flag this) (options_string this)
    (options_int this) (unrecognised this) b s i.

(** The constructor: no value stored, the defaults [false], [""], [-1]. *)
Definition new (options : list Option_) : t :=
  set_defaults (mk options ∅ ∅ ∅ [] false "" 0) false "" (-1).

Definition get_flag (this : t) (name : string) : bool :=
  match options_flag this !! name with
  | None => default_flag this
  | Some v => v
  end.

Definition get_string (this : t) (name : string) : string :=
  match options_string this !! name with
  | None => default_string this
  | Some v => v
  end.

Definition get_int (this : t) (name : string) : Z :=
  match options_int this !! name with
  | None => default_int this
  | Some v => v
  end.

Definition get_unrecognised (this : t) : list string := unrecognised this.

(** The loop over the identifiers of one option, up to the first that is
    equal to the token. *)
Fixpoint find_identifier (arg : string) (ids : list string) : option string :=
  match ids with
  | [] => None
  | str :: rest =>
      if String.eqb str arg then Some str else find_identifier arg rest
  end.

(** The loop over the options, up to the first with such an identifier. *)
Fixpoint find_option (arg : string) (opts : list Option_)
    : option (Option_ * string) :=
  match opts with
  | [] => None
  | opt :: rest =>
      match find_identifier arg (identifiers opt) with
      | Some str => Some (opt, str)
      | None => find_option arg rest
      end
  end.

Definition dquote : string := String "034"%char EmptyString.

Definition push_unrecognised (this : t) (arg : string) : t :=
  mk (options_ this) (options_flag this) (options_string this)
    (options_int this) (unrecognised this ++ [arg])
    (default_flag this) (default_string this) (default_int this).

Definition empty (v : list string) : bool :=
  match v with [] => true | _ => false end.

(** The outer loop of [ArgParser::parse], from index [i]; [fuel] bounds the
    number of iterations. *)
Fixpoint parse_loop (fuel : nat) (argc : Z) (argv : list string) (i : Z)
    (this : t) : option (result bool * t) :=
  if i <? argc then
    match fuel with
    | O => None
    | S fuel' =>
        match argv_at argv i with
        | None => Some (Undefined, this)
        | Some arg =>
            match find_option arg (options_ this) with
            | Some (opt, str) =>
                match opt_type opt with
                | FLAG =>
                    match set_value this opt "" with
                    | (Return tt, this') =>
                        parse_loop fuel' argc argv (i + 1) this'
                    | (Throw e, this') => Some (Throw e, this')
                    | (Undefined, this') => Some (Undefined, this')
                    end
                | _ =>
                    if i + 1 <? argc then
                      let i := i + 1 in
                      match argv_at argv i with
                      | None => Some (Undefined, this)
                      | Some value =>
                          match set_value this opt value with
                          | (Return tt, this') =>
                              parse_loop fuel' argc argv (i + 1) this'
                          | (Throw (invalid_argument _), this') =>
                              Some (Throw
                                      (invalid_argument
                                         ("Invalid argument type after: "
                                          +:+ (dquote +:+ (str +:+ dquote)))),
                                    this')
                          | (Throw e, this') => Some (Throw e, this')
                          | (Undefined, this') => Some (Undefined, this')
                          end
                      end
                    else
                      Some (Throw
                              (logic_error
                                 ("Missing argument after: "
                                  +:+ (dquote +:+ (str +:+ dquote)))),
                            this)
                end
            | None =>
                parse_loop fuel' argc argv (i + 1) (push_unrecognised this arg)
            end
        end
    end
  else Some (Return (empty (unrecognised this)), this).

(** [ArgParser::parse] *)
Definition parse (this : t) (argc : Z) (argv : list string)
    (skip_first_n : Z) : option (result bool * t) :=
  parse_loop (Z.to_nat argc) argc argv skip_first_n this.

End Flat.

(** What a parse of the first revision may change in the parser object:
    the option list and the defaults stay, a stored value stays, the
    unrecognised tokens already collected stay in front. *)
Record flat_grows (this this' : Flat.t) : Prop := mk_flat_grows {
  grows_options : Flat.options_ this' = Flat.options_ this;
  grows_default_flag : Flat.default_flag this' = Flat.default_flag this;
  grows_default_string : Flat.default_string this' = Flat.default_string this;
  grows_default_int : Flat.default_int this' = Flat.default_int this;
  grows_flag : Flat.options_flag this ⊆ Flat.options_flag this';
  grows_string : Flat.options_string this ⊆ Flat.options_string this';
  grows_int : Flat.options_int this ⊆ Flat.options_int this'
}.

(** Every stored value belongs to a declared option of its type, a stored
    flag is true and a stored number fits an [int]. *)
Record flat_well_keyed (this : Flat.t) : Prop := mk_flat_well_keyed {
  keyed_flag : forall n b,
    Flat.options_flag this !! n = Some b ->
    b = true /\
    exists opt, opt ∈ Flat.options_ this /\ Flat.name opt = n /\
                Flat.opt_type opt = Flat.FLAG;
  keyed_string : forall n v,
    Flat.options_string this !! n = Some v ->
    exists opt, opt ∈ Flat.options_ this /\ Flat.name opt = n /\
                Flat.opt_type opt = Flat.STRING;
  keyed_int : forall n v,
    Flat.options_int this !! n = Some v ->
    Istream.INT_MIN <= v <= Istream.INT_MAX /\
    exists opt, opt ∈ Flat.options_ this /\ Flat.name opt = n /\
                Flat.opt_type opt = Flat.INT
}.

(** ** Tokens that begin with a number *)

Fixpoint all_spaces (s : string) : bool :=
  match s with
  | EmptyString => true
  | String c rest => Istream.isspace c && all_spaces rest
  end.

(** [leading_number tok n]: [tok] is white space, an optional sign, a
    non-empty run of decimal digits and then anything that does not go on
    with a digit; [n] is the number that the sign and the digits spell. *)
Inductive leading_number : string -> Z -> Prop :=
| leading_unsigned ws digits garbage :
    all_spaces ws = true -> digits <> "" -> all_digits digits = true ->
    starts_with Istream.isdigit garbage = false ->
    leading_number (ws +:+ (digits +:+ garbage)) (decimal digits)
| leading_plus ws digits garbage :
    all_spaces ws = true -> digits <> "" -> all_digits digits = true ->
    starts_with Istream.isdigit garbage = false ->
    leading_number (ws +:+ String "+" (digits +:+ garbage)) (decimal digits)
| leading_minus ws digits garbage :
    all_spaces ws = true -> digits <> "" -> all_digits digits = true ->
    starts_with Istream.isdigit garbage = false ->
    leading_number (ws +:+ String "-" (digits +:+ garbage))
      (- decimal digits).

(** The white space that [tok] starts with. *)
Fixpoint space_prefix (s : string) : string :=
  match s with
  | String c rest =>
      if Istream.isspace c then String c (space_prefix rest) else EmptyString
  | EmptyString => EmptyString
  end.

(** The digits that [s] starts with, and what follows them. *)
Fixpoint digit_prefix (s : string) : string :=
  match s with
  | String c rest =>
      if Istream.isdigit c then String c (digit_prefix rest) else EmptyString
  | EmptyString => EmptyString
  end.

Fixpoint digit_rest (s : string) : string :=
  match s with
  | String c rest => if Istream.isdigit c then digit_rest rest else s
  | EmptyString => EmptyString
  end.

(** * Properties *)

(** ** Stream extraction *)
Section Extraction.
Import Istream.

Lemma append_empty g : "" +:+ g = g.
Proof. reflexivity. Qed.

Lemma append_String c s g : String c s +:+ g = String c (s +:+ g).
Proof. reflexivity. Qed.

Lemma digit_is_not_space c : isdigit c = true -> isspace c = false.
Proof.
  unfold isdigit, isspace. intros H.
  apply andb_true_iff in H as [H1 H2].
  apply Nat.leb_le in H1. apply Nat.leb_le in H2.
  apply orb_false_iff. split.
  - apply Nat.eqb_neq. lia.
  - apply andb_false_iff. right. apply Nat.leb_gt. lia.
Qed.

Lemma digit_value_bounds c : 0 <= digit_value c.
Proof. unfold digit_value. lia. Qed.

Lemma decimal_nonneg s : 0 <= decimal s.
Proof.
  induction s as [|c s IH]; simpl; [lia|].
  pose proof (digit_value_bounds c).
  assert (0 <= 10 ^ Z.of_nat (String.length s)) by (apply Z.pow_nonneg; lia).
  nia.
Qed.

(** The digits of the field are read by Horner's rule; what follows the
    last digit is never looked at. *)
Lemma accumulate_digits digits : forall garbage a,
  all_digits digits = true ->
  starts_with isdigit garbage = false ->
  accumulate (digits +:+ garbage) (Some a)
  = Some (a * 10 ^ Z.of_nat (String.length digits) + decimal digits).
Proof.
  induction digits as [|c ds IH]; intros garbage a Hd Hg.
  - rewrite append_empty. cbn [String.length decimal Z.of_nat].
    destruct garbage as [|g gs]; cbn [accumulate starts_with] in *.
    + f_equal. rewrite Z.pow_0_r. lia.
    + rewrite Hg. f_equal. rewrite Z.pow_0_r. lia.
  - cbn [all_digits] in Hd. apply andb_true_iff in Hd as [Hc Hds].
    rewrite append_String. cbn [accumulate]. rewrite Hc.
    rewrite (IH garbage _ Hds Hg). f_equal.
    cbn [decimal String.length default].
    rewrite Nat2Z.inj_succ, Z.pow_succ_r by lia. unfold id. ring.
Qed.

Lemma field_of_digit c s :
  isdigit c = true -> field (String c s) = accumulate (String c s) None.
Proof.
  destruct c as [[] [] [] [] [] [] [] []]; try discriminate; reflexivity.
Qed.

Lemma get_long_digits digits garbage :
  digits <> "" -> all_digits digits = true ->
  starts_with isdigit garbage = false ->
  decimal digits <= LONG_MAX ->
  get_long (digits +:+ garbage) = Some (false, decimal digits).
Proof.
  intros Hne Hd Hg Hmax. destruct digits as [|c ds]; [done|].
  pose proof (decimal_nonneg (String c ds)) as Hpos.
  cbn [all_digits] in Hd. apply andb_true_iff in Hd as [Hc Hds].
  unfold get_long. rewrite append_String. cbn [skipws].
  rewrite (digit_is_not_space c Hc), (field_of_digit c _ Hc).
  cbn [accumulate]. rewrite Hc.
  rewrite (accumulate_digits ds garbage _ Hds Hg).
  replace (10 * default 0 None + digit_value c) with (digit_value c)
    by (cbn [default]; lia).
  change (digit_value c * 10 ^ Z.of_nat (String.length ds) + decimal ds)
    with (decimal (String c ds)).
  destruct (Z.ltb_spec (decimal (String c ds)) LONG_MIN);
    [unfold LONG_MIN in *; lia|].
  destruct (Z.ltb_spec LONG_MAX (decimal (String c ds))); [lia|done].
Qed.

(** A leading number is extracted whatever follows it. *)
Lemma extract_int_digits digits garbage v0 :
  digits <> "" -> all_digits digits = true ->
  starts_with isdigit garbage = false ->
  decimal digits <= INT_MAX ->
  extract_int (digits +:+ garbage) v0 = (false, decimal digits).
Proof.
  intros Hne Hd Hg Hmax. unfold extract_int.
  rewrite (get_long_digits digits garbage Hne Hd Hg)
    by (unfold INT_MAX, LONG_MAX in *; lia).
  pose proof (decimal_nonneg digits).
  destruct (Z.ltb_spec (decimal digits) INT_MIN);
    [unfold INT_MIN in *; lia|].
  destruct (Z.ltb_spec INT_MAX (decimal digits)); [lia|done].
Qed.

(** A token that starts with neither white space, a sign nor a digit
    fails, and zero is stored. *)
Lemma extract_int_no_number tok v0 :
  starts_with (fun c => negb (isspace c || isdigit c || is_sign c)) tok
  = true ->
  extract_int tok v0 = (true, 0).
Proof.
  destruct tok as [|c s]; [done|]. cbn [starts_with].
  destruct c as [[] [] [] [] [] [] [] []]; try discriminate; reflexivity.
Qed.

(** *** Tokens that begin with a number *)

Lemma skipws_spaces ws rest :
  all_spaces ws = true -> starts_with isspace rest = false ->
  skipws (ws +:+ rest) = rest.
Proof.
  intros Hws Hrest. induction ws as [|c ws IH].
  - rewrite append_empty. destruct rest as [|r rest]; [done|].
    cbn [skipws starts_with] in *. by rewrite Hrest.
  - cbn [all_spaces] in Hws. apply andb_true_iff in Hws as [Hc Hws].
    rewrite append_String. cbn [skipws]. rewrite Hc. by apply IH.
Qed.

Lemma space_prefix_skipws tok :
  tok = space_prefix tok +:+ skipws tok /\
  all_spaces (space_prefix tok) = true /\
  starts_with isspace (skipws tok) = false.
Proof.
  induction tok as [|c tok (IH1 & IH2 & IH3)]; [done|].
  cbn [space_prefix skipws]. destruct (isspace c) eqn:Hc.
  - rewrite append_String. cbn [all_spaces]. rewrite Hc.
    split; [by rewrite <- IH1|done].
  - rewrite append_empty. cbn [all_spaces starts_with]. by rewrite Hc.
Qed.

Lemma skipws_all_spaces tok : skipws tok = "" <-> all_spaces tok = true.
Proof.
  induction tok as [|c tok IH]; [done|].
  cbn [skipws all_spaces]. destruct (isspace c); [done|].
  split; discriminate.
Qed.

Lemma digit_split s :
  s = digit_prefix s +:+ digit_rest s /\
  all_digits (digit_prefix s) = true /\
  starts_with isdigit (digit_rest s) = false.
Proof.
  induction s as [|c s (IH1 & IH2 & IH3)]; [done|].
  cbn [digit_prefix digit_rest]. destruct (isdigit c) eqn:Hc.
  - rewrite append_String. cbn [all_digits]. rewrite Hc.
    split; [by rewrite <- IH1|done].
  - rewrite append_empty. cbn [all_digits starts_with]. by rewrite Hc.
Qed.

Lemma digit_prefix_digits digits garbage :
  all_digits digits = true -> starts_with isdigit garbage = false ->
  digit_prefix (digits +:+ garbage) = digits.
Proof.
  intros Hd Hg. induction digits as [|c ds IH].
  - rewrite append_empty. destruct garbage as [|g gs]; [done|].
    cbn [digit_prefix starts_with] in *. by rewrite Hg.
  - cbn [all_digits] in Hd. apply andb_true_iff in Hd as [Hc Hds].
    rewrite append_String. cbn [digit_prefix]. rewrite Hc.
    by rewrite IH.
Qed.

Lemma accumulate_prefix s : forall a,
  accumulate s (Some a)
  = Some (a * 10 ^ Z.of_nat (String.length (digit_prefix s))
          + decimal (digit_prefix s)).
Proof.
  induction s as [|c s IH]; intros a; cbn [accumulate digit_prefix].
  - cbn [String.length decimal Z.of_nat]. f_equal. rewrite Z.pow_0_r. lia.
  - destruct (isdigit c).
    + rewrite IH. f_equal. cbn [decimal String.length default].
      rewrite Nat2Z.inj_succ, Z.pow_succ_r by lia. unfold id. ring.
    + cbn [String.length decimal Z.of_nat]. f_equal.
      rewrite Z.pow_0_r. lia.
Qed.

(** The number read from a field without a sign: the digits it starts
    with, if there are any. *)
Lemma accumulate_None s :
  accumulate s None
  = match digit_prefix s with
    | EmptyString => None
    | p => Some (decimal p)
    end.
Proof.
  destruct s as [|c s]; [done|]. cbn [accumulate digit_prefix].
  destruct (isdigit c); [|done].
  rewrite accumulate_prefix. f_equal; try (cbn [decimal default]; lia).
Qed.

Lemma field_cases c s :
  field (String c s)
  = if Ascii.eqb c "-" then Z.opp <$> accumulate s None
    else if Ascii.eqb c "+" then accumulate s None
    else accumulate (String c s) None.
Proof. by destruct c as [[] [] [] [] [] [] [] []]. Qed.

Lemma accumulate_digits_None digits garbage :
  digits <> "" -> all_digits digits = true ->
  starts_with isdigit garbage = false ->
  accumulate (digits +:+ garbage) None = Some (decimal digits).
Proof.
  intros Hne Hd Hg. rewrite accumulate_None, digit_prefix_digits by done.
  by destruct digits.
Qed.

Lemma accumulate_None_inv s n :
  accumulate s None = Some n ->
  exists digits garbage,
    s = digits +:+ garbage /\ digits <> "" /\ all_digits digits = true /\
    starts_with isdigit garbage = false /\ n = decimal digits.
Proof.
  rewrite accumulate_None. intros H.
  destruct (digit_split s) as (Hs & Hd & Hg).
  exists (digit_prefix s), (digit_rest s).
  destruct (digit_prefix s) as [|c p]; [done|].
  injection H as <-. by repeat split.
Qed.

(** [leading_number] says what the extraction reads: the field behind the
    white space holds the number [n]. *)
Lemma leading_number_field tok n :
  leading_number tok n <-> field (skipws tok) = Some n.
Proof.
  split.
  - intros [ws digits garbage Hws Hne Hd Hg
            | ws digits garbage Hws Hne Hd Hg
            | ws digits garbage Hws Hne Hd Hg].
    + destruct digits as [|c ds] eqn:E; [done|]. rewrite <- E in *.
      assert (isdigit c = true) as Hc.
      { rewrite E in Hd. cbn [all_digits] in Hd.
        by apply andb_true_iff in Hd as [? _]. }
      rewrite skipws_spaces;
        [|done|rewrite E, append_String; cbn [starts_with];
               by apply digit_is_not_space].
      rewrite <- (accumulate_digits_None digits garbage) by done.
      rewrite E, append_String. by apply field_of_digit.
    + rewrite skipws_spaces by done. rewrite field_cases.
      change (Ascii.eqb "+" "-") with false.
      change (Ascii.eqb "+" "+") with true. cbn match.
      by apply accumulate_digits_None.
    + rewrite skipws_spaces by done. rewrite field_cases.
      change (Ascii.eqb "-" "-") with true. cbn match.
      by rewrite accumulate_digits_None.
  - intros H. destruct (space_prefix_skipws tok) as (Htok & Hws & _).
    destruct (skipws tok) as [|c s] eqn:Hs; [done|].
    rewrite field_cases in H.
    destruct (Ascii.eqb_spec c "-") as [->|Hminus].
    { destruct (accumulate s None) as [m|] eqn:Hm; [|done].
      injection H as <-.
      apply accumulate_None_inv in Hm
        as (digits & garbage & -> & Hne & Hd & Hg & ->).
      rewrite Htok. by apply leading_minus. }
    destruct (Ascii.eqb_spec c "+") as [->|Hplus].
    { apply accumulate_None_inv in H
        as (digits & garbage & -> & Hne & Hd & Hg & ->).
      rewrite Htok. by apply leading_plus. }
    apply accumulate_None_inv in H
      as (digits & garbage & Hcs & Hne & Hd & Hg & ->).
    rewrite Htok, Hcs. by apply leading_unsigned.
Qed.

Lemma leading_number_unique tok n m :
  leading_number tok n -> leading_number tok m -> n = m.
Proof. rewrite !leading_number_field. congruence. Qed.

Lemma no_leading_number tok :
  (forall n, ~ leading_number tok n) <-> field (skipws tok) = None.
Proof.
  split.
  - intros H. destruct (field (skipws tok)) as [n|] eqn:E; [|done].
    by apply leading_number_field, H in E.
  - intros H n Hn. apply leading_number_field in Hn. congruence.
Qed.

(** A token of white space only holds no number. *)
Lemma all_spaces_no_number tok :
  all_spaces tok = true -> field (skipws tok) = None.
Proof. intros H. apply skipws_all_spaces in H. by rewrite H. Qed.

(** [get_long] in terms of the field behind the white space. *)
Lemma get_long_field tok :
  get_long tok
  = if all_spaces tok then None
    else Some match field (skipws tok) with
              | None => (true, 0)
              | Some v =>
                  if v <? LONG_MIN then (true, LONG_MIN)
                  else if LONG_MAX <? v then (true, LONG_MAX)
                  else (false, v)
              end.
Proof.
  unfold get_long. destruct (all_spaces tok) eqn:Hsp.
  - apply skipws_all_spaces in Hsp. by rewrite Hsp.
  - destruct (skipws tok) eqn:Hs; [|done].
    apply skipws_all_spaces in Hs. congruence.
Qed.

(** [operator>>(int &)] in terms of the field behind the white space. *)
Lemma extract_int_field tok v0 :
  extract_int tok v0
  = if all_spaces tok then (true, v0)
    else match field (skipws tok) with
         | None => (true, 0)
         | Some v =>
             if v <? INT_MIN then (true, INT_MIN)
             else if INT_MAX <? v then (true, INT_MAX)
             else (false, v)
         end.
Proof.
  unfold extract_int. rewrite get_long_field.
  destruct (all_spaces tok); [done|].
  destruct (field (skipws tok)) as [v|]; [|done].
  unfold LONG_MIN, LONG_MAX, INT_MIN, INT_MAX.
  repeat match goal with
         | |- context [?a <? ?b] => destruct (Z.ltb_spec a b)
         end; try done; lia.
Qed.

(** [operator>>(bool &)] in terms of the field behind the white space. *)
Lemma extract_bool_field tok b :
  extract_bool tok b
  = if all_spaces tok then (true, b)
    else match field (skipws tok) with
         | None => (true, false)
         | Some v =>
             if v =? 0 then (false, false)
             else if v =? 1 then (false, true)
             else (true, true)
         end.
Proof.
  unfold extract_bool. rewrite get_long_field.
  destruct (all_spaces tok); [done|].
  destruct (field (skipws tok)) as [v|]; [|done].
  unfold LONG_MIN, LONG_MAX.
  repeat match goal with
         | |- context [?a <? ?b] => destruct (Z.ltb_spec a b)
         | |- context [?a =? ?b] => destruct (Z.eqb_spec a b)
         end; try done; lia.
Qed.

End Extraction.

(** ** Descriptors *)
Section Descriptors.

Lemma Type_eqb_eq a b : Type_eqb a b = true <-> a = b.
Proof. destruct a, b; simpl; split; congruence. Qed.

Lemma matches_identifiers_elem ids t :
  matches_identifiers ids t = true <-> t ∈ ids.
Proof.
  induction ids as [|id ids IH]; simpl.
  - split; [discriminate|]. intros H. inversion H.
  - destruct (String.eqb_spec id t) as [->|Hne].
    + split; [intros _; left | done].
    + rewrite IH. split; [by right|].
      intros H. inversion H; subst; [done | assumption].
Qed.

(** [OptionBase::parse] sets [is_set_] after a conversion that returned and
    leaves it alone otherwise. *)
Lemma parse_is_set o strings :
  is_set (OptionBase_parse o strings).2
  = match (OptionBase_parse o strings).1 with
    | Return _ => true
    | _ => is_set o
    end.
Proof.
  unfold OptionBase_parse, from_string, at_index, stream_from_string.
  destruct o as [n h r s v | ids h s v | ids h pc s c]; simpl.
  - destruct (strings !! 0%nat); [|done].
    destruct v; simpl; try done.
    + destruct (Istream.extract_int _ _) as [[] ?]; done.
    + destruct (Istream.extract_bool _ _) as [[] ?]; done.
  - destruct v; simpl; try done.
    + destruct (strings !! 1%nat); [|done]. simpl.
      destruct (Istream.extract_int _ _) as [[] ?]; done.
    + destruct (strings !! 1%nat); done.
  - done.
Qed.

(** [from_string] itself never writes [is_set_]. *)
Lemma from_string_is_set o strings :
  is_set (from_string o strings).2 = is_set o.
Proof.
  unfold from_string, at_index, stream_from_string.
  destruct o as [n h r s v | ids h s v | ids h pc s c]; simpl.
  - destruct (strings !! 0%nat); [|done].
    destruct v; simpl; try done.
    + by destruct (Istream.extract_int _ _) as [[] ?].
    + by destruct (Istream.extract_bool _ _) as [[] ?].
  - destruct v; simpl; try done.
    + destruct (strings !! 1%nat); [|done]. simpl.
      by destruct (Istream.extract_int _ _) as [[] ?].
    + by destruct (strings !! 1%nat).
  - done.
Qed.

Lemma is_set_set_is_set o b : is_set (set_is_set o b) = b.
Proof. by destruct o. Qed.

Lemma parse_evolves o strings : evolves o (OptionBase_parse o strings).2.
Proof.
  unfold OptionBase_parse, from_string, at_index, stream_from_string.
  destruct o as [n h r s v | ids h s v | ids h pc s c]; simpl.
  - destruct (strings !! 0%nat); [|by split].
    destruct v; simpl;
      [destruct (Istream.extract_int _ _) as [[] ?]
      | | destruct (Istream.extract_bool _ _) as [[] ?]];
      split; simpl; auto.
  - destruct v; simpl; [destruct (strings !! 1%nat); simpl | |];
      [destruct (Istream.extract_int _ _) as [[] ?] | |
       destruct (strings !! 1%nat) |];
      split; simpl; auto.
  - split; simpl; auto.
Qed.

Lemma evolves_refl o : evolves o o.
Proof. by split. Qed.

Lemma evolves_trans o1 o2 o3 : evolves o1 o2 -> evolves o2 o3 -> evolves o1 o3.
Proof.
  intros [] []. split; try congruence; auto.
Qed.

(** With as many strings as its arity asks for, a descriptor never reads
    outside the vector. *)
Lemma parse_defined o strings :
  (Z.to_nat (get_param_count o) < length strings)%nat ->
  (OptionBase_parse o strings).1 <> Undefined.
Proof.
  unfold OptionBase_parse, from_string, at_index, stream_from_string.
  destruct o as [n h r s v | ids h s v | ids h pc s c]; simpl; intros Hlen.
  - destruct strings as [|s0 strings]; [simpl in Hlen; lia|]. simpl.
    destruct v; simpl; try done.
    + destruct (Istream.extract_int _ _) as [[] ?]; done.
    + destruct (Istream.extract_bool _ _) as [[] ?]; done.
  - destruct v; simpl in *; try done.
    + destruct strings as [|s0 [|s1 strings]]; simpl in Hlen; try lia.
      simpl. destruct (Istream.extract_int _ _) as [[] ?]; done.
    + destruct strings as [|s0 [|s1 strings]]; simpl in Hlen; try lia.
      done.
  - done.
Qed.

(** With enough strings, [OptionBase::parse] returns, or throws the error
    of a conversion through a stream. *)
Lemma parse_outcome o strings :
  (Z.to_nat (get_param_count o) < length strings)%nat ->
  (exists o', OptionBase_parse o strings = (Return tt, o')) \/
  (uses_stream o = true /\
   exists o', OptionBase_parse o strings = (Throw ConversionError, o')).
Proof.
  unfold OptionBase_parse, from_string, at_index, stream_from_string.
  destruct o as [n h r s v | ids h s v | ids h pc s c]; simpl; intros Hlen.
  - destruct strings as [|s0 strings]; [simpl in Hlen; lia|]. simpl.
    destruct v; simpl; eauto.
    + destruct (Istream.extract_int _ _) as [[] ?]; eauto.
    + destruct (Istream.extract_bool _ _) as [[] ?]; eauto.
  - destruct v; simpl in *; eauto.
    + destruct strings as [|s0 [|s1 strings]]; simpl in Hlen; try lia.
      simpl. destruct (Istream.extract_int _ _) as [[] ?]; eauto.
    + destruct strings as [|s0 [|s1 strings]]; simpl in Hlen; try lia.
      eauto.
  - eauto.
Qed.

(** The conversion of an [int] descriptor, in one equation. *)
Lemma int_parse_unfold o strings v0 tok :
  get_val o = Some (VInt v0) -> param_token o strings = Some tok ->
  OptionBase_parse o strings
  = (let '(bad, v') := Istream.extract_int tok v0 in
     if bad then (Throw ConversionError, set_val o (VInt v'))
     else (Return tt, set_is_set (set_val o (VInt v')) true)).
Proof.
  unfold OptionBase_parse, from_string, at_index, stream_from_string.
  destruct o as [n h r s v | ids h s v | ids h pc s c]; simpl;
    intros [= ->] Htok; try done; rewrite Htok; simpl;
    destruct (Istream.extract_int _ _) as [[] ?]; done.
Qed.

End Descriptors.

(** ** Matcher *)
Section Matcher.

Lemma split_options_loop_indices l : forall p this,
  split_options_loop l p this
  = mk_split_options (positional this ++ indices_of POSITIONAL l p)
      (keyword this ++ indices_of KEYWORD l p).
Proof.
  induction l as [|o l IH]; intros p [ps ks]; simpl.
  - by rewrite !app_nil_r.
  - rewrite IH. destruct (get_type o); simpl; by rewrite <- ?app_assoc.
Qed.

Lemma split_options_indices opts :
  split_options_ctor opts
  = mk_split_options (indices_of POSITIONAL opts 0)
      (indices_of KEYWORD opts 0).
Proof. unfold split_options_ctor. by rewrite split_options_loop_indices. Qed.

(** Following the pointers of one kind is a scan of the registry that
    skips the other kind. *)
Lemma first_match_indices ty arg l : forall pre,
  first_match arg (pre ++ l) (indices_of ty l (length pre))
  = first_of ty arg l (length pre).
Proof.
  induction l as [|o l IH]; intros pre; [done|].
  specialize (IH (pre ++ [o])).
  rewrite length_app, Nat.add_1_r, <- app_assoc in IH. simpl in IH.
  simpl. destruct (Type_eqb (get_type o) ty); simpl; [|exact IH].
  rewrite list_lookup_middle by done.
  destruct (matches o arg); [done | exact IH].
Qed.

Lemma match_option_first_of arg opts :
  match_option arg opts
  = match first_of KEYWORD arg opts 0 with
    | Some k => Some k
    | None => first_of POSITIONAL arg opts 0
    end.
Proof.
  unfold match_option. rewrite split_options_indices. simpl.
  by rewrite !(first_match_indices _ arg opts []).
Qed.

Lemma first_of_Some ty arg l : forall p k,
  first_of ty arg l p = Some k <->
  exists o, (p <= k)%nat /\ l !! (k - p)%nat = Some o /\ get_type o = ty /\
    matches o arg = true /\
    forall j o', (j < k - p)%nat -> l !! j = Some o' -> get_type o' = ty ->
      matches o' arg = false.
Proof.
  induction l as [|o l IH]; intros p k; simpl.
  - split; [discriminate | intros (? & _ & ? & _); discriminate].
  - destruct (Type_eqb (get_type o) ty && matches o arg) eqn:E.
    + apply andb_true_iff in E as [Et Em]. apply Type_eqb_eq in Et.
      split.
      * intros [= <-]. exists o. rewrite Nat.sub_diag.
        repeat split; try done. intros; lia.
      * intros (o1 & Hle & Hk & Ht & Hm & Hfirst).
        destruct (k - p)%nat as [|d] eqn:Ed; [f_equal; lia|].
        rewrite (Hfirst 0%nat o) in Em; [done | lia | done | done].
    + rewrite IH. split.
      * intros (o1 & Hle & Hk & Ht & Hm & Hfirst). exists o1.
        replace (k - p)%nat with (S (k - S p)) by lia.
        repeat split; try done; [lia|].
        intros [|j] o' Hj Ho' Hty.
        -- simpl in Ho'. injection Ho' as <-.
           apply andb_false_iff in E as [E|E]; [|done].
           apply Type_eqb_eq in Hty. congruence.
        -- apply (Hfirst j); [lia | done | done].
      * intros (o1 & Hle & Hk & Ht & Hm & Hfirst).
        destruct (k - p)%nat as [|d] eqn:Ed.
        -- simpl in Hk. injection Hk as ->.
           apply Type_eqb_eq in Ht. rewrite Ht, Hm in E. done.
        -- exists o1. replace (k - S p)%nat with d by lia.
           repeat split; try done; [lia|].
           intros j o' Hj. apply (Hfirst (S j)). lia.
Qed.

Lemma first_of_None ty arg l : forall p,
  first_of ty arg l p = None <->
  forall j o', l !! j = Some o' -> get_type o' = ty -> matches o' arg = false.
Proof.
  induction l as [|o l IH]; intros p; simpl.
  - split; [intros _ j o' H; discriminate | done].
  - destruct (Type_eqb (get_type o) ty && matches o arg) eqn:E.
    + apply andb_true_iff in E as [Et Em]. apply Type_eqb_eq in Et.
      split; [discriminate|]. intros H.
      rewrite (H 0%nat o) in Em; done.
    + rewrite IH. split.
      * intros H [|j] o' Ho' Hty; [|by apply (H j)].
        simpl in Ho'. injection Ho' as <-.
        apply andb_false_iff in E as [E|E]; [|done].
        apply Type_eqb_eq in Hty. congruence.
      * intros H j o' Ho'. by apply (H (S j)).
Qed.

Lemma match_option_None arg opts :
  match_option arg opts = None <->
  forall j o, opts !! j = Some o -> matches o arg = false.
Proof.
  rewrite match_option_first_of.
  destruct (first_of KEYWORD arg opts 0) as [k|] eqn:Ek.
  - split; [discriminate|]. intros H.
    apply first_of_Some in Ek as (o & _ & Hk & _ & Hm & _).
    rewrite (H _ _ Hk) in Hm. done.
  - rewrite first_of_None in Ek. rewrite first_of_None. split.
    + intros Hp j o Hj. destruct (get_type o) eqn:Ht; eauto.
    + intros H j o Hj _. eauto.
Qed.

Lemma match_option_Some arg opts k :
  match_option arg opts = Some k <->
  exists o, opts !! k = Some o /\ matches o arg = true /\
    (forall j o', (j < k)%nat -> opts !! j = Some o' ->
       get_type o' = get_type o -> matches o' arg = false) /\
    (get_type o = POSITIONAL ->
     forall j o', opts !! j = Some o' -> get_type o' = KEYWORD ->
       matches o' arg = false).
Proof.
  rewrite match_option_first_of. split.
  - destruct (first_of KEYWORD arg opts 0) as [k'|] eqn:Ek.
    + intros [= ->].
      apply first_of_Some in Ek as (o & _ & Hk & Ht & Hm & Hfirst).
      rewrite Nat.sub_0_r in *. exists o. rewrite Ht.
      repeat split; try done.
    + intros Hp. rewrite first_of_None in Ek.
      apply first_of_Some in Hp as (o & _ & Hk & Ht & Hm & Hfirst).
      rewrite Nat.sub_0_r in *. exists o. rewrite Ht.
      repeat split; try done.
  - intros (o & Hk & Hm & Hfirst & Hkw).
    destruct (get_type o) eqn:Ht.
    + specialize (Hkw eq_refl).
      apply (first_of_None KEYWORD arg opts 0%nat) in Hkw. rewrite Hkw.
      apply first_of_Some. exists o. rewrite Nat.sub_0_r.
      repeat split; try done. lia.
    + assert (first_of KEYWORD arg opts 0 = Some k) as ->; [|done].
      apply first_of_Some. exists o. rewrite Nat.sub_0_r.
      repeat split; try done. lia.
Qed.

Lemma match_option_lookup arg opts k :
  match_option arg opts = Some k -> is_Some (opts !! k).
Proof. intros H. apply match_option_Some in H as (o & -> & _). eauto. Qed.

End Matcher.

(** ** Arity resolver and consumer *)
Section Consumer.

Lemma argv_at_lookup argv i :
  0 <= i -> argv_at argv i = argv !! Z.to_nat i.
Proof. unfold argv_at. intros H. destruct (Z.ltb_spec i 0); [lia|done]. Qed.

(** The copying loop reads the [n] tokens from [i] on and leaves [i]
    behind the last of them. *)
Lemma push_back_args_slice n argv : forall i acc,
  0 <= i -> (Z.to_nat i + n <= length argv)%nat ->
  push_back_args n argv i acc
  = Some (acc ++ take n (drop (Z.to_nat i) argv), i + Z.of_nat n).
Proof.
  induction n as [|n IH]; intros i acc Hi Hlen; simpl.
  - rewrite take_0, app_nil_r. do 2 f_equal. lia.
  - rewrite argv_at_lookup by done.
    destruct (lookup_lt_is_Some_2 argv (Z.to_nat i)) as [s Hs]; [lia|].
    rewrite Hs, IH by lia.
    rewrite (drop_S _ _ _ Hs). simpl. rewrite <- app_assoc. simpl.
    replace (Z.to_nat (i + 1)) with (S (Z.to_nat i)) by lia.
    do 2 f_equal. lia.
Qed.

Lemma length_slice argv i a :
  0 <= i -> 0 <= a -> i + a < argc_of argv ->
  length (Spec.slice argv i a) = Z.to_nat (a + 1).
Proof.
  unfold Spec.slice, argc_of. intros.
  rewrite length_take, length_drop. lia.
Qed.

Lemma checked_Some argc r :
  Istream.INT_MIN <= r <= Z.max Istream.INT_MAX argc ->
  checked argc r = Some r.
Proof.
  intros H. unfold checked, int_fits.
  destruct (Z.leb_spec Istream.INT_MIN r); [|lia].
  destruct (Z.leb_spec r (Z.max Istream.INT_MAX argc)); [done|lia].
Qed.

Lemma checked_None argc r :
  Z.max Istream.INT_MAX argc < r -> checked argc r = None.
Proof.
  intros H. unfold checked, int_fits.
  destruct (Z.leb_spec r (Z.max Istream.INT_MAX argc)); [lia|].
  by rewrite andb_false_r.
Qed.

Lemma checked_inv argc r v : checked argc r = Some v -> v = r.
Proof. unfold checked. destruct (int_fits argc r); congruence. Qed.

Lemma INT_MIN_neg : Istream.INT_MIN < -1.
Proof. done. Qed.

Lemma INT_MAX_pos : 1 < Istream.INT_MAX.
Proof. done. Qed.

(** A resolved arity is the one of the specification. *)
Lemma resolve_param_count_inv argc i pc a :
  resolve_param_count argc i pc = Some a -> a = Spec.resolve pc argc i.
Proof.
  unfold resolve_param_count, Spec.resolve, Spec.rest.
  destruct (pc =? -1).
  - destruct (checked argc (argc - i)) as [d|] eqn:Hd; [|done].
    apply checked_inv in Hd. subst d. intros H. apply checked_inv in H. lia.
  - apply checked_inv.
Qed.

Lemma resolve_param_count_rest argc i :
  0 <= i < argc ->
  resolve_param_count argc i (-1) = Some (argc - i - 1).
Proof.
  intros Hi. unfold resolve_param_count. simpl.
  pose proof INT_MIN_neg.
  rewrite checked_Some by lia. apply checked_Some. lia.
Qed.

(** [handle_match] on a well-formed command line, in terms of the
    resolved arity and the slice of the specification. *)
Lemma handle_match_resolved i k argv opts o :
  0 <= i < argc_of argv -> opts !! k = Some o ->
  handle_match i k (argc_of argv) argv opts
  = if get_param_count o <? -1 then (Throw InvalidArityError, opts)
    else
      let a := Spec.resolve (get_param_count o) (argc_of argv) i in
      if argc_of argv <=? i + a
      then
        if i + a <=? Z.max Istream.INT_MAX (argc_of argv)
        then (Throw InsufficientArgumentsError, opts)
        else (Undefined, opts)
      else
        match OptionBase_parse o (Spec.slice argv i a) with
        | (Return tt, o') => (Return (i + a), <[k := o']> opts)
        | (Throw e, o') => (Throw e, <[k := o']> opts)
        | (Undefined, o') => (Undefined, <[k := o']> opts)
        end.
Proof.
  intros Hi Hk. unfold handle_match. rewrite Hk.
  destruct (Z.ltb_spec (get_param_count o) (-1)) as [|Hpc]; [done|].
  pose proof INT_MIN_neg as Hmin. pose proof INT_MAX_pos as Hmax.
  set (argc := argc_of argv) in *.
  set (a := Spec.resolve (get_param_count o) argc i).
  assert (0 <= a) as Ha.
  { subst a. unfold Spec.resolve, Spec.rest.
    destruct (Z.eqb_spec (get_param_count o) (-1)); lia. }
  cbn zeta.
  destruct (Z.leb_spec argc (i + a)) as [Hge|Hlt].
  - (* too few tokens: the declared arity is not [-1] *)
    assert (get_param_count o <> -1) as Hne.
    { intros Heq. subst a. unfold Spec.resolve, Spec.rest in Hge.
      rewrite Heq in Hge. simpl in Hge. lia. }
    assert (a = get_param_count o) as Hpa.
    { subst a. unfold Spec.resolve, Spec.rest.
      destruct (Z.eqb_spec (get_param_count o) (-1)); [lia|done]. }
    unfold resolve_param_count.
    destruct (Z.eqb_spec (get_param_count o) (-1)); [done|].
    rewrite <- Hpa.
    destruct (Z.leb_spec (i + a) (Z.max Istream.INT_MAX argc)) as [Hfit|Hover].
    + rewrite checked_Some by lia. rewrite checked_Some by lia.
      rewrite Z.geb_leb. by destruct (Z.leb_spec argc (i + a)); [|lia].
    + destruct (Z.leb_spec a (Z.max Istream.INT_MAX argc)).
      * rewrite checked_Some by lia. by rewrite checked_None.
      * by rewrite checked_None.
  - assert (resolve_param_count argc i (get_param_count o) = Some a) as ->.
    { subst a. unfold Spec.resolve, Spec.rest in *.
      destruct (Z.eqb_spec (get_param_count o) (-1)) as [->|].
      - apply resolve_param_count_rest. lia.
      - unfold resolve_param_count.
        destruct (Z.eqb_spec (get_param_count o) (-1)); [done|].
        apply checked_Some. lia. }
    rewrite checked_Some by lia. rewrite Z.geb_leb.
    destruct (Z.leb_spec argc (i + a)); [lia|].
    rewrite checked_Some by lia.
    destruct (Z.ltb_spec (a + 1) 0); [lia|].
    rewrite push_back_args_slice by (unfold argc, argc_of in *; lia).
    replace (Z.to_nat (i + a + 1 - i)) with (Z.to_nat (a + 1)) by lia.
    fold (Spec.slice argv i a). rewrite app_nil_l.
    replace (i + Z.of_nat (Z.to_nat (a + 1)) - 1) with (i + a) by lia.
    done.
Qed.

(** Too few tokens left: the check comes before anything is read or
    written. *)
Lemma handle_match_insufficient i k argc argv opts o :
  opts !! k = Some o -> 0 <= i -> 0 <= get_param_count o ->
  argc <= i + get_param_count o <= Istream.INT_MAX ->
  handle_match i k argc argv opts = (Throw InsufficientArgumentsError, opts).
Proof.
  intros Hk Hi Hpc Hfew. unfold handle_match. rewrite Hk.
  pose proof INT_MIN_neg.
  destruct (Z.ltb_spec (get_param_count o) (-1)); [lia|].
  unfold resolve_param_count.
  destruct (Z.eqb_spec (get_param_count o) (-1)); [lia|].
  rewrite checked_Some by lia. rewrite checked_Some by lia.
  rewrite Z.geb_leb.
  destruct (Z.leb_spec argc (i + get_param_count o)); [done|lia].
Qed.

(** An arity that takes [i + param_count] beyond [int]: signed overflow. *)
Lemma handle_match_overflow i k argc argv opts o :
  opts !! k = Some o -> 0 <= i -> 0 <= get_param_count o ->
  Z.max Istream.INT_MAX argc < i + get_param_count o ->
  handle_match i k argc argv opts = (Undefined, opts).
Proof.
  intros Hk Hi Hpc Hover. unfold handle_match. rewrite Hk.
  pose proof INT_MIN_neg.
  destruct (Z.ltb_spec (get_param_count o) (-1)); [lia|].
  unfold resolve_param_count.
  destruct (Z.eqb_spec (get_param_count o) (-1)); [lia|].
  destruct (Z.leb_spec (get_param_count o) (Z.max Istream.INT_MAX argc)).
  - rewrite checked_Some by lia. by rewrite checked_None.
  - by rewrite checked_None.
Qed.

(** Whatever [handle_match] does, the registry is left alone or the
    matched descriptor is replaced by what its [parse] made of it. *)
Lemma handle_match_shape i k argc argv opts r opts' :
  handle_match i k argc argv opts = (r, opts') ->
  opts' = opts
  \/ exists o strings,
       opts !! k = Some o
       /\ opts' = <[k := (OptionBase_parse o strings).2]> opts
       /\ match (OptionBase_parse o strings).1 with
          | Return tt => exists i', r = Return i'
          | Throw e => r = Throw e
          | Undefined => r = Undefined
          end.
Proof.
  unfold handle_match. destruct (opts !! k) as [o|] eqn:Hk;
    [|intros [= _ <-]; by left].
  destruct (get_param_count o <? -1); [intros [= _ <-]; by left|].
  destruct (resolve_param_count _ _ _) as [a|]; [|intros [= _ <-]; by left].
  destruct (checked argc (i + a)) as [last|]; [|intros [= _ <-]; by left].
  destruct (last >=? argc); [intros [= _ <-]; by left|].
  destruct (checked argc (a + 1)) as [n|]; [|intros [= _ <-]; by left].
  destruct (n <? 0); [intros [= _ <-]; by left|].
  cbn zeta.
  destruct (push_back_args _ _ _ _) as [[strings i']|];
    [|intros [= _ <-]; by left].
  intros H. right. exists o, strings. split; [done|].
  destruct (OptionBase_parse o strings) as [[[]| |] o']; simpl;
    injection H as <- <-; eauto.
Qed.

Lemma handle_match_evolves i k argc argv opts r opts' :
  handle_match i k argc argv opts = (r, opts') -> Forall2 evolves opts opts'.
Proof.
  assert (Forall2 evolves opts opts) as Hrefl.
  { apply Forall_Forall2_diag, Forall_forall. intros. apply evolves_refl. }
  intros [->|(o & strings & Hk & -> & _)]%handle_match_shape; [done|].
  rewrite <- (list_insert_id opts k o Hk) at 1.
  apply Forall2_insert; [done|]. apply parse_evolves.
Qed.

(** A consumer that returns has made the matched descriptor parse, and
    the parse returned. *)
Lemma handle_match_returns i k argc argv opts i' opts' :
  handle_match i k argc argv opts = (Return i', opts') ->
  exists o strings o',
    opts !! k = Some o /\ OptionBase_parse o strings = (Return tt, o') /\
    opts' = <[k := o']> opts.
Proof.
  unfold handle_match. destruct (opts !! k) as [o|] eqn:Hk; [|done].
  destruct (get_param_count o <? -1); [done|].
  destruct (resolve_param_count _ _ _) as [a|]; [|done].
  destruct (checked argc (i + a)) as [last|]; [|done].
  destruct (last >=? argc); [done|].
  destruct (checked argc (a + 1)) as [n|]; [|done].
  destruct (n <? 0); [done|].
  cbn zeta.
  destruct (push_back_args _ _ _ _) as [[strings j]|]; [|done].
  destruct (OptionBase_parse o strings) as [[[]| |] o'] eqn:Hp; try done.
  intros [= _ <-]. by exists o, strings, o'.
Qed.

(** A consumer that throws leaves every [is_set_] as it was. *)
Lemma handle_match_throw_is_set i k argc argv opts e opts' :
  handle_match i k argc argv opts = (Throw e, opts') ->
  Forall2 (fun o o' => is_set o' = is_set o) opts opts'.
Proof.
  assert (Forall2 (fun o o' => is_set o' = is_set o) opts opts) as Hrefl.
  { by apply Forall_Forall2_diag, Forall_forall. }
  intros [->|(o & strings & Hk & -> & Hr)]%handle_match_shape; [done|].
  rewrite <- (list_insert_id opts k o Hk) at 1.
  apply Forall2_insert; [done|].
  rewrite parse_is_set.
  destruct (OptionBase_parse o strings).1 as [[]| |]; try done.
  by destruct Hr.
Qed.

End Consumer.

(** ** Parse driver *)
Section Driver.

Lemma parse_loop_unfold fuel argc argv i unrecognised opts :
  parse_loop fuel argc argv i unrecognised opts
  = if i <? argc then
      match fuel with
      | O => None
      | S fuel' =>
          match argv_at argv i with
          | None => Some (Undefined, unrecognised, opts)
          | Some arg =>
              match match_option arg opts with
              | Some opt =>
                  match handle_match i opt argc argv opts with
                  | (Return i, opts') =>
                      parse_loop fuel' argc argv (i + 1) unrecognised opts'
                  | (Throw e, opts') => Some (Throw e, unrecognised, opts')
                  | (Undefined, opts') =>
                      Some (Undefined, unrecognised, opts')
                  end
              | None =>
                  parse_loop fuel' argc argv (i + 1)
                    (unrecognised ++ [arg]) opts
              end
          end
      end
    else Some (Return tt, unrecognised, opts).
Proof. destruct fuel; reflexivity. Qed.

Lemma Forall2_evolves_refl opts : Forall2 evolves opts opts.
Proof. apply Forall_Forall2_diag, Forall_forall. intros. apply evolves_refl. Qed.

Lemma Forall2_evolves_trans R1 R2 R3 :
  Forall2 evolves R1 R2 -> Forall2 evolves R2 R3 -> Forall2 evolves R1 R3.
Proof. apply Forall2_trans, evolves_trans. Qed.

(** Whatever the loop does, and however it ends, every descriptor only
    evolves. *)
Lemma parse_loop_evolves fuel argc argv :
  forall i u opts r u' opts',
    parse_loop fuel argc argv i u opts = Some (r, u', opts') ->
    Forall2 evolves opts opts'.
Proof.
  induction fuel as [|fuel IH]; intros i u opts r u' opts';
    rewrite parse_loop_unfold; destruct (i <? argc);
    try (intros [= _ _ <-]; apply Forall2_evolves_refl); try done.
  destruct (argv_at argv i) as [arg|];
    [|intros [= _ _ <-]; apply Forall2_evolves_refl].
  destruct (match_option arg opts) as [k|]; [|by apply IH].
  destruct (handle_match i k argc argv opts) as [[i'| |] opts1] eqn:Hh;
    apply handle_match_evolves in Hh.
  - intros H. apply IH in H. by eapply Forall2_evolves_trans.
  - by intros [= _ _ <-].
  - by intros [= _ _ <-].
Qed.

Lemma resolve_nonneg pc argc i :
  -1 <= pc -> i < argc -> 0 <= Spec.resolve pc argc i.
Proof.
  unfold Spec.resolve, Spec.rest. destruct (Z.eqb_spec pc (-1)); lia.
Qed.

(** The loop of the source runs the state machine of the specification,
    and [fuel] as large as the number of tokens left is always enough. The
    one way to go wrong is an arity so large that [i + param_count] cannot
    be held by an [int]. *)
Lemma parse_loop_scan fuel argv :
  forall i u opts,
    0 <= i -> argc_of argv - i <= Z.of_nat fuel ->
    exists r u' opts',
      parse_loop fuel (argc_of argv) argv i u opts = Some (r, u', opts') /\
      match r with
      | Return _ => Spec.scan argv i u opts (Return u') opts'
      | Throw e => Spec.scan argv i u opts (Throw e) opts'
      | Undefined =>
          exists o, o ∈ opts /\ 2 <= get_param_count o /\
            Istream.INT_MAX < argc_of argv - 1 + get_param_count o
      end.
Proof.
  induction fuel as [|fuel IH]; intros i u opts Hi Hfuel;
    rewrite parse_loop_unfold;
    destruct (Z.ltb_spec i (argc_of argv)) as [Hlt|Hge]; try lia;
    try (exists (Return tt), u, opts; split; [done|];
         by apply Spec.scan_end).
  rewrite argv_at_lookup by done.
  destruct (lookup_lt_is_Some_2 argv (Z.to_nat i)) as [tok Htok];
    [unfold argc_of in *; lia|].
  rewrite Htok.
  destruct (match_option tok opts) as [k|] eqn:Hm.
  - destruct (match_option_lookup _ _ _ Hm) as [o Ho].
    rewrite (handle_match_resolved i k argv opts o) by done.
    destruct (Z.ltb_spec (get_param_count o) (-1)) as [Hbad|Hpc].
    { exists (Throw InvalidArityError), u, opts. split; [done|].
      by eapply Spec.scan_invalid_arity. }
    cbn zeta.
    pose proof (resolve_nonneg _ _ i Hpc Hlt) as Ha.
    set (a := Spec.resolve (get_param_count o) (argc_of argv) i) in *.
    destruct (Z.leb_spec (argc_of argv) (i + a)) as [Hfew|Henough].
    { destruct (Z.leb_spec (i + a)
                  (Z.max Istream.INT_MAX (argc_of argv))) as [|Hover].
      - exists (Throw InsufficientArgumentsError), u, opts. split; [done|].
        by eapply Spec.scan_insufficient.
      - exists Undefined, u, opts. split; [done|].
        exists o. split; [by eapply list_elem_of_lookup_2|].
        subst a. unfold Spec.resolve, Spec.rest in *.
        destruct (Z.eqb_spec (get_param_count o) (-1)); lia. }
    pose proof (parse_defined o (Spec.slice argv i a)) as Hdef.
    rewrite length_slice in Hdef by lia.
    assert (Z.to_nat (get_param_count o) < Z.to_nat (a + 1))%nat as Hlen.
    { subst a. unfold Spec.resolve, Spec.rest in *.
      destruct (Z.eqb_spec (get_param_count o) (-1)); lia. }
    specialize (Hdef Hlen).
    destruct (OptionBase_parse o (Spec.slice argv i a))
      as [[[]|e|] o'] eqn:Hp; [| |done].
    + destruct (IH (i + a + 1) u (<[k := o']> opts))
        as (r & u' & opts' & Hloop & Hscan); [lia | lia |].
      exists r, u', opts'. split; [done|].
      destruct r as [[]|e|]; [| |];
        try by eapply Spec.scan_matched.
      destruct Hscan as (o1 & Hin & Hover).
      apply list_elem_of_lookup in Hin as [j Hj].
      destruct (decide (j = k)) as [->|Hne].
      * rewrite list_lookup_insert_eq in Hj
          by (by eapply lookup_lt_Some). injection Hj as <-.
        exists o. split; [by eapply list_elem_of_lookup_2|].
        pose proof (parse_evolves o (Spec.slice argv i a)) as He.
        rewrite Hp in He. simpl in He.
        by rewrite <- (evolves_param_count _ _ He).
      * rewrite list_lookup_insert_ne in Hj by done.
        exists o1. split; [by eapply list_elem_of_lookup_2|done].
    + exists (Throw e), u, (<[k := o']> opts). split; [done|].
      by eapply Spec.scan_failed.
  - destruct (IH (i + 1) (u ++ [tok]) opts)
      as (r & u' & opts' & Hloop & Hscan); [lia | lia |].
    exists r, u', opts'. split; [done|].
    destruct r as [[]|e|]; [| |done]; by eapply Spec.scan_unmatched.
Qed.

(** What was collected before the loop starts stays in front. *)
Lemma parse_loop_prefix fuel argc argv u0 :
  forall i u opts,
    parse_loop fuel argc argv i (u0 ++ u) opts
    = (fun x : result unit * list string * list OptionBase =>
         (x.1.1, u0 ++ x.1.2, x.2))
      <$> parse_loop fuel argc argv i u opts.
Proof.
  induction fuel as [|fuel IH]; intros i u opts;
    rewrite !(parse_loop_unfold _ argc argv i); destruct (i <? argc);
    try done.
  destruct (argv_at argv i) as [arg|]; [|done].
  destruct (match_option arg opts) as [k|].
  - destruct (handle_match i k argc argv opts) as [[i'| |] opts1];
      [apply IH | done | done].
  - rewrite <- app_assoc. apply IH.
Qed.

Lemma scan_evolves tokens i u R out R' :
  Spec.scan tokens i u R out R' -> Forall2 evolves R R'.
Proof.
  assert (forall (R : list OptionBase) k o strings,
             R !! k = Some o ->
             Forall2 evolves R (<[k := (OptionBase_parse o strings).2]> R))
    as Hstep.
  { intros R0 k o strings Hk.
    rewrite <- (list_insert_id R0 k o Hk) at 1.
    apply Forall2_insert; [apply Forall2_evolves_refl|apply parse_evolves]. }
  induction 1 as [ | | | | i u R tok k o a e o' _ _ _ Hk _ _ _ Hp
                   | i u R tok k o a o' out R' _ _ _ Hk _ _ _ Hp _ IH];
    try apply Forall2_evolves_refl; try done.
  - specialize (Hstep R k o (Spec.slice tokens i a) Hk).
    by rewrite Hp in Hstep.
  - specialize (Hstep R k o (Spec.slice tokens i a) Hk).
    rewrite Hp in Hstep. by eapply Forall2_evolves_trans.
Qed.

(** A token that no descriptor matches is matched by none later on. *)
Lemma match_option_None_evolves t R R' :
  Forall2 evolves R R' ->
  match_option t R = None -> match_option t R' = None.
Proof.
  rewrite !match_option_None. intros HR H j o' Hj.
  destruct (Forall2_lookup_r _ _ _ _ _ HR Hj) as (o & Ho & He).
  apply He, (H j o Ho).
Qed.

(** What the state machine returns is what it had collected, followed by
    tokens picked in order from the rest of the input, each of them matched
    by no descriptor, not even at the end. *)
Lemma scan_unrecognised tokens i u R out R' :
  Spec.scan tokens i u R out R' ->
  forall u', out = Return u' ->
    exists w, u' = u ++ w /\
      w `sublist_of` drop (Z.to_nat i) tokens /\
      Forall (fun t => match_option t R' = None) w.
Proof.
  induction 1 as [ i u R _
                 | i u R tok out R' Hi Htok Hm Hscan IH
                 | | |
                 | i u R tok k o a o' out R' Hi Htok _ Hk Hpc -> Hlt Hp Hscan IH];
    intros u' Hout; try discriminate.
  - injection Hout as <-. exists []. rewrite app_nil_r.
    split; [done|]. split; [apply sublist_nil_l | constructor].
  - destruct (IH u' Hout) as (w & -> & Hsub & Hall).
    exists (tok :: w). rewrite <- app_assoc. split; [done|]. split.
    + rewrite (drop_S _ _ _ Htok).
      replace (S (Z.to_nat i)) with (Z.to_nat (i + 1)) by lia.
      by apply sublist_skip.
    + constructor; [|done].
      apply scan_evolves in Hscan.
      by apply (match_option_None_evolves tok R R').
  - destruct (IH u' Hout) as (w & -> & Hsub & Hall).
    exists w. split; [done|]. split; [|done].
    assert (i < argc_of tokens) as Hi'.
    { apply lookup_lt_Some in Htok. unfold argc_of. lia. }
    pose proof (resolve_nonneg _ _ i Hpc Hi') as Ha.
    etrans; [exact Hsub|].
    replace (Z.to_nat (i + Spec.resolve (get_param_count o) (argc_of tokens) i + 1))
      with (Z.to_nat i
            + Z.to_nat (Spec.resolve (get_param_count o) (argc_of tokens) i + 1))%nat
      by lia.
    rewrite <- drop_drop. apply sublist_drop.
Qed.

(** The state machine has one outcome. *)
Lemma scan_deterministic tokens i u R out1 R1 :
  Spec.scan tokens i u R out1 R1 ->
  forall out2 R2, Spec.scan tokens i u R out2 R2 -> out1 = out2 /\ R1 = R2.
Proof.
  induction 1 as [ i u R Hend
                 | i u R tok out R' Hi Htok Hm _ IH
                 | i u R tok k o Hi Htok Hm Hk Hpc
                 | i u R tok k o a Hi Htok Hm Hk Hpc -> Hfew
                 | i u R tok k o a e o' Hi Htok Hm Hk Hpc -> Hlt Hp
                 | i u R tok k o a o' out R' Hi Htok Hm Hk Hpc -> Hlt Hp _ IH];
    intros out2 R2 H2; inversion H2; subst;
    repeat match goal with
           | H : tokens !! _ = Some _ |- _ =>
               apply lookup_lt_Some in H as ?; revert H
           end; intros; unfold argc_of, Spec.rest in *;
    try (exfalso; lia); simplify_eq; try (exfalso; lia);
    try match goal with
        | H1 : OptionBase_parse ?o ?s = _, H2 : OptionBase_parse ?o ?s = _
          |- _ => rewrite H1 in H2; simplify_eq
        end;
    eauto.
Qed.

End Driver.

(** ** Positional descriptors in the driver *)
Section Positionals.

Lemma match_option_first_unset opts tok k name help is_required val :
  opts !! k = Some (PositionalOption name help is_required false val) ->
  (forall j o, opts !! j = Some o -> get_type o = KEYWORD ->
     matches o tok = false) ->
  (forall j o, (j < k)%nat -> opts !! j = Some o ->
     get_type o = POSITIONAL -> is_set o = true) ->
  match_option tok opts = Some k.
Proof.
  intros Hk Hkw Hpos.
  apply match_option_Some. eexists. split; [exact Hk|].
  split; [done|]. split; [|intros _; exact Hkw].
  intros j o' Hj Ho' Hty. specialize (Hpos j o' Hj Ho' Hty).
  destruct o'; try discriminate. simpl in *. by rewrite Hpos.
Qed.

(** One turn of the loop on a token that goes to a string positional. *)
Lemma parse_loop_positional_step argv opts i tok k name help is_required v
    fuel u :
  0 <= i -> argv !! Z.to_nat i = Some tok ->
  match_option tok opts = Some k ->
  opts !! k = Some (PositionalOption name help is_required false (VString v)) ->
  parse_loop (S fuel) (argc_of argv) argv i u opts
  = parse_loop fuel (argc_of argv) argv (i + 1) u
      (<[k := PositionalOption name help is_required true (VString tok)]>
         opts).
Proof.
  intros Hi Htok Hm Hk.
  assert (i < argc_of argv) as Hlt.
  { apply lookup_lt_Some in Htok. unfold argc_of. lia. }
  rewrite parse_loop_unfold.
  destruct (Z.ltb_spec i (argc_of argv)); [|lia].
  rewrite argv_at_lookup, Htok, Hm by done.
  rewrite (handle_match_resolved i k argv opts _ (conj Hi Hlt) Hk).
  cbn [get_param_count]. change (0 <? -1) with false. cbn match.
  change (Spec.resolve 0 (argc_of argv) i) with 0. cbn zeta.
  destruct (Z.leb_spec (argc_of argv) (i + 0)); [lia|].
  unfold Spec.slice. rewrite (drop_S _ _ _ Htok).
  change (Z.to_nat (0 + 1)) with 1%nat. cbn [take].
  rewrite take_0.
  cbn [OptionBase_parse from_string at_index lookup list_lookup
         stream_from_string set_val set_is_set].
  by replace (i + 0 + 1) with (i + 1) by lia.
Qed.

(** One turn of the loop on a token that goes to a positional descriptor
    of any type: the token is what the descriptor parses, and it is never
    collected as unrecognised. *)
Lemma parse_loop_positional_any argv opts i tok k o fuel u :
  0 <= i -> argv !! Z.to_nat i = Some tok ->
  match_option tok opts = Some k ->
  opts !! k = Some o -> get_type o = POSITIONAL ->
  parse_loop (S fuel) (argc_of argv) argv i u opts
  = match OptionBase_parse o [tok] with
    | (Return tt, o') =>
        parse_loop fuel (argc_of argv) argv (i + 1) u (<[k := o']> opts)
    | (Throw e, o') => Some (Throw e, u, <[k := o']> opts)
    | (Undefined, o') => Some (Undefined, u, <[k := o']> opts)
    end.
Proof.
  intros Hi Htok Hm Hk Hty.
  assert (i < argc_of argv) as Hlt.
  { apply lookup_lt_Some in Htok. unfold argc_of. lia. }
  assert (get_param_count o = 0) as Hpc by (by destruct o).
  rewrite parse_loop_unfold.
  destruct (Z.ltb_spec i (argc_of argv)); [|lia].
  rewrite argv_at_lookup, Htok, Hm by done.
  rewrite (handle_match_resolved i k argv opts _ (conj Hi Hlt) Hk).
  rewrite Hpc. change (0 <? -1) with false. cbn match.
  change (Spec.resolve 0 (argc_of argv) i) with 0. cbn zeta.
  destruct (Z.leb_spec (argc_of argv) (i + 0)); [lia|].
  unfold Spec.slice. rewrite (drop_S _ _ _ Htok).
  change (Z.to_nat (0 + 1)) with 1%nat. cbn [take]. rewrite take_0.
  destruct (OptionBase_parse o [tok]) as [[[]| |] o']; try done.
  by replace (i + 0 + 1) with (i + 1) by lia.
Qed.

(** A registry of positional descriptors, the first [done] of them set and
    the others, of string type, not: as many tokens as there are unset
    descriptors fill them one by one, in registration order. *)
Lemma positional_loop argv todo : forall done i u fuel,
  Forall (fun o => get_type o = POSITIONAL /\ is_set o = true) done ->
  Forall (fun o => is_string_positional o = true /\ is_set o = false) todo ->
  0 <= i -> (Z.to_nat i + length todo = length argv)%nat ->
  (length todo <= fuel)%nat ->
  parse_loop fuel (argc_of argv) argv i u (done ++ todo)
  = Some (Return tt, u,
          done ++ zip_with fill todo (drop (Z.to_nat i) argv)).
Proof.
  induction todo as [|o todo IH]; intros done i u fuel Hdone Htodo Hi Hlen Hfuel.
  - rewrite parse_loop_unfold. simpl in Hlen.
    by destruct (Z.ltb_spec i (argc_of argv)); [unfold argc_of in *; lia|].
  - simpl in Hlen, Hfuel. destruct fuel as [|fuel]; [lia|].
    apply Forall_cons in Htodo as [[Hstr Hunset] Htodo].
    destruct o as [n h r s [|v|]| |]; try discriminate.
    simpl in Hunset. subst s.
    destruct (lookup_lt_is_Some_2 argv (Z.to_nat i)) as [tok Htok]; [lia|].
    assert ((done ++ PositionalOption n h r false (VString v) :: todo)
              !! length done
            = Some (PositionalOption n h r false (VString v))) as Hk
      by (by apply list_lookup_middle).
    assert (match_option tok
              (done ++ PositionalOption n h r false (VString v) :: todo)
            = Some (length done)) as Hm.
    { eapply match_option_first_unset; [exact Hk| |].
      - intros j o' Ho' Hty. exfalso.
        apply list_elem_of_lookup_2 in Ho'.
        apply elem_of_app in Ho' as [Hin|Hin].
        + rewrite Forall_forall in Hdone.
          destruct (Hdone _ Hin). congruence.
        + apply elem_of_cons in Hin as [->|Hin]; [done|].
          rewrite Forall_forall in Htodo.
          destruct (Htodo _ Hin) as [Hs _]. by destruct o'.
      - intros j o' Hj Ho' _. rewrite lookup_app_l in Ho' by done.
        apply list_elem_of_lookup_2 in Ho'.
        rewrite Forall_forall in Hdone. by destruct (Hdone _ Ho'). }
    rewrite (parse_loop_positional_step _ _ _ _ _ _ _ _ _ _ _ Hi Htok Hm Hk).
    replace (length done) with (length done + 0)%nat by lia.
    rewrite insert_app_r. cbn [insert list_insert].
    rewrite (cons_middle _ done todo), app_assoc.
    rewrite IH; try lia.
    + rewrite (drop_S _ _ _ Htok).
      replace (Z.to_nat (i + 1)) with (S (Z.to_nat i)) by lia.
      by rewrite <- app_assoc.
    + apply Forall_app. split; [done|]. by repeat constructor.
    + done.
Qed.

End Positionals.

(** * The claims of the specification *)

(** ** Conversion of numeric descriptors *)

(** C1, as stated, fails: a token with trailing garbage is not rejected. For
    an [int] keyword descriptor and for an [int] positional descriptor the
    token "12abc" is converted to 12, the parse returns normally and the
    descriptor is marked as set. *)
Lemma trailing_garbage_is_accepted :
  OptionBase_parse (new_KeywordOption ["--count"] "" (VInt 0))
    ["--count"; "12abc"]
  = (Return tt, KeywordOption ["--count"] "" true (VInt 12)) /\
  OptionBase_parse (new_PositionalOption "count" "" true (VInt 0)) ["12abc"]
  = (Return tt, PositionalOption "count" "" true true (VInt 12)) /\
  (OptionBase_parse (new_KeywordOption ["--count"] "" (VInt 0))
     ["--count"; "12abc"]).1 <> Throw ConversionError.
Proof. repeat split; try reflexivity. discriminate. Qed.

(** C1, amended: for a descriptor of type [int], keyword or positional, with
    parameter token [tok], only the start of the token counts. The token
    begins with a number when it is white space, an optional sign, a
    non-empty run of decimal digits and then anything that does not go on
    with a digit (nothing, as in "42", or garbage, as in "12abc").
    - If [tok] begins with a number that fits an [int], parse returns, the
      value is that number and [is_set] is true.
    - If [tok] begins with a number beyond [int], parse fails with a
      ConversionError, and [INT_MAX] or [INT_MIN] has been stored.
    - If [tok] does not begin with a number (as "abc", "-" and the empty
      token), parse fails with a ConversionError; zero has been stored,
      unless the token is empty or all white space, when the value is left
      as it was.
    Every token is in exactly one of these cases. *)
Theorem int_parse_leading_number (o : OptionBase) (strings : list string)
    (v0 : Z) (tok : string) :
  get_val o = Some (VInt v0) ->
  param_token o strings = Some tok ->
  (forall n,
     leading_number tok n ->
     OptionBase_parse o strings
     = if n <? Istream.INT_MIN
       then (Throw ConversionError, set_val o (VInt Istream.INT_MIN))
       else if Istream.INT_MAX <? n
       then (Throw ConversionError, set_val o (VInt Istream.INT_MAX))
       else (Return tt, set_is_set (set_val o (VInt n)) true)) /\
  ((forall n, ~ leading_number tok n) ->
   OptionBase_parse o strings
   = (Throw ConversionError,
      set_val o (VInt (if all_spaces tok then v0 else 0)))) /\
  ((exists n, leading_number tok n) \/ (forall n, ~ leading_number tok n)) /\
  (forall n m, leading_number tok n -> leading_number tok m -> n = m) /\
  (starts_with
     (fun c => negb (Istream.isspace c || Istream.isdigit c || is_sign c)) tok
   = true ->
   OptionBase_parse o strings = (Throw ConversionError, set_val o (VInt 0))) /\
  (forall digits garbage,
     tok = digits +:+ garbage ->
     digits <> "" -> all_digits digits = true ->
     starts_with Istream.isdigit garbage = false ->
     decimal digits <= Istream.INT_MAX ->
     OptionBase_parse o strings
     = (Return tt, set_is_set (set_val o (VInt (decimal digits))) true)).
Proof.
  intros Hv Htok. rewrite (int_parse_unfold o strings v0 tok Hv Htok).
  split; [|split; [|split; [|split; [|split]]]].
  - intros n Hn. apply leading_number_field in Hn.
    rewrite extract_int_field.
    destruct (all_spaces tok) eqn:Hsp.
    { apply all_spaces_no_number in Hsp. congruence. }
    rewrite Hn. destruct (n <? Istream.INT_MIN); [done|].
    by destruct (Istream.INT_MAX <? n).
  - intros Hnone. apply no_leading_number in Hnone.
    rewrite extract_int_field, Hnone. by destruct (all_spaces tok).
  - destruct (Istream.field (Istream.skipws tok)) as [n|] eqn:E.
    + left. exists n. by apply leading_number_field.
    + right. by apply no_leading_number.
  - apply leading_number_unique.
  - intros Hother. by rewrite extract_int_no_number.
  - intros digits garbage -> Hne Hd Hg Hmax.
    by rewrite extract_int_digits.
Qed.

Lemma int_parse_leading_number_witness :
  let o := new_KeywordOption ["--count"] "" (VInt 7) in
  let p := new_PositionalOption "count" "" true (VInt 7) in
  get_val o = Some (VInt 7) /\
  param_token o ["--count"; "12abc"] = Some "12abc" /\
  OptionBase_parse o ["--count"; "12abc"]
  = (Return tt, KeywordOption ["--count"] "" true (VInt 12)) /\
  OptionBase_parse o ["--count"; "42"]
  = (Return tt, KeywordOption ["--count"] "" true (VInt 42)) /\
  OptionBase_parse o ["--count"; "-42"]
  = (Return tt, KeywordOption ["--count"] "" true (VInt (-42))) /\
  OptionBase_parse p [" +42 "]
  = (Return tt, PositionalOption "count" "" true true (VInt 42)) /\
  OptionBase_parse o ["--count"; "99999999999"]
  = (Throw ConversionError,
     KeywordOption ["--count"] "" false (VInt 2147483647)) /\
  OptionBase_parse o ["--count"; "abc"]
  = (Throw ConversionError, KeywordOption ["--count"] "" false (VInt 0)) /\
  OptionBase_parse o ["--count"; "-"]
  = (Throw ConversionError, KeywordOption ["--count"] "" false (VInt 0)) /\
  OptionBase_parse o ["--count"; ""]
  = (Throw ConversionError, KeywordOption ["--count"] "" false (VInt 7)).
Proof.
  intros o p. split; [reflexivity|]. split; [reflexivity|].
  split; [|split; [|split; [|split; [|split; [|split; [|split]]]]]].
  - exact (proj1 (int_parse_leading_number o ["--count"; "12abc"] 7 "12abc"
                    eq_refl eq_refl) 12
             (leading_unsigned "" "12" "abc" eq_refl ltac:(discriminate)
                eq_refl eq_refl)).
  - exact (proj1 (int_parse_leading_number o ["--count"; "42"] 7 "42"
                    eq_refl eq_refl) 42
             (leading_unsigned "" "42" "" eq_refl ltac:(discriminate)
                eq_refl eq_refl)).
  - exact (proj1 (int_parse_leading_number o ["--count"; "-42"] 7 "-42"
                    eq_refl eq_refl) (-42)
             (leading_minus "" "42" "" eq_refl ltac:(discriminate)
                eq_refl eq_refl)).
  - exact (proj1 (int_parse_leading_number p [" +42 "] 7 " +42 "
                    eq_refl eq_refl) 42
             (leading_plus " " "42" " " eq_refl ltac:(discriminate)
                eq_refl eq_refl)).
  - exact (proj1 (int_parse_leading_number o ["--count"; "99999999999"] 7
                    "99999999999" eq_refl eq_refl) 99999999999
             (leading_unsigned "" "99999999999" "" eq_refl
                ltac:(discriminate) eq_refl eq_refl)).
  - apply (proj1 (proj2 (int_parse_leading_number o ["--count"; "abc"] 7
                           "abc" eq_refl eq_refl))).
    by apply no_leading_number.
  - apply (proj1 (proj2 (int_parse_leading_number o ["--count"; "-"] 7
                           "-" eq_refl eq_refl))).
    by apply no_leading_number.
  - apply (proj1 (proj2 (int_parse_leading_number o ["--count"; ""] 7
                           "" eq_refl eq_refl))).
    by apply no_leading_number.
Defined.

(** C10, as stated, fails: a failed extraction does not always store zero.
    A number too large for an [int] leaves [INT_MAX] in the descriptor, and
    an empty token leaves the previous value in place. *)
Lemma failed_conversion_may_not_store_zero :
  OptionBase_parse (new_KeywordOption ["--count"] "" (VInt 7))
    ["--count"; "99999999999"]
  = (Throw ConversionError,
     KeywordOption ["--count"] "" false (VInt 2147483647)) /\
  OptionBase_parse (new_KeywordOption ["--count"] "" (VInt 7)) ["--count"; ""]
  = (Throw ConversionError, KeywordOption ["--count"] "" false (VInt 7)) /\
  get_val (OptionBase_parse (new_KeywordOption ["--count"] "" (VInt 7))
             ["--count"; "99999999999"]).2 <> Some (VInt 0).
Proof. repeat split; try reflexivity. discriminate. Qed.

Lemma is_set_set_val o v : is_set (set_val o v) = is_set o.
Proof. by destruct o. Qed.

(** C10, amended: when the conversion of an [int] descriptor fails, the
    error is a ConversionError, [is_set] keeps the value it had, and the
    stored value is not rolled back: it is left as it was when the token is
    empty or all white space, it is zero when the token does not start with
    a number, and it is [INT_MAX] or [INT_MIN] when the number is out of
    range. *)
Theorem int_parse_failure_state (o : OptionBase) (strings : list string)
    (v0 : Z) (tok : string) (e : exception) (o' : OptionBase) :
  get_val o = Some (VInt v0) ->
  param_token o strings = Some tok ->
  OptionBase_parse o strings = (Throw e, o') ->
  e = ConversionError /\ is_set o' = is_set o /\
  exists v', o' = set_val o (VInt v') /\
    match Istream.skipws tok with
    | EmptyString => v' = v0
    | w =>
        match Istream.field w with
        | None => v' = 0
        | Some n =>
            (Istream.INT_MAX < n /\ v' = Istream.INT_MAX) \/
            (n < Istream.INT_MIN /\ v' = Istream.INT_MIN)
        end
    end.
Proof.
  intros Hv Htok. rewrite (int_parse_unfold o strings v0 tok Hv Htok).
  unfold Istream.extract_int, Istream.get_long.
  destruct (Istream.skipws tok) as [|c w] eqn:Hws.
  - simpl. intros [= <- <-]. rewrite is_set_set_val.
    repeat split. by eexists.
  - destruct (Istream.field (String c w)) as [n|].
    + unfold Istream.LONG_MIN, Istream.LONG_MAX, Istream.INT_MIN,
        Istream.INT_MAX.
      destruct (Z.ltb_spec n (-9223372036854775808)).
      { simpl. intros [= <- <-]. rewrite is_set_set_val.
        repeat split. eexists. split; [done|]. right. lia. }
      destruct (Z.ltb_spec 9223372036854775807 n).
      { simpl. intros [= <- <-]. rewrite is_set_set_val.
        repeat split. eexists. split; [done|]. left. lia. }
      destruct (Z.ltb_spec n (-2147483648)).
      { intros [= <- <-]. rewrite is_set_set_val.
        repeat split. eexists. split; [done|]. right. lia. }
      destruct (Z.ltb_spec 2147483647 n).
      { intros [= <- <-]. rewrite is_set_set_val.
        repeat split. eexists. split; [done|]. left. lia. }
      discriminate.
    + simpl. intros [= <- <-]. rewrite is_set_set_val.
      repeat split. by eexists.
Qed.

Lemma int_parse_failure_state_witness :
  let o := KeywordOption ["--count"] "" false (VInt 7) in
  let o' := KeywordOption ["--count"] "" false (VInt 0) in
  get_val o = Some (VInt 7) /\
  param_token o ["--count"; "abc"] = Some "abc" /\
  OptionBase_parse o ["--count"; "abc"] = (Throw ConversionError, o') /\
  (ConversionError = ConversionError /\ is_set o' = is_set o /\
   exists v', o' = set_val o (VInt v') /\ v' = 0).
Proof.
  intros o o'.
  split; [reflexivity|]. split; [reflexivity|]. split; [reflexivity|].
  exact (int_parse_failure_state o ["--count"; "abc"] 7 "abc"
           ConversionError o' eq_refl eq_refl eq_refl).
Defined.

(** ** The [is_set] flag *)

Lemma parse_evolves_registry argc argv opts skip_first_n out opts' :
  parse argc argv opts skip_first_n = Some (out, opts') ->
  Forall2 evolves opts opts'.
Proof.
  unfold parse.
  destruct (parse_loop _ _ _ _ _ _) as [[[r u] opts1]|] eqn:Hloop; [|done].
  apply parse_loop_evolves in Hloop.
  destruct r as [[]| |]; by intros [= _ <-].
Qed.

(** C5: [is_set] is false in a freshly constructed descriptor; a call of
    [OptionBase::parse] that returns leaves it true, and one whose
    [from_string] throws leaves it as it was; neither the consumer nor a
    whole run of the driver, however it ends, ever turns it from true to
    false. [OptionBase::parse] returns exactly when [from_string] returns,
    and only then writes [is_set_]; [from_string] itself never writes it.
    Given the strings its arity asks for, [OptionBase::parse] returns and
    sets the flag unless the conversion through a stream throws the
    ConversionError, which leaves the flag alone; a descriptor that does not
    convert through a stream is always set. So a descriptor that was not
    set is set after the call exactly when the call returned. A consumer
    that returns has set the matched descriptor, one that throws has
    changed no flag. *)
Theorem is_set_lifecycle :
  (forall name help is_required val,
     is_set (new_PositionalOption name help is_required val) = false) /\
  (forall identifiers help val,
     is_set (new_KeywordOption identifiers help val) = false) /\
  (forall identifiers help param_count,
     is_set (new_CaptureOption identifiers help param_count) = false) /\
  (forall o strings o',
     OptionBase_parse o strings = (Return tt, o') -> is_set o' = true) /\
  (forall o strings e o',
     OptionBase_parse o strings = (Throw e, o') -> is_set o' = is_set o) /\
  (forall i k argc argv opts r opts',
     handle_match i k argc argv opts = (r, opts') ->
     Forall2 (fun o o' => is_set o = true -> is_set o' = true) opts opts') /\
  (forall argc argv opts skip_first_n out opts',
     parse argc argv opts skip_first_n = Some (out, opts') ->
     Forall2 (fun o o' => is_set o = true -> is_set o' = true) opts opts') /\
  (forall o strings, is_set (from_string o strings).2 = is_set o) /\
  (forall o strings o1,
     from_string o strings = (Return tt, o1) ->
     OptionBase_parse o strings = (Return tt, set_is_set o1 true) /\
     is_set (set_is_set o1 true) = true) /\
  (forall o strings e o1,
     from_string o strings = (Throw e, o1) ->
     OptionBase_parse o strings = (Throw e, o1) /\ is_set o1 = is_set o) /\
  (forall o strings,
     (Z.to_nat (get_param_count o) < length strings)%nat ->
     (exists o', OptionBase_parse o strings = (Return tt, o') /\
                 is_set o' = true) \/
     (uses_stream o = true /\
      exists o', OptionBase_parse o strings = (Throw ConversionError, o') /\
                 is_set o' = is_set o)) /\
  (forall o strings r o',
     OptionBase_parse o strings = (r, o') -> is_set o = false ->
     (is_set o' = true <-> r = Return tt)) /\
  (forall i k argc argv opts i' opts',
     handle_match i k argc argv opts = (Return i', opts') ->
     exists o', opts' !! k = Some o' /\ is_set o' = true) /\
  (forall i k argc argv opts e opts',
     handle_match i k argc argv opts = (Throw e, opts') ->
     Forall2 (fun o o' => is_set o' = is_set o) opts opts').
Proof.
  assert (forall o strings r o',
            OptionBase_parse o strings = (r, o') ->
            is_set o' = match r with Return _ => true | _ => is_set o end)
    as Hset.
  { intros o strings r o' H. pose proof (parse_is_set o strings) as Hs.
    by rewrite H in Hs. }
  split; [done|]. split; [done|]. split; [done|].
  split; [intros o strings o' H; exact (Hset _ _ _ _ H)|].
  split; [intros o strings e o' H; exact (Hset _ _ _ _ H)|].
  split.
  { intros i k argc argv opts r opts' H. apply handle_match_evolves in H.
    eapply Forall2_impl; [exact H|]. by intros ?? []. }
  split.
  { intros argc argv opts skip out opts' H.
    apply parse_evolves_registry in H.
    eapply Forall2_impl; [exact H|]. by intros ?? []. }
  split; [apply from_string_is_set|].
  split.
  { intros o strings o1 H. unfold OptionBase_parse. rewrite H.
    split; [done|apply is_set_set_is_set]. }
  split.
  { intros o strings e o1 H. unfold OptionBase_parse. rewrite H.
    split; [done|].
    pose proof (from_string_is_set o strings) as Hs. by rewrite H in Hs. }
  split.
  { intros o strings Hlen.
    destruct (parse_outcome o strings Hlen) as [[o' H]|[Hu [o' H]]].
    - left. exists o'. split; [done|]. exact (Hset _ _ _ _ H).
    - right. split; [done|]. exists o'. split; [done|].
      exact (Hset _ _ _ _ H). }
  split.
  { intros o strings r o' H Hunset. rewrite (Hset _ _ _ _ H).
    destruct r as [[]| |]; [done| |]; rewrite Hunset;
      split; intros; discriminate. }
  split.
  { intros i k argc argv opts i' opts' H.
    apply handle_match_returns in H as (o & strings & o' & Hk & Hp & ->).
    exists o'. split; [|exact (Hset _ _ _ _ Hp)].
    apply list_lookup_insert_eq. by eapply lookup_lt_Some. }
  intros i k argc argv opts e opts'. apply handle_match_throw_is_set.
Qed.

(** ** Boolean flags *)

Lemma flag_matched_first ids help s b others tok :
  tok ∈ ids ->
  match_option tok (KeywordOption ids help s (VBool b) :: others) = Some 0%nat.
Proof.
  intros Hin. apply match_option_Some.
  exists (KeywordOption ids help s (VBool b)).
  split; [done|]. split; [by apply matches_identifiers_elem|].
  split; [intros; lia | done].
Qed.

(** As long as only identifiers of the leading flag are met, the loop turns
    the flag on, keeps it on, and collects nothing. *)
Lemma flag_loop ids help others argv fuel :
  forall i s b u,
    0 <= i -> argc_of argv - i <= Z.of_nat fuel ->
    Forall (fun tok => tok ∈ ids) (drop (Z.to_nat i) argv) ->
    parse_loop fuel (argc_of argv) argv i u
      (KeywordOption ids help s (VBool b) :: others)
    = Some (Return tt, u,
            (if i <? argc_of argv
             then KeywordOption ids help true (VBool true)
             else KeywordOption ids help s (VBool b)) :: others).
Proof.
  induction fuel as [|fuel IH]; intros i s b u Hi Hfuel Hall;
    rewrite parse_loop_unfold;
    destruct (Z.ltb_spec i (argc_of argv)) as [Hlt|Hge]; try lia; try done.
  rewrite argv_at_lookup by done.
  destruct (lookup_lt_is_Some_2 argv (Z.to_nat i)) as [tok Htok];
    [unfold argc_of in *; lia|].
  rewrite Htok. rewrite (drop_S _ _ _ Htok) in Hall.
  apply Forall_cons in Hall as [Hin Hall].
  rewrite (flag_matched_first ids help s b others tok Hin).
  rewrite (handle_match_resolved i 0 argv _ (KeywordOption ids help s (VBool b)))
    by done.
  cbn [get_param_count NUM_OPTS]. change (0 <? -1) with false. cbn match.
  change (Spec.resolve 0 (argc_of argv) i) with 0. cbn zeta.
  destruct (Z.leb_spec (argc_of argv) (i + 0)); [lia|].
  cbn [OptionBase_parse from_string set_val set_is_set]. cbn [insert list_insert].
  replace (i + 0 + 1) with (i + 1) by lia.
  rewrite IH; [|lia|lia|].
  - by destruct (i + 1 <? argc_of argv).
  - by replace (Z.to_nat (i + 1)) with (S (Z.to_nat i)) by lia.
Qed.

(** C6: a boolean keyword descriptor has arity 0; its parse always returns,
    with value true and [is_set] true, whatever the strings and whatever the
    state before, so that parsing again changes nothing; and a command line
    made of one or more of its identifiers, in any number and order, leaves
    the flag on and no token unrecognised. *)
Theorem flag_parse_idempotent (ids : list string) (help : string)
    (s b : bool) :
  let flag := KeywordOption ids help s (VBool b) in
  let on := KeywordOption ids help true (VBool true) in
  get_param_count flag = 0 /\
  (forall strings, OptionBase_parse flag strings = (Return tt, on)) /\
  (forall strings strings',
     OptionBase_parse (OptionBase_parse flag strings).2 strings'
     = OptionBase_parse flag strings) /\
  (forall others argv skip_first_n,
     0 <= skip_first_n < argc_of argv ->
     Forall (fun tok => tok ∈ ids) (drop (Z.to_nat skip_first_n) argv) ->
     parse (argc_of argv) argv (flag :: others) skip_first_n
     = Some (Return [], on :: others)).
Proof.
  intros flag on. repeat split; try done.
  intros others argv skip [Hskip Hlt] Hall. unfold parse, flag.
  rewrite (flag_loop ids help others argv); [|lia|unfold argc_of; lia|done].
  by destruct (Z.ltb_spec skip (argc_of argv)); [|lia].
Qed.

(** ** Matching precedence *)

(** C2: [match_option] returns the first keyword descriptor, in registration
    order, that matches the token; only when no keyword descriptor matches
    does it return the first positional descriptor that matches, which is
    the first one not yet set; it returns none exactly when no descriptor of
    the registry matches. With a keyword descriptor that has "-x" among its
    identifiers and a positional descriptor, in either registration order and
    whatever their state, "-x" is matched by the keyword descriptor. *)
Theorem match_option_precedence (arg : string) (opts : list OptionBase) :
  (forall k,
     match_option arg opts = Some k <->
     exists o, opts !! k = Some o /\ matches o arg = true /\
       (forall j o', (j < k)%nat -> opts !! j = Some o' ->
          get_type o' = get_type o -> matches o' arg = false) /\
       (get_type o = POSITIONAL ->
        forall j o', opts !! j = Some o' -> get_type o' = KEYWORD ->
          matches o' arg = false)) /\
  (forall k o,
     match_option arg opts = Some k -> opts !! k = Some o ->
     get_type o = POSITIONAL ->
     is_set o = false /\
     forall j o', (j < k)%nat -> opts !! j = Some o' ->
       get_type o' = POSITIONAL -> is_set o' = true) /\
  (match_option arg opts = None <->
   forall j o, opts !! j = Some o -> matches o arg = false) /\
  (forall ids help s v name help' is_required s' v',
     "-x" ∈ ids ->
     let K := KeywordOption ids help s v in
     let P := PositionalOption name help' is_required s' v' in
     match_option "-x" [K; P] = Some 0%nat /\
     match_option "-x" [P; K] = Some 1%nat).
Proof.
  split; [intros k; apply match_option_Some|].
  split; [|split; [apply match_option_None|]].
  - intros k o Hm Hk Hty.
    apply match_option_Some in Hm as (o1 & Hk1 & Hmatch & Hfirst & _).
    rewrite Hk in Hk1. injection Hk1 as <-.
    destruct o as [n h r s v| |]; try discriminate. simpl in Hmatch.
    split; [by destruct s|].
    intros j o' Hj Ho' Hty'. specialize (Hfirst j o' Hj Ho' Hty').
    destruct o' as [n' h' r' s' v'| |]; try discriminate.
    simpl in *. by destruct s'.
  - intros ids help s v name help' r s' v' Hin K P.
    apply matches_identifiers_elem in Hin.
    split; apply match_option_Some; exists K; (split; [done|]);
      (split; [done|]); split; try done.
    + intros j o' Hj. lia.
    + intros [|j] o' Hj; [|lia]. by intros [= <-].
Qed.

Lemma bool_parse_unfold name help is_required s b tok strings :
  OptionBase_parse (PositionalOption name help is_required s (VBool b))
    (tok :: strings)
  = (let '(bad, b') := Istream.extract_bool tok b in
     if bad
     then (Throw ConversionError,
           PositionalOption name help is_required s (VBool b'))
     else (Return tt, PositionalOption name help is_required true (VBool b'))).
Proof.
  unfold OptionBase_parse, from_string, at_index, stream_from_string.
  cbn [lookup list_lookup].
  by destruct (Istream.extract_bool tok b) as [[] ?].
Qed.

(** C9, as stated, fails for a positional descriptor that is not of string
    type: with a flag "-y" and an unset [int] positional, the token "-x" is
    matched by the positional but not captured as its value; the conversion
    fails, the parse is aborted with a ConversionError, and the descriptor
    is left unset with the value 0 in place of its default 7. *)
Lemma dash_token_not_captured_by_int_positional :
  let opts := [new_KeywordOption ["-y"] "" (VBool false);
               new_PositionalOption "count" "" true (VInt 7)] in
  match_option "-x" opts = Some 1%nat /\
  parse 1 ["-x"] opts 0
  = Some (Throw ConversionError,
          [KeywordOption ["-y"] "" false (VBool false);
           PositionalOption "count" "" true false (VInt 0)]) /\
  ~ exists unrecognised opts',
      parse 1 ["-x"] opts 0 = Some (Return unrecognised, opts').
Proof.
  split; [reflexivity|]. split; [reflexivity|].
  intros (u & opts' & H). discriminate H.
Qed.

(** C9, amended: a positional descriptor that is not yet set matches every
    token, whatever its content; hence a token that no keyword descriptor
    matches goes to the first positional descriptor that is not yet set and
    is never reported as unrecognised. What the descriptor makes of it
    depends on its type: a string descriptor stores the token verbatim and
    is set; an [int] or [bool] descriptor converts it through a stream, and
    for a token that does not begin with a number, such as "-x", the
    conversion fails, the parse is aborted with a ConversionError, the
    descriptor stays unset and 0 or false is stored (the old value if the
    token is empty or white space). With a flag "-y" and a string
    positional, the command line ["-x"] ends with "-x" as the positional
    value and nothing unrecognised. *)
Theorem unset_positional_takes_any_token :
  (forall name help is_required val tok,
     matches (PositionalOption name help is_required false val) tok = true) /\
  (forall opts tok k name help is_required val,
     opts !! k = Some (PositionalOption name help is_required false val) ->
     (forall j o, opts !! j = Some o -> get_type o = KEYWORD ->
        matches o tok = false) ->
     (forall j o, (j < k)%nat -> opts !! j = Some o ->
        get_type o = POSITIONAL -> is_set o = true) ->
     match_option tok opts = Some k) /\
  (forall argv opts i tok k name help is_required v fuel u,
     0 <= i -> argv !! Z.to_nat i = Some tok ->
     match_option tok opts = Some k ->
     opts !! k = Some (PositionalOption name help is_required false (VString v)) ->
     parse_loop (S fuel) (argc_of argv) argv i u opts
     = parse_loop fuel (argc_of argv) argv (i + 1) u
         (<[k := PositionalOption name help is_required true (VString tok)]>
            opts)) /\
  (forall argv opts i tok k o fuel u,
     0 <= i -> argv !! Z.to_nat i = Some tok ->
     match_option tok opts = Some k ->
     opts !! k = Some o -> get_type o = POSITIONAL ->
     parse_loop (S fuel) (argc_of argv) argv i u opts
     = match OptionBase_parse o [tok] with
       | (Return tt, o') =>
           parse_loop fuel (argc_of argv) argv (i + 1) u (<[k := o']> opts)
       | (Throw e, o') => Some (Throw e, u, <[k := o']> opts)
       | (Undefined, o') => Some (Undefined, u, <[k := o']> opts)
       end) /\
  (forall argv opts i tok k name help is_required v fuel u,
     0 <= i -> argv !! Z.to_nat i = Some tok ->
     match_option tok opts = Some k ->
     opts !! k = Some (PositionalOption name help is_required false (VInt v)) ->
     (forall n, ~ leading_number tok n) ->
     parse_loop (S fuel) (argc_of argv) argv i u opts
     = Some (Throw ConversionError, u,
             <[k := PositionalOption name help is_required false
                      (VInt (if all_spaces tok then v else 0))]> opts)) /\
  (forall argv opts i tok k name help is_required b fuel u,
     0 <= i -> argv !! Z.to_nat i = Some tok ->
     match_option tok opts = Some k ->
     opts !! k = Some (PositionalOption name help is_required false (VBool b)) ->
     (forall n, ~ leading_number tok n) ->
     parse_loop (S fuel) (argc_of argv) argv i u opts
     = Some (Throw ConversionError, u,
             <[k := PositionalOption name help is_required false
                      (VBool (if all_spaces tok then b else false))]> opts)) /\
  (forall n, ~ leading_number "-x" n) /\
  parse 1 ["-x"]
    [new_KeywordOption ["-y"] "" (VBool false);
     new_PositionalOption "file" "" true (VString "")] 0
  = Some (Return [],
          [KeywordOption ["-y"] "" false (VBool false);
           PositionalOption "file" "" true true (VString "-x")]).
Proof.
  split; [done|].
  split; [intros opts tok k name help r val; apply match_option_first_unset|].
  split.
  { intros argv opts i tok k name help r v fuel u.
    apply parse_loop_positional_step. }
  split.
  { intros argv opts i tok k o fuel u. apply parse_loop_positional_any. }
  split.
  { intros argv opts i tok k name help r v fuel u Hi Htok Hm Hk Hnone.
    rewrite (parse_loop_positional_any _ _ _ _ _ _ _ _ Hi Htok Hm Hk eq_refl).
    rewrite (int_parse_unfold
               (PositionalOption name help r false (VInt v)) [tok] v tok
               eq_refl eq_refl).
    apply no_leading_number in Hnone.
    rewrite extract_int_field, Hnone. by destruct (all_spaces tok). }
  split.
  { intros argv opts i tok k name help r b fuel u Hi Htok Hm Hk Hnone.
    rewrite (parse_loop_positional_any _ _ _ _ _ _ _ _ Hi Htok Hm Hk eq_refl).
    rewrite bool_parse_unfold.
    apply no_leading_number in Hnone.
    rewrite extract_bool_field, Hnone. by destruct (all_spaces tok). }
  split; [by apply no_leading_number|reflexivity].
Qed.

(** ** Arity *)

(** C3, as stated, fails in one respect: the error does not name the
    offending identifier. For the keyword "--count" met as the last token
    the exception is [out_of_range] with the fixed message "Not enough
    arguments.", in which "--count" does not occur. *)
Lemma insufficient_error_does_not_name_identifier :
  ~ exists e opts',
      handle_match 1 0 2 ["prog"; "--count"]
        [new_KeywordOption ["--count"] "" (VInt 0)] = (Throw e, opts') /\
      names_identifier e "--count" = true.
Proof. intros (e & opts' & [= <- _] & Hn). discriminate. Qed.

(** C3, amended: for a matched descriptor of arity [a >= 0] at an index
    [i >= 0], if fewer than [a] tokens follow the matched one ([i + a >= n])
    and [i + a] is an [int], the consumer throws [out_of_range] with the
    message "Not enough arguments." (the same for every descriptor), before
    reading any token and without touching the registry, and the driver
    passes the error on, whatever it has collected so far; with [i + a]
    beyond [int] the addition overflows and nothing is guaranteed. In
    particular a keyword descriptor of arity 1 matched at the last token
    makes the whole parse fail with that error. *)
Theorem insufficient_arguments :
  (forall i k argc argv opts o,
     opts !! k = Some o -> 0 <= i -> 0 <= get_param_count o ->
     argc <= i + get_param_count o <= Istream.INT_MAX ->
     handle_match i k argc argv opts
     = (Throw (out_of_range "Not enough arguments."), opts)) /\
  (forall i k argc argv opts o,
     opts !! k = Some o -> 0 <= i -> 0 <= get_param_count o ->
     Z.max Istream.INT_MAX argc < i + get_param_count o ->
     handle_match i k argc argv opts = (Undefined, opts)) /\
  (forall argv opts i tok k o fuel u,
     0 <= i < argc_of argv -> argv !! Z.to_nat i = Some tok ->
     match_option tok opts = Some k -> opts !! k = Some o ->
     0 <= get_param_count o ->
     argc_of argv <= i + get_param_count o <= Istream.INT_MAX ->
     parse_loop (S fuel) (argc_of argv) argv i u opts
     = Some (Throw (out_of_range "Not enough arguments."), u, opts)) /\
  (forall argv opts tok k ids help s v,
     let last := argc_of argv - 1 in
     0 <= last -> argv !! Z.to_nat last = Some tok ->
     match_option tok opts = Some k ->
     opts !! k = Some (KeywordOption ids help s v) -> NUM_OPTS v = 1 ->
     parse (argc_of argv) argv opts last
     = Some (Throw (out_of_range "Not enough arguments."), opts)).
Proof.
  split; [apply handle_match_insufficient|].
  split; [apply handle_match_overflow|]. split.
  - intros argv opts i tok k o fuel u Hi Htok Hm Hk Hpc Hfew.
    rewrite parse_loop_unfold.
    destruct (Z.ltb_spec i (argc_of argv)); [|lia].
    rewrite argv_at_lookup, Htok, Hm by lia.
    by rewrite (handle_match_insufficient _ _ _ _ _ _ Hk) by lia.
  - intros argv opts tok k ids help s v last Hlast Htok Hm Hk Harity.
    unfold parse. rewrite parse_loop_unfold.
    destruct (Z.ltb_spec last (argc_of argv)); [|lia].
    destruct (Z.to_nat (argc_of argv)) as [|fuel] eqn:Hfuel; [lia|].
    rewrite argv_at_lookup, Htok, Hm by done.
    rewrite (handle_match_resolved last k argv opts _ ltac:(lia) Hk).
    simpl get_param_count. rewrite Harity.
    unfold Spec.resolve. simpl.
    destruct (Z.leb_spec (argc_of argv) (last + 1)); [|lia].
    by destruct (Z.leb_spec (last + 1)
                   (Z.max Istream.INT_MAX (argc_of argv))); [|lia].
Qed.

Lemma insufficient_arguments_witness :
  let opts := [new_KeywordOption ["--count"] "" (VInt 0)] in
  opts !! 0%nat = Some (new_KeywordOption ["--count"] "" (VInt 0)) /\
  0 <= 1 /\
  0 <= get_param_count (new_KeywordOption ["--count"] "" (VInt 0)) /\
  2 <= 1 + get_param_count (new_KeywordOption ["--count"] "" (VInt 0))
    <= Istream.INT_MAX /\
  handle_match 1 0 2 ["prog"; "--count"] opts
  = (Throw (out_of_range "Not enough arguments."), opts).
Proof.
  intros opts. split; [reflexivity|]. split; [lia|]. split; [simpl; lia|].
  split; [by vm_compute|].
  apply (proj1 insufficient_arguments 1 0%nat 2 ["prog"; "--count"] opts
           (new_KeywordOption ["--count"] "" (VInt 0)));
    [reflexivity | lia | simpl; lia | by vm_compute].
Defined.

(** C7: a descriptor of declared arity -1 matched at index [i] of [n] tokens
    gets the resolved arity [n - i - 1]: the consumer hands it the matched
    token and every token after it, leaves the index on the last token, and
    the driver stops right after; matched at the last token, the capture is
    empty and the parse still succeeds. *)
Theorem rest_arity_consumes_all (argv : list string) (opts : list OptionBase)
    (i : Z) (k : nat) (ids : list string) (help : string) (s : bool)
    (c : list string) :
  0 <= i < argc_of argv ->
  opts !! k = Some (CaptureOption ids help (-1) s c) ->
  let captured := drop (S (Z.to_nat i)) argv in
  let opts' := <[k := CaptureOption ids help (-1) true captured]> opts in
  Spec.resolve (get_param_count (CaptureOption ids help (-1) s c))
    (argc_of argv) i = argc_of argv - i - 1 /\
  Z.of_nat (length captured) = argc_of argv - i - 1 /\
  handle_match i k (argc_of argv) argv opts
  = (Return (argc_of argv - 1), opts') /\
  (forall tok fuel u,
     argv !! Z.to_nat i = Some tok -> match_option tok opts = Some k ->
     parse_loop (S fuel) (argc_of argv) argv i u opts
     = Some (Return tt, u, opts')) /\
  (i = argc_of argv - 1 -> captured = []).
Proof.
  intros Hi Hk captured opts'.
  assert (handle_match i k (argc_of argv) argv opts
          = (Return (argc_of argv - 1), opts')) as Hh.
  { rewrite (handle_match_resolved i k argv opts _ Hi Hk).
    cbn [get_param_count]. change (-1 <? -1) with false. cbn match.
    change (Spec.resolve (-1) (argc_of argv) i) with (argc_of argv - i - 1).
    cbn zeta. destruct (Z.leb_spec (argc_of argv) (i + (argc_of argv - i - 1)));
      [lia|].
    unfold Spec.slice. rewrite take_ge
      by (rewrite length_drop; unfold argc_of in *; lia).
    cbn [OptionBase_parse from_string set_is_set]. unfold capture_from_string.
    rewrite drop_drop. subst opts' captured.
    replace (Z.to_nat i + 1)%nat with (S (Z.to_nat i)) by lia.
    do 2 f_equal. lia. }
  split; [done|]. split; [|split; [done|split]].
  - subst captured. rewrite length_drop. unfold argc_of in *. lia.
  - intros tok fuel u Htok Hm. rewrite parse_loop_unfold.
    destruct (Z.ltb_spec i (argc_of argv)); [|lia].
    rewrite argv_at_lookup, Htok, Hm, Hh by lia.
    rewrite parse_loop_unfold.
    by destruct (Z.ltb_spec (argc_of argv - 1 + 1) (argc_of argv)); [lia|].
  - intros ->. subst captured. apply drop_ge. unfold argc_of in *. lia.
Qed.

Lemma rest_arity_consumes_all_witness :
  let argv := ["prog"; "-r"; "r1"; "r2"; "r3"] in
  let opts := [new_CaptureOption ["-r"] "" (-1)] in
  0 <= 1 < argc_of argv /\
  opts !! 0%nat = Some (CaptureOption ["-r"] "" (-1) false []) /\
  handle_match 1 0 (argc_of argv) argv opts
  = (Return 4, [CaptureOption ["-r"] "" (-1) true ["r1"; "r2"; "r3"]]).
Proof.
  intros argv opts. split; [unfold argc_of; simpl; lia|].
  split; [reflexivity|].
  apply (rest_arity_consumes_all argv opts 1 0%nat ["-r"] "" false []);
    [unfold argc_of; simpl; lia | reflexivity].
Defined.

(** ** Positional descriptors *)

(** C8: a positional descriptor matches a token, whatever it is, exactly
    when it is not yet set; its arity is 0 and a string descriptor takes the
    matched token itself as its value. Hence a registry of unset string
    positional descriptors and as many tokens gives the i-th token to the
    i-th descriptor; with two descriptors and the input [a; b] the first
    gets [a] and the second [b]. *)
Theorem positionals_fill_in_order :
  (forall name help is_required s val tok,
     (matches (PositionalOption name help is_required s val) tok = true
      <-> s = false) /\
     get_param_count (PositionalOption name help is_required s val) = 0) /\
  (forall name help is_required s v tok strings,
     OptionBase_parse (PositionalOption name help is_required s (VString v))
       (tok :: strings)
     = (Return tt, PositionalOption name help is_required true (VString tok))) /\
  (forall argv opts,
     Forall (fun o => is_string_positional o = true /\ is_set o = false) opts ->
     length argv = length opts ->
     parse (argc_of argv) argv opts 0
     = Some (Return [], zip_with fill opts argv)) /\
  (forall n1 h1 r1 d1 n2 h2 r2 d2 a b,
     parse 2 [a; b]
       [new_PositionalOption n1 h1 r1 (VString d1);
        new_PositionalOption n2 h2 r2 (VString d2)] 0
     = Some (Return [],
             [PositionalOption n1 h1 r1 true (VString a);
              PositionalOption n2 h2 r2 true (VString b)])).
Proof.
  split; [|split; [done|split; [|done]]].
  - intros name help r s val tok. split; [|done]. simpl. by destruct s.
  - intros argv opts Hopts Hlen. unfold parse.
    assert (H := positional_loop argv opts [] 0 [] (Z.to_nat (argc_of argv))).
    rewrite !app_nil_l in H.
    rewrite H; [done | constructor | done | lia | simpl; lia
               | unfold argc_of; lia].
Qed.

(** ** Unrecognised tokens *)

(** The end-to-end scenario of the specification. *)
Example parse_scenario :
  parse 6 ["prog"; "--verbose"; "--count"; "3"; "input.txt"; "--unknown"]
    [new_KeywordOption ["--verbose"] "" (VBool false);
     new_KeywordOption ["--count"] "" (VInt 0);
     new_PositionalOption "file" "" true (VString "")] 1
  = Some (Return ["--unknown"],
          [KeywordOption ["--verbose"] "" true (VBool true);
           KeywordOption ["--count"] "" true (VInt 3);
           PositionalOption "file" "" true true (VString "input.txt")]).
Proof. reflexivity. Qed.

(** C4: on every command line, scanned from a skip offset [>= 0], [parse]
    terminates. Unless a descriptor of the registry has an arity so large
    that adding it to an index overflows [int], the outcome is the one of
    the state machine of the specification, which collects a token exactly
    when it is examined and matches no descriptor, and stops at the first
    conversion or arity failure with that failure as the outcome; the state
    machine has no other outcome. When [parse] returns, the unrecognised
    tokens are a subsequence, in order, of the input from the skip offset
    on, and none of them is matched by any descriptor; [ArgParser::parse]
    on a parser object with the same registry appends them to its member
    and its boolean is true exactly when the member is then empty, which
    for a new parser object is when the returned sequence is empty. A
    failure of [parse] is the same failure of [ArgParser::parse]. *)
Theorem parse_unmatched_tokens (argv : list string) (opts : list OptionBase)
    (skip_first_n : Z) :
  0 <= skip_first_n ->
  exists out opts',
    parse (argc_of argv) argv opts skip_first_n = Some (out, opts') /\
    (out = Undefined ->
     exists o, o ∈ opts /\ 2 <= get_param_count o /\
       Istream.INT_MAX < argc_of argv - 1 + get_param_count o) /\
    (out <> Undefined ->
     Spec.scan argv skip_first_n [] opts out opts' /\
     forall out2 opts2,
       Spec.scan argv skip_first_n [] opts out2 opts2 ->
       out2 = out /\ opts2 = opts') /\
    (forall unrecognised,
       out = Return unrecognised ->
       unrecognised `sublist_of` drop (Z.to_nat skip_first_n) argv /\
       Forall (fun t => match_option t opts' = None) unrecognised /\
       (forall this,
          ArgParser.options_ this = opts ->
          exists b this',
            ArgParser.parse this (argc_of argv) argv skip_first_n
            = Some (Return b, this') /\
            ArgParser.get_unrecognised this'
            = ArgParser.get_unrecognised this ++ unrecognised /\
            (b = true <->
             ArgParser.get_unrecognised this = [] /\ unrecognised = [])) /\
       exists b this',
         ArgParser.parse (ArgParser.new opts) (argc_of argv) argv skip_first_n
         = Some (Return b, this') /\
         ArgParser.get_unrecognised this' = unrecognised /\
         (b = true <-> unrecognised = [])) /\
    (forall e,
       out = Throw e ->
       forall this,
         ArgParser.options_ this = opts ->
         exists this',
           ArgParser.parse this (argc_of argv) argv skip_first_n
           = Some (Throw e, this')).
Proof.
  intros Hskip.
  destruct (parse_loop_scan (Z.to_nat (argc_of argv)) argv skip_first_n [] opts)
    as (r & u & opts' & Hloop & Hscan); [done | lia |].
  assert (forall out, Spec.scan argv skip_first_n [] opts out opts' ->
            forall out2 opts2,
              Spec.scan argv skip_first_n [] opts out2 opts2 ->
              out2 = out /\ opts2 = opts') as uniq.
  { intros out H1 out2 opts2 H2.
    by destruct (scan_deterministic _ _ _ _ _ _ H1 _ _ H2). }
  assert (forall this,
            ArgParser.options_ this = opts ->
            parse_loop (Z.to_nat (argc_of argv)) (argc_of argv) argv
              skip_first_n (ArgParser.unrecognised this)
              (ArgParser.options_ this)
            = Some (r, ArgParser.unrecognised this ++ u, opts')) as Hthis.
  { intros this ->.
    rewrite <- (app_nil_r (ArgParser.unrecognised this)) at 1.
    by rewrite parse_loop_prefix, Hloop. }
  unfold parse. rewrite Hloop.
  destruct r as [[]|e|].
  - exists (Return u), opts'. split; [done|]. split; [done|].
    split; [by split; [|apply uniq]|]. split; [|discriminate].
    intros ? [= <-].
    destruct (scan_unrecognised _ _ _ _ _ _ Hscan u eq_refl)
      as (w & -> & Hsub & Hall).
    split; [done|]. split; [done|]. split.
    + intros this Hopts. unfold ArgParser.parse.
      rewrite (Hthis this Hopts). eexists _, _. split; [done|].
      split; [done|]. unfold ArgParser.get_unrecognised. simpl.
      destruct (ArgParser.unrecognised this), w; simpl; split;
        try done; by intros [].
    + unfold ArgParser.parse, ArgParser.new. simpl. rewrite Hloop.
      eexists _, _. split; [done|]. split; [done|]. simpl. by destruct w.
  - exists (Throw e), opts'. split; [done|]. split; [done|].
    split; [by split; [|apply uniq]|]. split; [discriminate|].
    intros ? [= <-] this Hopts. unfold ArgParser.parse.
    rewrite (Hthis this Hopts). by eexists.
  - exists Undefined, opts'. split; [done|]. split; [done|].
    split; [done|]. split; discriminate.
Qed.

Lemma parse_unmatched_tokens_witness :
  let argv :=
    ["prog"; "--verbose"; "--count"; "3"; "input.txt"; "--unknown"] in
  let opts :=
    [new_KeywordOption ["--verbose"] "" (VBool false);
     new_KeywordOption ["--count"] "" (VInt 0);
     new_PositionalOption "file" "" true (VString "")] in
  0 <= 1 /\
  exists out opts',
    parse (argc_of argv) argv opts 1 = Some (out, opts') /\
    out <> Undefined /\
    Spec.scan argv 1 [] opts out opts'.
Proof.
  intros argv opts. split; [lia|].
  assert (Forall (fun o => get_param_count o <= 1) opts) as Hsmall.
  { repeat constructor; by vm_compute. }
  destruct (parse_unmatched_tokens argv opts 1 ltac:(lia))
    as (out & opts' & Hp & Hundef & Hscan & _).
  assert (out <> Undefined) as Hdef.
  { intros Hout. destruct (Hundef Hout) as (o & Hin & Hbig & _).
    rewrite Forall_forall in Hsmall. specialize (Hsmall o Hin). lia. }
  exists out, opts'. split; [exact Hp|]. split; [exact Hdef|].
  exact (proj1 (Hscan Hdef)).
Defined.


(** * Further properties of the code *)

(** ** What a run of the parser preserves *)
Section Preserved.

Variable P : OptionBase -> OptionBase -> Prop.
Hypothesis P_refl : forall o, P o o.
Hypothesis P_trans : forall o1 o2 o3, P o1 o2 -> P o2 o3 -> P o1 o3.
Hypothesis P_parse : forall o strings, P o (OptionBase_parse o strings).2.

Lemma Forall2_P_refl opts : Forall2 P opts opts.
Proof. apply Forall_Forall2_diag, Forall_forall. intros. apply P_refl. Qed.

Lemma handle_match_preserves i k argc argv opts r opts' :
  handle_match i k argc argv opts = (r, opts') -> Forall2 P opts opts'.
Proof.
  pose proof (Forall2_P_refl opts) as Hrefl.
  intros [->|(o & strings & Hk & -> & _)]%handle_match_shape; [done|].
  rewrite <- (list_insert_id opts k o Hk) at 1.
  apply Forall2_insert; [done|]. apply P_parse.
Qed.

Lemma parse_loop_preserves fuel argc argv :
  forall i u opts r u' opts',
    parse_loop fuel argc argv i u opts = Some (r, u', opts') ->
    Forall2 P opts opts'.
Proof.
  induction fuel as [|fuel IH]; intros i u opts r u' opts';
    rewrite parse_loop_unfold; destruct (i <? argc);
    try (intros [= _ _ <-]; apply Forall2_P_refl); try done.
  destruct (argv_at argv i) as [arg|];
    [|intros [= _ _ <-]; apply Forall2_P_refl].
  destruct (match_option arg opts) as [k|]; [|by apply IH].
  destruct (handle_match i k argc argv opts) as [[i'| |] opts1] eqn:Hh;
    apply handle_match_preserves in Hh.
  - intros H. apply IH in H. eapply Forall2_trans; [exact P_trans| |]; done.
  - by intros [= _ _ <-].
  - by intros [= _ _ <-].
Qed.

Lemma parse_preserves argc argv opts skip_first_n out opts' :
  parse argc argv opts skip_first_n = Some (out, opts') -> Forall2 P opts opts'.
Proof.
  unfold parse.
  destruct (parse_loop _ _ _ _ _ _) as [[[r u] opts1]|] eqn:Hloop; [|done].
  apply parse_loop_preserves in Hloop.
  destruct r as [[]| |]; by intros [= _ <-].
Qed.

End Preserved.

Lemma same_descriptor_refl o : same_descriptor o o.
Proof. by split. Qed.

Lemma same_descriptor_trans o1 o2 o3 :
  same_descriptor o1 o2 -> same_descriptor o2 o3 -> same_descriptor o1 o3.
Proof.
  intros [H1 H2 H3 H4 H5] [G1 G2 G3 G4 G5]. split; try congruence.
  intros Hty t. rewrite G5 by congruence. by apply H5.
Qed.

Lemma parse_same_descriptor o strings :
  same_descriptor o (OptionBase_parse o strings).2.
Proof.
  unfold OptionBase_parse, from_string, at_index, stream_from_string.
  destruct o as [n h r s v | ids h s v | ids h pc s c]; simpl.
  - destruct (strings !! 0%nat); [|by split].
    destruct v; simpl;
      [destruct (Istream.extract_int _ _) as [[] ?]
      | | destruct (Istream.extract_bool _ _) as [[] ?]];
      split; simpl; auto; discriminate.
  - destruct v; simpl; [destruct (strings !! 1%nat); simpl | |];
      [destruct (Istream.extract_int _ _) as [[] ?] | |
       destruct (strings !! 1%nat) |];
      split; simpl; auto.
  - split; simpl; auto.
Qed.

Lemma parse_same_registry argc argv opts skip_first_n out opts' :
  parse argc argv opts skip_first_n = Some (out, opts') ->
  Forall2 same_descriptor opts opts'.
Proof.
  apply parse_preserves;
    [apply same_descriptor_refl | apply same_descriptor_trans
    | apply parse_same_descriptor].
Qed.

(** ** Which failures a parse can end with *)

Lemma parse_throws_conversion o strings e o' :
  OptionBase_parse o strings = (Throw e, o') ->
  e = ConversionError /\ uses_stream o = true.
Proof.
  unfold OptionBase_parse, from_string, at_index, stream_from_string.
  destruct o as [n h r s v | ids h s v | ids h pc s c]; simpl.
  - destruct (strings !! 0%nat); [|done].
    destruct v; simpl; try done.
    + destruct (Istream.extract_int _ _) as [[] ?]; [|done].
      by intros [= <- _].
    + destruct (Istream.extract_bool _ _) as [[] ?]; [|done].
      by intros [= <- _].
  - destruct v; simpl; try done.
    + destruct (strings !! 1%nat); [|done]. simpl.
      destruct (Istream.extract_int _ _) as [[] ?]; [|done].
      by intros [= <- _].
    + destruct (strings !! 1%nat); done.
  - done.
Qed.

(** The three ways in which the consumer throws. *)
Lemma handle_match_throws i k argc argv opts e opts' :
  handle_match i k argc argv opts = (Throw e, opts') -> i < argc ->
  exists o, opts !! k = Some o /\
    ((e = ConversionError /\ uses_stream o = true) \/
     (e = InsufficientArgumentsError /\ 1 <= get_param_count o) \/
     (e = InvalidArityError /\ get_param_count o < -1)).
Proof.
  unfold handle_match. destruct (opts !! k) as [o|] eqn:Hk; [|done].
  intros H Hi. exists o. split; [done|]. revert H.
  destruct (Z.ltb_spec (get_param_count o) (-1)); [intros [= <- _]; auto|].
  destruct (resolve_param_count _ _ _) as [a|] eqn:Ha; [|done].
  apply resolve_param_count_inv in Ha.
  destruct (checked argc (i + a)) as [last|] eqn:Hlast; [|done].
  apply checked_inv in Hlast. subst last. rewrite Z.geb_leb.
  assert (argc <= i + a -> 1 <= get_param_count o) as Hfew.
  { subst a. unfold Spec.resolve, Spec.rest.
    destruct (Z.eqb_spec (get_param_count o) (-1)); lia. }
  destruct (Z.leb_spec argc (i + a)) as [Hge|Hlt].
  { intros [= <- _]. right. left. split; [done|auto]. }
  destruct (checked argc (a + 1)) as [n|] eqn:Hn; [|done].
  apply checked_inv in Hn. subst n.
  destruct (Z.ltb_spec (a + 1) 0) as [Hneg|_].
  { subst a. unfold Spec.resolve, Spec.rest in Hneg.
    destruct (Z.eqb_spec (get_param_count o) (-1)); lia. }
  cbn zeta.
  destruct (push_back_args _ _ _ _) as [[strings i']|]; [|done].
  destruct (OptionBase_parse o strings) as [[[]|e'|] o1] eqn:Hp; try done.
  intros [= <- _]. left. by eapply parse_throws_conversion.
Qed.

Lemma parse_loop_throws fuel argc argv :
  forall i u opts e u' opts',
    parse_loop fuel argc argv i u opts = Some (Throw e, u', opts') ->
    exists o, o ∈ opts /\
      ((e = ConversionError /\ uses_stream o = true) \/
       (e = InsufficientArgumentsError /\ 1 <= get_param_count o) \/
       (e = InvalidArityError /\ get_param_count o < -1)).
Proof.
  induction fuel as [|fuel IH]; intros i u opts e u' opts';
    rewrite parse_loop_unfold;
    destruct (Z.ltb_spec i argc) as [Hlt|]; try done.
  destruct (argv_at argv i) as [arg|]; [|done].
  destruct (match_option arg opts) as [k|]; [|by apply IH].
  destruct (handle_match i k argc argv opts) as [[i'|e'|] opts1] eqn:Hh;
    [| |done].
  - intros H. apply IH in H as (o1 & Hin & Hcases).
    apply (handle_match_preserves same_descriptor same_descriptor_refl
             parse_same_descriptor) in Hh.
    apply list_elem_of_lookup in Hin as [j Hj].
    destruct (Forall2_lookup_r _ _ _ _ _ Hh Hj) as (o & Ho & [_ _ Ha Hc _]).
    exists o. split; [by eapply list_elem_of_lookup_2|].
    by rewrite <- Ha, <- Hc.
  - intros [= <- _ _].
    apply handle_match_throws in Hh as (o & Ho & Hcases); [|done].
    exists o. split; [by eapply list_elem_of_lookup_2 | done].
Qed.

(** As long as no arity is so large that adding it to an index overflows
    [int], a parse from a skip offset [>= 0] terminates and either returns
    or fails with one of three errors, and each of them needs a descriptor
    of the registry that can cause it: a ConversionError one that converts
    through a stream, an InsufficientArgumentsError one of arity at least
    1, an InvalidArityError one of arity below -1. *)
Theorem parse_failures (argv : list string) (opts : list OptionBase)
    (skip_first_n : Z) :
  0 <= skip_first_n ->
  Forall (fun o => argc_of argv - 1 + get_param_count o <= Istream.INT_MAX)
    opts ->
  exists out opts',
    parse (argc_of argv) argv opts skip_first_n = Some (out, opts') /\
    out <> Undefined /\
    forall e,
      out = Throw e ->
      exists o, o ∈ opts /\
        ((e = ConversionError /\ uses_stream o = true) \/
         (e = InsufficientArgumentsError /\ 1 <= get_param_count o) \/
         (e = InvalidArityError /\ get_param_count o < -1)).
Proof.
  intros Hskip Hfit.
  destruct (parse_loop_scan (Z.to_nat (argc_of argv)) argv skip_first_n [] opts)
    as (r & u & opts' & Hloop & Hscan); [done | lia |].
  unfold parse. rewrite Hloop.
  destruct r as [[]|e|].
  - exists (Return u), opts'. split; [done|]. split; discriminate.
  - exists (Throw e), opts'. split; [done|]. split; [discriminate|].
    intros ? [= <-]. by eapply parse_loop_throws.
  - destruct Hscan as (o & Hin & _ & Hover).
    rewrite Forall_forall in Hfit. specialize (Hfit o Hin). lia.
Qed.

Lemma parse_failures_witness :
  let argv := ["prog"; "--count"; "abc"] in
  let opts := [new_KeywordOption ["--count"] "" (VInt 0)] in
  0 <= 1 /\
  Forall (fun o => argc_of argv - 1 + get_param_count o <= Istream.INT_MAX)
    opts /\
  parse (argc_of argv) argv opts 1
  = Some (Throw ConversionError, [KeywordOption ["--count"] "" false (VInt 0)])
  /\ exists out opts',
       parse (argc_of argv) argv opts 1 = Some (out, opts') /\
       out <> Undefined.
Proof.
  intros argv opts.
  assert (Forall (fun o => argc_of argv - 1 + get_param_count o
                           <= Istream.INT_MAX) opts) as Hfit.
  { repeat constructor. by vm_compute. }
  split; [lia|]. split; [exact Hfit|]. split; [reflexivity|].
  destruct (parse_failures argv opts 1 ltac:(lia) Hfit)
    as (out & opts' & Hp & Hdef & _).
  exists out, opts'. split; [exact Hp | exact Hdef].
Defined.

(** With a registry in which no descriptor converts through a stream and
    every arity is 0 or -1 (flags, string positionals, captures of the rest)
    [parse] returns on every command line: it cannot fail. *)
Theorem parse_cannot_fail (argv : list string) (opts : list OptionBase)
    (skip_first_n : Z) :
  0 <= skip_first_n ->
  Forall (fun o => uses_stream o = false /\ -1 <= get_param_count o <= 0)
    opts ->
  exists unrecognised opts',
    parse (argc_of argv) argv opts skip_first_n
    = Some (Return unrecognised, opts').
Proof.
  intros Hskip Hopts.
  destruct (parse_loop_scan (Z.to_nat (argc_of argv)) argv skip_first_n [] opts)
    as (r & u & opts' & Hloop & Hscan); [done | lia |].
  assert (parse (argc_of argv) argv opts skip_first_n
          = Some (match r with
                  | Return _ => Return u
                  | Throw e => Throw e
                  | Undefined => Undefined
                  end, opts')) as Hparse.
  { unfold parse. rewrite Hloop. by destruct r as [[]| |]. }
  rewrite Forall_forall in Hopts.
  destruct r as [[]|e|]; [by eauto | |].
  - apply parse_loop_throws in Hloop as (o & Hin & Hcases).
    destruct (Hopts o Hin) as [Hs Ha].
    destruct Hcases as [[_ ?]|[[_ ?]|[_ ?]]]; [congruence | lia | lia].
  - destruct Hscan as (o & Hin & Hbig & _).
    destruct (Hopts o Hin) as [_ Ha]. lia.
Qed.

Lemma parse_cannot_fail_witness :
  let argv := ["prog"; "-v"; "a.txt"; "-v"; "b.txt"] in
  let opts := [new_KeywordOption ["-v"] "" (VBool false);
               new_PositionalOption "file" "" true (VString "")] in
  0 <= 1 /\
  Forall (fun o => uses_stream o = false /\ -1 <= get_param_count o <= 0)
    opts /\
  exists unrecognised opts',
    parse (argc_of argv) argv opts 1 = Some (Return unrecognised, opts').
Proof.
  intros argv opts.
  assert (Forall (fun o => uses_stream o = false /\
                           -1 <= get_param_count o <= 0) opts) as Hopts.
  { repeat constructor; simpl; lia. }
  split; [lia|]. split; [exact Hopts|].
  exact (parse_cannot_fail argv opts 1 ltac:(lia) Hopts).
Defined.

(** ** Tokens and descriptors that the parse leaves alone *)

Lemma parse_loop_unmatched fuel argv opts :
  forall i u,
    0 <= i -> argc_of argv - i <= Z.of_nat fuel ->
    Forall (fun t => match_option t opts = None) (drop (Z.to_nat i) argv) ->
    parse_loop fuel (argc_of argv) argv i u opts
    = Some (Return tt, u ++ drop (Z.to_nat i) argv, opts).
Proof.
  induction fuel as [|fuel IH]; intros i u Hi Hfuel Hall;
    rewrite parse_loop_unfold;
    destruct (Z.ltb_spec i (argc_of argv)) as [Hlt|Hge]; try lia;
    try (rewrite drop_ge, app_nil_r by (unfold argc_of in *; lia); done).
  rewrite argv_at_lookup by done.
  destruct (lookup_lt_is_Some_2 argv (Z.to_nat i)) as [tok Htok];
    [unfold argc_of in *; lia|].
  rewrite Htok. rewrite (drop_S _ _ _ Htok) in Hall |- *.
  apply Forall_cons in Hall as [Hnone Hall]. rewrite Hnone.
  replace (S (Z.to_nat i)) with (Z.to_nat (i + 1)) in * by lia.
  rewrite IH by (done || lia). by rewrite <- app_assoc.
Qed.

(** When no token from the skip offset on is matched by any descriptor,
    [parse] returns exactly those tokens, in order, and the registry is left
    as it was. An empty registry and an empty command line are instances. *)
Theorem unmatched_tokens_all_returned (argv : list string)
    (opts : list OptionBase) (skip_first_n : Z) :
  0 <= skip_first_n ->
  Forall (fun t => match_option t opts = None)
    (drop (Z.to_nat skip_first_n) argv) ->
  parse (argc_of argv) argv opts skip_first_n
  = Some (Return (drop (Z.to_nat skip_first_n) argv), opts).
Proof.
  intros Hskip Hall. unfold parse.
  by rewrite parse_loop_unmatched by (done || lia).
Qed.

Lemma unmatched_tokens_all_returned_witness :
  let argv := ["prog"; "--a"; "b"] in
  0 <= 1 /\
  Forall (fun t => match_option t [] = None) (drop (Z.to_nat 1) argv) /\
  parse (argc_of argv) argv [] 1 = Some (Return ["--a"; "b"], []).
Proof.
  intros argv.
  assert (Forall (fun t => match_option t [] = None) (drop (Z.to_nat 1) argv))
    as Hall by (repeat constructor).
  split; [lia|]. split; [exact Hall|].
  exact (unmatched_tokens_all_returned argv [] 1 ltac:(lia) Hall).
Defined.

(** The consumer writes to the matched descriptor only. *)
Lemma handle_match_frame i k argc argv opts r opts' j :
  handle_match i k argc argv opts = (r, opts') -> j <> k ->
  opts' !! j = opts !! j.
Proof.
  intros [->|(o & strings & Hk & -> & _)]%handle_match_shape Hne; [done|].
  by apply list_lookup_insert_ne.
Qed.

Lemma parse_loop_frame fuel argc argv j o :
  Forall (fun t => matches o t = false) argv ->
  forall i u opts r u' opts',
    opts !! j = Some o ->
    parse_loop fuel argc argv i u opts = Some (r, u', opts') ->
    opts' !! j = Some o.
Proof.
  intros Hnever.
  induction fuel as [|fuel IH]; intros i u opts r u' opts' Hj;
    rewrite parse_loop_unfold; destruct (i <? argc);
    try (by intros [= _ _ <-]); try done.
  destruct (argv_at argv i) as [arg|] eqn:Harg; [|by intros [= _ _ <-]].
  destruct (match_option arg opts) as [k|] eqn:Hm; [|by apply IH].
  assert (j <> k) as Hne.
  { intros <-. apply match_option_Some in Hm as (o1 & Hk & Hmatch & _).
    rewrite Hj in Hk. injection Hk as <-.
    unfold argv_at in Harg. destruct (i <? 0); [done|].
    apply list_elem_of_lookup_2 in Harg.
    rewrite Forall_forall in Hnever. by rewrite (Hnever _ Harg) in Hmatch. }
  destruct (handle_match i k argc argv opts) as [[i'| |] opts1] eqn:Hh;
    pose proof (handle_match_frame _ _ _ _ _ _ _ j Hh Hne) as Hsame;
    rewrite Hj in Hsame.
  - by apply IH.
  - by intros [= _ _ <-].
  - by intros [= _ _ <-].
Qed.

(** A descriptor that matches none of the tokens of the command line (a
    keyword descriptor none of whose identifiers occurs in it, a positional
    one that is already set) comes out of [parse] untouched, however the
    parse ends: its value, its [is_set] and everything else are as before. *)
Theorem unmentioned_descriptor_untouched (argc : Z) (argv : list string)
    (opts : list OptionBase) (skip_first_n : Z) (j : nat) (o : OptionBase)
    (out : result (list string)) (opts' : list OptionBase) :
  opts !! j = Some o ->
  Forall (fun t => matches o t = false) argv ->
  parse argc argv opts skip_first_n = Some (out, opts') ->
  opts' !! j = Some o.
Proof.
  intros Hj Hnever. unfold parse.
  destruct (parse_loop _ _ _ _ _ _) as [[[r u] opts1]|] eqn:Hloop; [|done].
  apply (parse_loop_frame _ _ _ j o Hnever _ _ _ _ _ _ Hj) in Hloop.
  destruct r as [[]| |]; by intros [= _ <-].
Qed.

Lemma unmentioned_descriptor_untouched_witness :
  let argv := ["prog"; "--count"; "3"] in
  let opts := [new_KeywordOption ["--count"] "" (VInt 0);
               new_KeywordOption ["--name"] "" (VString "anon")] in
  let opts' := [KeywordOption ["--count"] "" true (VInt 3);
                new_KeywordOption ["--name"] "" (VString "anon")] in
  opts !! 1%nat = Some (new_KeywordOption ["--name"] "" (VString "anon")) /\
  Forall (fun t =>
            matches (new_KeywordOption ["--name"] "" (VString "anon")) t
            = false) argv /\
  parse 3 argv opts 1 = Some (Return [], opts') /\
  opts' !! 1%nat = Some (new_KeywordOption ["--name"] "" (VString "anon")).
Proof.
  intros argv opts opts'.
  assert (Forall (fun t =>
            matches (new_KeywordOption ["--name"] "" (VString "anon")) t
            = false) argv) as Hnever by (repeat constructor).
  split; [reflexivity|]. split; [exact Hnever|]. split; [reflexivity|].
  exact (unmentioned_descriptor_untouched 3 argv opts 1 1%nat _ (Return [])
           opts' eq_refl Hnever eq_refl).
Defined.

(** ** More or fewer tokens than positional descriptors *)

Lemma set_positionals_match_nothing done t :
  Forall (fun o => get_type o = POSITIONAL /\ is_set o = true) done ->
  match_option t done = None.
Proof.
  intros Hdone. apply match_option_None. intros j o Hj.
  apply list_elem_of_lookup_2 in Hj. rewrite Forall_forall in Hdone.
  destruct (Hdone o Hj) as [Hty Hset].
  destruct o; try discriminate. simpl in *. by rewrite Hset.
Qed.

Lemma positional_loop_any argv todo : forall done i u fuel,
  Forall (fun o => get_type o = POSITIONAL /\ is_set o = true) done ->
  Forall (fun o => is_string_positional o = true /\ is_set o = false) todo ->
  0 <= i -> argc_of argv - i <= Z.of_nat fuel ->
  parse_loop fuel (argc_of argv) argv i u (done ++ todo)
  = Some (Return tt, u ++ drop (length todo) (drop (Z.to_nat i) argv),
          done ++ zip_with fill todo (drop (Z.to_nat i) argv)
          ++ drop (length (drop (Z.to_nat i) argv)) todo).
Proof.
  induction todo as [|o todo IH]; intros done i u fuel Hdone Htodo Hi Hfuel.
  - cbn [zip_with length]. rewrite drop_nil, !app_nil_r, drop_0.
    rewrite parse_loop_unmatched; [done | done | done |].
    apply Forall_forall. intros t _.
    by apply set_positionals_match_nothing.
  - destruct (Z.ltb_spec i (argc_of argv)) as [Hlt|Hge].
    + destruct fuel as [|fuel]; [lia|].
      apply Forall_cons in Htodo as [[Hstr Hunset] Htodo].
      destruct o as [n h r s [|v|]| |]; try discriminate.
      simpl in Hunset. subst s.
      destruct (lookup_lt_is_Some_2 argv (Z.to_nat i)) as [tok Htok];
        [unfold argc_of in *; lia|].
      assert ((done ++ PositionalOption n h r false (VString v) :: todo)
                !! length done
              = Some (PositionalOption n h r false (VString v))) as Hk
        by (by apply list_lookup_middle).
      assert (match_option tok
                (done ++ PositionalOption n h r false (VString v) :: todo)
              = Some (length done)) as Hm.
      { eapply match_option_first_unset; [exact Hk| |].
        - intros j o' Ho' Hty. exfalso.
          apply list_elem_of_lookup_2 in Ho'.
          apply elem_of_app in Ho' as [Hin|Hin].
          + rewrite Forall_forall in Hdone.
            destruct (Hdone _ Hin). congruence.
          + apply elem_of_cons in Hin as [->|Hin]; [done|].
            rewrite Forall_forall in Htodo.
            destruct (Htodo _ Hin) as [Hs _]. by destruct o'.
        - intros j o' Hj Ho' _. rewrite lookup_app_l in Ho' by done.
          apply list_elem_of_lookup_2 in Ho'.
          rewrite Forall_forall in Hdone. by destruct (Hdone _ Ho'). }
      rewrite (parse_loop_positional_step _ _ _ _ _ _ _ _ _ _ _ Hi Htok Hm Hk).
      replace (length done) with (length done + 0)%nat by lia.
      rewrite insert_app_r. cbn [insert list_insert].
      rewrite (cons_middle _ done todo), app_assoc.
      rewrite IH; try lia; try done.
      * rewrite (drop_S _ _ _ Htok).
        replace (Z.to_nat (i + 1)) with (S (Z.to_nat i)) by lia.
        by rewrite <- app_assoc.
      * apply Forall_app. split; [done|]. by repeat constructor.
    + rewrite parse_loop_unfold.
      destruct (Z.ltb_spec i (argc_of argv)); [lia|].
      rewrite (drop_ge argv (Z.to_nat i)) by (unfold argc_of in *; lia).
      by rewrite drop_nil, app_nil_r.
Qed.

(** A registry of unset string positional descriptors takes the tokens from
    the skip offset on one by one, in registration order. Tokens in excess
    are returned as unrecognised, in order; descriptors in excess stay as
    they were, unset. *)
Theorem positionals_surplus_and_shortage (argv : list string)
    (opts : list OptionBase) (skip_first_n : Z) :
  0 <= skip_first_n ->
  Forall (fun o => is_string_positional o = true /\ is_set o = false) opts ->
  let tokens := drop (Z.to_nat skip_first_n) argv in
  parse (argc_of argv) argv opts skip_first_n
  = Some (Return (drop (length opts) tokens),
          zip_with fill opts tokens ++ drop (length tokens) opts).
Proof.
  intros Hskip Hopts tokens. unfold parse.
  assert (H := positional_loop_any argv opts [] skip_first_n []
                 (Z.to_nat (argc_of argv))).
  rewrite !app_nil_l in H. by rewrite H by (done || lia).
Qed.

Lemma positionals_surplus_and_shortage_witness :
  let argv := ["prog"; "a"; "b"; "c"] in
  let opts := [new_PositionalOption "in" "" true (VString "");
               new_PositionalOption "out" "" false (VString "")] in
  0 <= 1 /\
  Forall (fun o => is_string_positional o = true /\ is_set o = false) opts /\
  parse (argc_of argv) argv opts 1
  = Some (Return ["c"],
          [PositionalOption "in" "" true true (VString "a");
           PositionalOption "out" "" false true (VString "b")]).
Proof.
  intros argv opts.
  assert (Forall (fun o => is_string_positional o = true /\ is_set o = false)
            opts) as Hopts by (repeat constructor).
  split; [lia|]. split; [exact Hopts|].
  exact (positionals_surplus_and_shortage argv opts 1 ltac:(lia) Hopts).
Defined.

(** ** A string keyword and the token after it *)

(** When a string keyword descriptor is matched and a token follows, that
    token becomes the value whatever it is, also when it is itself an
    identifier of some descriptor: the loop goes on two tokens further and
    never looks at it as a candidate. *)
Theorem string_keyword_takes_next_token (argv : list string)
    (opts : list OptionBase) (i : Z) (tok nxt : string) (k : nat)
    (ids : list string) (help : string) (s : bool) (v : string) (fuel : nat)
    (u : list string) :
  0 <= i ->
  argv !! Z.to_nat i = Some tok -> argv !! S (Z.to_nat i) = Some nxt ->
  match_option tok opts = Some k ->
  opts !! k = Some (KeywordOption ids help s (VString v)) ->
  parse_loop (S fuel) (argc_of argv) argv i u opts
  = parse_loop fuel (argc_of argv) argv (i + 2) u
      (<[k := KeywordOption ids help true (VString nxt)]> opts).
Proof.
  intros Hi Htok Hnxt Hm Hk.
  assert (i + 1 < argc_of argv) as Hlt.
  { apply lookup_lt_Some in Hnxt. unfold argc_of. lia. }
  rewrite parse_loop_unfold.
  destruct (Z.ltb_spec i (argc_of argv)); [|lia].
  rewrite argv_at_lookup, Htok, Hm by done.
  rewrite (handle_match_resolved i k argv opts _ ltac:(lia) Hk).
  cbn [get_param_count NUM_OPTS]. change (1 <? -1) with false. cbn match.
  change (Spec.resolve 1 (argc_of argv) i) with 1. cbn zeta.
  destruct (Z.leb_spec (argc_of argv) (i + 1)); [lia|].
  unfold Spec.slice. rewrite (drop_S _ _ _ Htok), (drop_S _ _ _ Hnxt).
  change (Z.to_nat (1 + 1)) with 2%nat. cbn [take]. rewrite take_0.
  cbn [OptionBase_parse from_string at_index lookup list_lookup
         stream_from_string set_val set_is_set].
  by replace (i + 1 + 1) with (i + 2) by lia.
Qed.

Lemma string_keyword_takes_next_token_witness :
  let argv := ["--name"; "--verbose"] in
  let opts := [new_KeywordOption ["--verbose"] "" (VBool false);
               new_KeywordOption ["--name"] "" (VString "")] in
  0 <= 0 /\ argv !! Z.to_nat 0 = Some "--name" /\
  argv !! S (Z.to_nat 0) = Some "--verbose" /\
  match_option "--name" opts = Some 1%nat /\
  parse_loop 2 (argc_of argv) argv 0 [] opts
  = Some (Return tt, [],
          [KeywordOption ["--verbose"] "" false (VBool false);
           KeywordOption ["--name"] "" true (VString "--verbose")]).
Proof.
  intros argv opts. split; [lia|]. split; [reflexivity|].
  split; [reflexivity|]. split; [reflexivity|].
  rewrite (string_keyword_takes_next_token argv opts 0 "--name" "--verbose"
             1%nat ["--name"] "" false "" 1%nat [] ltac:(lia)
             eq_refl eq_refl eq_refl eq_refl).
  reflexivity.
Defined.

(** ** The two halves of the registry *)

Lemma indices_of_elem ty l : forall q p,
  p ∈ indices_of ty l q <->
  exists o, (q <= p)%nat /\ l !! (p - q)%nat = Some o /\ get_type o = ty.
Proof.
  induction l as [|o l IH]; intros q p; simpl.
  - split; [intros H; inversion H | intros (? & _ & ? & _); done].
  - rewrite elem_of_app, IH. split.
    + intros [Hhere|(o' & Hle & Hp & Hty)].
      * destruct (Type_eqb (get_type o) ty) eqn:E; [|inversion Hhere].
        apply list_elem_of_singleton in Hhere as ->.
        exists o. rewrite Nat.sub_diag. apply Type_eqb_eq in E. done.
      * exists o'. replace (p - q)%nat with (S (p - S q)) by lia.
        split; [lia|done].
    + intros (o' & Hle & Hp & Hty).
      destruct (p - q)%nat as [|d] eqn:Ed.
      * left. injection Hp as ->. apply Type_eqb_eq in Hty. rewrite Hty.
        apply list_elem_of_singleton. lia.
      * right. exists o'. replace (p - S q)%nat with d by lia.
        split; [lia|done].
Qed.

Lemma indices_of_sorted ty l : forall q,
  StronglySorted lt (indices_of ty l q).
Proof.
  induction l as [|o l IH]; intros q; simpl; [constructor|].
  assert (Forall (lt q) (indices_of ty l (S q))) as Hgt.
  { apply Forall_forall. intros p Hp.
    apply indices_of_elem in Hp as (? & ? & _). lia. }
  destruct (Type_eqb (get_type o) ty); simpl; [by constructor | apply IH].
Qed.

Lemma indices_of_lengths l : forall q,
  (length (indices_of POSITIONAL l q) + length (indices_of KEYWORD l q)
   = length l)%nat.
Proof.
  induction l as [|o l IH]; intros q; simpl; [done|].
  rewrite !length_app. specialize (IH (S q)).
  destruct (get_type o); simpl; lia.
Qed.

(** [split_options] is a stable partition of the registry: [keyword] lists
    the positions of the keyword descriptors and [positional] those of the
    positional ones, each in increasing order, so that every descriptor is
    in exactly one of the two and keeps its place among its kind. *)
Theorem split_options_partition (opts : list OptionBase) :
  let s := split_options_ctor opts in
  (forall p, p ∈ keyword s <->
             exists o, opts !! p = Some o /\ get_type o = KEYWORD) /\
  (forall p, p ∈ positional s <->
             exists o, opts !! p = Some o /\ get_type o = POSITIONAL) /\
  StronglySorted lt (keyword s) /\
  StronglySorted lt (positional s) /\
  (length (positional s) + length (keyword s) = length opts)%nat.
Proof.
  rewrite split_options_indices. cbn [keyword positional].
  split; [|split; [|split; [|split]]].
  - intros p. rewrite indices_of_elem, Nat.sub_0_r. split.
    + intros (o & _ & ?). by exists o.
    + intros (o & ?). exists o. split; [lia|done].
  - intros p. rewrite indices_of_elem, Nat.sub_0_r. split.
    + intros (o & _ & ?). by exists o.
    + intros (o & ?). exists o. split; [lia|done].
  - apply indices_of_sorted.
  - apply indices_of_sorted.
  - apply indices_of_lengths.
Qed.

(** ** The member-function parser keeps what it did not recognise *)

(** [ArgParser::parse] never clears the member [unrecognised]: a call that
    returns leaves there what was there before followed by the tokens that
    the free function [parse] returns for the same command line, and its
    boolean is true only if both are empty. A parser object that has once
    met an unrecognised token answers false from then on. *)
Theorem argparser_accumulates (this : ArgParser.t) (argc : Z)
    (argv : list string) (skip_first_n : Z) (b : bool) (this' : ArgParser.t) :
  ArgParser.parse this argc argv skip_first_n = Some (Return b, this') ->
  exists w,
    parse argc argv (ArgParser.options_ this) skip_first_n
    = Some (Return w, ArgParser.options_ this') /\
    ArgParser.get_unrecognised this' = ArgParser.get_unrecognised this ++ w /\
    (b = true <-> ArgParser.get_unrecognised this = [] /\ w = []).
Proof.
  unfold ArgParser.parse, parse, ArgParser.get_unrecognised.
  rewrite <- (app_nil_r (ArgParser.unrecognised this)) at 1.
  rewrite parse_loop_prefix.
  destruct (parse_loop _ _ _ _ [] _) as [[[r w] opts1]|]; [|done].
  destruct r as [[]| |]; simpl; try done.
  intros [= <- <-]. exists w. split; [done|]. split; [done|].
  destruct (ArgParser.unrecognised this), w; simpl; split;
    try done; by intros [].
Qed.

Lemma argparser_accumulates_witness :
  let this := ArgParser.mk [new_KeywordOption ["-v"] "" (VBool false)] ["x"] in
  let this' := ArgParser.mk [KeywordOption ["-v"] "" true (VBool true)] ["x"] in
  ArgParser.parse this 2 ["prog"; "-v"] 1 = Some (Return false, this') /\
  exists w,
    parse 2 ["prog"; "-v"] (ArgParser.options_ this) 1
    = Some (Return w, ArgParser.options_ this') /\
    ArgParser.get_unrecognised this' = ArgParser.get_unrecognised this ++ w /\
    (false = true <-> ArgParser.get_unrecognised this = [] /\ w = []).
Proof.
  intros this this'. split; [reflexivity|].
  exact (argparser_accumulates this 2 ["prog"; "-v"] 1 false this' eq_refl).
Defined.


(** ** Help strings *)
Section Strings.

Lemma append_assoc a b c : (a +:+ b) +:+ c = a +:+ (b +:+ c).
Proof.
  induction a as [|x a IH]; [done|].
  by rewrite !append_String, IH.
Qed.

Lemma append_nil_r a : a +:+ "" = a.
Proof. induction a as [|x a IH]; [done|]. by rewrite append_String, IH. Qed.

Lemma length_append a b :
  String.length (a +:+ b) = (String.length a + String.length b)%nat.
Proof.
  induction a as [|x a IH]; [done|].
  rewrite append_String. simpl. by rewrite IH.
Qed.

Lemma string_of_list_ascii_app l1 l2 :
  string_of_list_ascii (l1 ++ l2)
  = string_of_list_ascii l1 +:+ string_of_list_ascii l2.
Proof.
  induction l1 as [|x l1 IH]; [done|].
  simpl. by rewrite IH, append_String.
Qed.

Lemma fill_n_repeat n c : Ostream.fill_n n c = string_of_list_ascii (repeat c n).
Proof. induction n as [|n IH]; [done|]. simpl. by rewrite IH. Qed.

Lemma length_fill_n n c : String.length (Ostream.fill_n n c) = n.
Proof. induction n as [|n IH]; [done|]. simpl. by rewrite IH. Qed.

Lemma join_identifiers_tail ids : forall tmp,
  join_identifiers ids false tmp = tmp +:+ comma_tail ids.
Proof.
  induction ids as [|str ids IH]; intros tmp; simpl.
  - by rewrite append_nil_r.
  - by rewrite IH, !append_assoc.
Qed.

Lemma concat_comma_tail str ids :
  String.concat ", " (str :: ids) = str +:+ comma_tail ids.
Proof.
  revert str. induction ids as [|str' ids IH]; intros str.
  - simpl. by rewrite append_nil_r.
  - change (String.concat ", " (str :: str' :: ids))
      with (str +:+ (", " +:+ String.concat ", " (str' :: ids))).
    by rewrite IH.
Qed.

Lemma reserve_length_from ids : forall a,
  fold_left (fun length str => length + Z.of_nat (String.length str) + 2)
    ids a
  = a + reserve_length ids.
Proof.
  unfold reserve_length.
  induction ids as [|str ids IH]; intros a; simpl; [lia|].
  rewrite IH, (IH (0 + _ + 2)). lia.
Qed.

Lemma length_comma_tail ids :
  Z.of_nat (String.length (comma_tail ids)) = reserve_length ids.
Proof.
  induction ids as [|str ids IH]; [done|].
  unfold reserve_length. simpl fold_left. rewrite reserve_length_from.
  cbn [comma_tail]. rewrite !length_append. simpl String.length. lia.
Qed.

End Strings.

(** The name column of a keyword descriptor is its identifiers separated by
    a comma and a space; the capacity that [get_help] reserves for it
    beforehand is never too small, and is two characters more than needed
    when there is at least one identifier. *)
Theorem keyword_help_joins_identifiers (ids : list string) (help : string)
    (s : bool) (v : Value) :
  let name := (get_help (KeywordOption ids help s v)).1 in
  name = String.concat ", " ids /\
  Z.of_nat (String.length name) <= reserve_length ids /\
  (ids <> [] -> reserve_length ids = Z.of_nat (String.length name) + 2).
Proof.
  cbn [get_help fst]. destruct ids as [|str ids].
  - repeat split; try done.
  - cbn [join_identifiers]. rewrite append_empty, join_identifiers_tail.
    rewrite concat_comma_tail, length_append, Nat2Z.inj_add, length_comma_tail.
    unfold reserve_length at 2 3. simpl fold_left. rewrite reserve_length_from.
    repeat split; lia.
Qed.

(** ** Writing to a stream whose width is zero *)
Section Plain.

Lemma put_plain os s :
  Ostream.width os = 0 ->
  Ostream.put os s
  = Ostream.mk (Ostream.buffer os +:+ s) (Ostream.flags os) 0 (Ostream.fill os).
Proof.
  intros Hw. unfold Ostream.put, Ostream.padded. rewrite Hw.
  replace (Z.to_nat (0 - Z.of_nat (String.length s))) with 0%nat by lia.
  cbn [Ostream.fill_n]. rewrite append_nil_r, append_empty.
  by destruct (_ && _).
Qed.

Lemma put_left os s :
  left_adjusted (Ostream.flags os) ->
  Ostream.put os s
  = Ostream.mk
      (Ostream.buffer os
       +:+ (s +:+ Ostream.fill_n
                    (Z.to_nat (Ostream.width os - Z.of_nat (String.length s)))
                    (Ostream.fill os)))
      (Ostream.flags os) 0 (Ostream.fill os).
Proof.
  intros (Hl & Hr & Hi). unfold Ostream.put, Ostream.padded.
  by rewrite Hl, Hr, Hi.
Qed.

Lemma indent_loop_plain n c : forall os,
  Ostream.width os = 0 ->
  indent_loop n c os
  = Ostream.mk (Ostream.buffer os +:+ Ostream.fill_n n c) (Ostream.flags os) 0
      (Ostream.fill os).
Proof.
  induction n as [|n IH]; intros os Hw; simpl.
  - rewrite append_nil_r. destruct os; simpl in *; by subst.
  - unfold Ostream.put_char. rewrite put_plain by done.
    rewrite IH by done. simpl.
    by rewrite append_assoc, append_String, append_empty.
Qed.

Lemma indent_text_String c str w f :
  indent_text (String c str) w f
  = String c ((if is_line_break c then Ostream.fill_n w f else "")
              +:+ indent_text str w f).
Proof.
  unfold indent_text. simpl. rewrite string_of_list_ascii_app. f_equal.
  destruct (is_line_break c); [by rewrite fill_n_repeat | done].
Qed.

Lemma indented_plain str w f : forall os,
  Ostream.width os = 0 ->
  indented str w f os
  = Ostream.mk (Ostream.buffer os +:+ indent_text str w f) (Ostream.flags os)
      0 (Ostream.fill os).
Proof.
  induction str as [|c str IH]; intros os Hw.
  - simpl. change (indent_text "" w f) with "". rewrite append_nil_r.
    destruct os; simpl in *; by subst.
  - cbn [indented]. unfold Ostream.put_char. rewrite put_plain by done.
    rewrite indent_text_String. fold (is_line_break c).
    destruct (is_line_break c).
    + rewrite indent_loop_plain by done. rewrite IH by done. simpl.
      by rewrite !append_assoc, append_String, append_empty.
    + rewrite IH by done. simpl.
      by rewrite append_empty, !append_assoc, append_String, append_empty.
Qed.

End Plain.

(** Written to a stream whose width is zero, [indented(str, w, f)] appends
    the characters of [str] in order, with [w] copies of [f] after each line
    feed or carriage return, and changes nothing else in the stream; a text
    without line breaks is appended as it is. *)
Theorem indented_inserts_after_line_breaks (str : string) (w : nat)
    (f : ascii) (os : Ostream.t) :
  Ostream.width os = 0 ->
  indented str w f os
  = Ostream.mk (Ostream.buffer os +:+ indent_text str w f) (Ostream.flags os)
      0 (Ostream.fill os) /\
  String.length (indent_text str w f)
  = (String.length str
     + w * length (List.filter is_line_break (list_ascii_of_string str)))%nat /\
  (Forall (fun c => is_line_break c = false) (list_ascii_of_string str) ->
   indent_text str w f = str).
Proof.
  intros Hw. split; [by apply indented_plain|]. split.
  - induction str as [|c str IH]; [unfold indent_text; simpl; lia|].
    rewrite indent_text_String. cbn [String.length list_ascii_of_string
      List.filter]. rewrite length_append, IH.
    destruct (is_line_break c); simpl; rewrite ?length_fill_n; lia.
  - induction str as [|c str IH]; [done|]. simpl. intros Hall.
    apply Forall_cons in Hall as [Hc Hall].
    rewrite indent_text_String, Hc, append_empty. by rewrite IH.
Qed.

Lemma indented_inserts_after_line_breaks_witness :
  let os := Ostream.mk ">" (Ostream.mk_fmtflags false true false 0) 0 "*" in
  Ostream.width os = 0 /\
  Ostream.buffer (indented (String "a" (String newline "b")) 2 "." os)
  = String ">" (String "a" (String newline "..b")).
Proof.
  intros os. split; [reflexivity|].
  rewrite (proj1 (indented_inserts_after_line_breaks
                    (String "a" (String newline "b")) 2 "." os eq_refl)).
  reflexivity.
Defined.

(** ** The help renderer *)
Section Help.

Lemma size_sub_small min_w : 2 <= min_w < 2 ^ 31 -> size_sub min_w 2 = min_w - 2.
Proof. intros H. unfold size_sub. apply Z.mod_small. lia. Qed.

Lemma int_of_size_small z : 0 <= z < 2 ^ 31 -> int_of_size z = z.
Proof.
  intros H. unfold int_of_size. rewrite Z.mod_small by lia.
  destruct (Z.ltb_spec z (2 ^ 31)); [done|lia].
Qed.

Ltac flatten_appends :=
  repeat (rewrite ?append_assoc, ?append_String, ?append_empty, ?append_nil_r).

Lemma ostream_eta os :
  Ostream.width os = 0 ->
  Ostream.mk (Ostream.buffer os) (Ostream.flags os) 0 (Ostream.fill os) = os.
Proof. destruct os; simpl; by intros ->. Qed.

Lemma print_option_plain min_w os o :
  Ostream.width os = 0 -> left_adjusted (Ostream.flags os) ->
  2 <= min_w < 2 ^ 31 ->
  print_option min_w os o
  = Ostream.mk (Ostream.buffer os +:+ help_entry min_w (Ostream.fill os) o)
      (Ostream.flags os) 0 (Ostream.fill os).
Proof.
  intros Hw Hleft Hmin. unfold print_option, help_entry, help_column.
  rewrite size_sub_small, !int_of_size_small by lia.
  destruct (Z.leb_spec (Z.of_nat (String.length (get_help o).1)) (min_w - 2)).
  - rewrite (put_left (Ostream.setw _ os)) by done.
    rewrite (put_plain (Ostream.mk _ _ _ _)) by done.
    rewrite (indented_plain _ _ _ (Ostream.mk _ _ _ _)) by done.
    rewrite (put_plain (Ostream.mk _ _ _ _)) by done.
    cbn [Ostream.buffer Ostream.flags Ostream.fill Ostream.width
           Ostream.setw].
    replace (Z.to_nat (min_w - 2 - Z.of_nat (String.length (get_help o).1)))
      with (Z.to_nat (min_w - 2) - String.length (get_help o).1)%nat by lia.
    f_equal. by flatten_appends.
  - rewrite (put_plain os) by done.
    rewrite (put_plain (Ostream.mk _ _ _ _)) by done.
    unfold Ostream.setw at 1.
    cbn [Ostream.buffer Ostream.flags Ostream.fill Ostream.width].
    rewrite (put_left (Ostream.mk _ _ _ _)) by done.
    rewrite (indented_plain _ _ _ (Ostream.mk _ _ _ _)) by done.
    rewrite (put_plain (Ostream.mk _ _ _ _)) by done.
    cbn [Ostream.buffer Ostream.flags Ostream.fill Ostream.width
           String.length].
    replace (Z.to_nat (min_w - Z.of_nat 0)) with (Z.to_nat min_w) by lia.
    f_equal. by flatten_appends.
Qed.

Lemma print_options_plain min_w opts : forall os,
  Ostream.width os = 0 -> left_adjusted (Ostream.flags os) ->
  2 <= min_w < 2 ^ 31 ->
  fold_left (print_option min_w) opts os
  = Ostream.mk
      (Ostream.buffer os
       +:+ append_all (map (help_entry min_w (Ostream.fill os)) opts))
      (Ostream.flags os) 0 (Ostream.fill os).
Proof.
  induction opts as [|o opts IH]; intros os Hw Hleft Hmin.
  - simpl. by rewrite append_nil_r, ostream_eta.
  - cbn [fold_left]. rewrite print_option_plain by done.
    rewrite IH by done. cbn [Ostream.buffer Ostream.flags Ostream.fill map
      append_all fold_right]. by rewrite append_assoc.
Qed.

Lemma print_positionals_plain l : forall pre os,
  Ostream.width os = 0 ->
  fold_left (print_positional (pre ++ l))
    (indices_of POSITIONAL l (length pre)) os
  = Ostream.mk
      (Ostream.buffer os
       +:+ append_all
             (map (fun o => " " +:+ (get_help o).1)
                (List.filter (fun o => Type_eqb (get_type o) POSITIONAL) l)))
      (Ostream.flags os) 0 (Ostream.fill os).
Proof.
  induction l as [|o l IH]; intros pre os Hw.
  - simpl. by rewrite append_nil_r, ostream_eta.
  - specialize (IH (pre ++ [o])).
    rewrite length_app, Nat.add_1_r, <- app_assoc in IH. simpl in IH.
    cbn [indices_of List.filter]. rewrite fold_left_app.
    destruct (Type_eqb (get_type o) POSITIONAL).
    + cbn [fold_left]. unfold print_positional at 2.
      rewrite list_lookup_middle by done.
      rewrite (put_plain os) by done.
      rewrite (put_plain (Ostream.mk _ _ _ _)) by done. rewrite IH by done.
      cbn [Ostream.buffer Ostream.flags Ostream.fill map append_all
             fold_right]. f_equal. by flatten_appends.
    + cbn [fold_left]. by rewrite IH.
Qed.

Lemma keyword_present l : forall q,
  (0 <? length (indices_of KEYWORD l q))%nat
  = existsb (fun o => Type_eqb (get_type o) KEYWORD) l.
Proof.
  induction l as [|o l IH]; intros q; [done|].
  cbn [indices_of existsb]. rewrite length_app, <- (IH (S q)).
  destruct (Type_eqb (get_type o) KEYWORD); [done|].
  by destruct (length (indices_of KEYWORD l (S q))).
Qed.

End Help.

(** On a stream whose width is zero and for a column width between 2 and
    the largest [int], [print_help] appends the usage line (the command,
    " <options>" when there is a keyword descriptor, the display names of the
    positional descriptors in registration order), the heading and one entry
    per descriptor in registration order, and hands the stream back with the
    flags and the fill character it came with. In an entry the help text
    starts [min_w] characters into a line: a name that fits is padded to
    that width. *)
Theorem print_help_text (os : Ostream.t) (cmd : string)
    (opts : list OptionBase) (min_w : Z) :
  Ostream.width os = 0 -> 2 <= min_w < 2 ^ 31 ->
  print_help os cmd opts min_w
  = Ostream.mk
      (Ostream.buffer os
       +:+ (usage_line cmd opts
            +:+ (String newline ("Options:" +:+ String newline "")
                 +:+ append_all (map (help_entry min_w (Ostream.fill os)) opts))))
      (Ostream.flags os) 0 (Ostream.fill os) /\
  (forall c name,
     Z.of_nat (String.length name) <= min_w - 2 ->
     Z.of_nat (String.length (help_column min_w c name)) = min_w).
Proof.
  intros Hw Hmin. split.
  - unfold print_help. rewrite split_options_indices.
    cbn [keyword positional]. rewrite keyword_present.
    unfold Ostream.std_left.
    rewrite (put_plain (Ostream.mk _ _ _ _)) by done.
    rewrite (put_plain (Ostream.mk _ _ _ _)) by done.
    cbn [Ostream.buffer Ostream.flags Ostream.fill Ostream.width].
    assert (forall os1 : Ostream.t,
              Ostream.width os1 = 0 ->
              left_adjusted (Ostream.flags os1) ->
              Ostream.set_flags
                (fold_left (print_option min_w) opts
                   (Ostream.put
                      (fold_left (print_positional opts)
                         (indices_of POSITIONAL opts 0) os1)
                      (String newline ("Options:" +:+ String newline ""))))
                (Ostream.flags os)
              = Ostream.mk
                  (Ostream.buffer os1
                   +:+ (append_all
                          (map (fun o => " " +:+ (get_help o).1)
                             (List.filter
                                (fun o => Type_eqb (get_type o) POSITIONAL)
                                opts))
                        +:+ (String newline ("Options:" +:+ String newline "")
                             +:+ append_all
                                   (map (help_entry min_w (Ostream.fill os1))
                                      opts))))
                  (Ostream.flags os) 0 (Ostream.fill os1)) as Hrest.
    { intros os1 Hw1 Hl1.
      pose proof (print_positionals_plain opts [] os1 Hw1) as Hpos.
      rewrite app_nil_l in Hpos. cbn [length] in Hpos. rewrite Hpos.
      rewrite (put_plain (Ostream.mk _ _ _ _)) by done.
      rewrite print_options_plain by done.
      unfold Ostream.set_flags.
      cbn [Ostream.buffer Ostream.flags Ostream.fill Ostream.width].
      by rewrite !append_assoc. }
    unfold usage_line.
    destruct (existsb _ opts).
    + rewrite (put_plain (Ostream.mk _ _ _ _)) by done.
      rewrite Hrest by done.
      cbn [Ostream.buffer Ostream.flags Ostream.fill].
      f_equal. by rewrite !append_assoc.
    + rewrite Hrest by done.
      cbn [Ostream.buffer Ostream.flags Ostream.fill].
      f_equal. by rewrite !append_assoc, append_empty.
  - intros c name Hfit. unfold help_column.
    destruct (Z.leb_spec (Z.of_nat (String.length name)) (min_w - 2)); [|lia].
    rewrite !length_append, length_fill_n. simpl String.length. lia.
Qed.

Lemma print_help_text_witness :
  let os := Ostream.mk "" (Ostream.mk_fmtflags false true false 7) 0 " " in
  let opts := [new_KeywordOption ["-v"; "--verbose"] "Be verbose."
                 (VBool false);
               new_PositionalOption "out" "Output file." false (VString "")] in
  Ostream.width os = 0 /\ 2 <= 12 < 2 ^ 31 /\
  print_help os "prog" opts 12
  = Ostream.mk
      ("Usage: prog <options> [out]"
       +:+ String newline
             ("Options:"
              +:+ String newline
                    ("-v, --verbose"
                     +:+ String newline
                           ("            Be verbose."
                            +:+ String newline
                                  ("[out]       Output file."
                                   +:+ String newline "")))))
      (Ostream.mk_fmtflags false true false 7) 0 " ".
Proof.
  intros os opts. split; [reflexivity|]. split; [lia|].
  rewrite (proj1 (print_help_text os "prog" opts 12 eq_refl ltac:(lia))).
  reflexivity.
Defined.

(** ** What the help renderer does to any stream *)
Section Extends.

Lemma stream_extends_refl os : stream_extends os os.
Proof. split; [done|]. exists "". by rewrite append_nil_r. Qed.

Lemma stream_extends_trans os1 os2 os3 :
  stream_extends os1 os2 -> stream_extends os2 os3 -> stream_extends os1 os3.
Proof.
  intros [Hf1 [t1 Hb1]] [Hf2 [t2 Hb2]]. split; [congruence|].
  exists (t1 +:+ t2). by rewrite Hb2, Hb1, append_assoc.
Qed.

Lemma put_extends os s : stream_extends os (Ostream.put os s).
Proof. split; [done|]. by eexists. Qed.

Lemma fold_left_extends {B} (f : Ostream.t -> B -> Ostream.t) (l : list B) :
  (forall os b, stream_extends os (f os b)) ->
  forall os, stream_extends os (fold_left f l os).
Proof.
  intros Hf. induction l as [|b l IH]; intros os; simpl.
  - apply stream_extends_refl.
  - eapply stream_extends_trans; [apply Hf | apply IH].
Qed.

Lemma indent_loop_extends n c : forall os,
  stream_extends os (indent_loop n c os).
Proof.
  induction n as [|n IH]; intros os; simpl.
  - apply stream_extends_refl.
  - eapply stream_extends_trans; [apply put_extends | apply IH].
Qed.

Lemma indented_extends str w f : forall os,
  stream_extends os (indented str w f os).
Proof.
  induction str as [|c str IH]; intros os; cbn [indented].
  - apply stream_extends_refl.
  - eapply stream_extends_trans; [apply put_extends|].
    destruct (_ || _); [|apply IH].
    eapply stream_extends_trans; [apply indent_loop_extends | apply IH].
Qed.

Lemma setw_extends n os : stream_extends os (Ostream.setw n os).
Proof. split; [done|]. exists "". by rewrite append_nil_r. Qed.

Lemma print_option_extends min_w os o :
  stream_extends os (print_option min_w os o).
Proof.
  unfold print_option. destruct (_ <=? _);
    repeat first
      [ apply stream_extends_refl
      | eapply stream_extends_trans; [|apply put_extends]
      | eapply stream_extends_trans; [|apply indented_extends]
      | eapply stream_extends_trans; [|apply setw_extends] ].
Qed.

Lemma print_positional_extends opts os p :
  stream_extends os (print_positional opts os p).
Proof.
  unfold print_positional. destruct (opts !! p); [|apply stream_extends_refl].
  eapply stream_extends_trans; apply put_extends.
Qed.

Lemma print_option_width min_w os o :
  Ostream.width (print_option min_w os o) = 0.
Proof. done. Qed.

Lemma print_options_width min_w opts : forall os,
  Ostream.width os = 0 ->
  Ostream.width (fold_left (print_option min_w) opts os) = 0.
Proof.
  induction opts as [|o opts IH]; intros os Hw; [done|].
  cbn [fold_left]. by apply IH.
Qed.

End Extends.

(** Whatever the stream, the command, the registry and the column width,
    [print_help] only appends to what the stream holds and hands it back
    with the format flags and the fill character it had on entry, and with
    the field width reset to zero. *)
Theorem print_help_restores_stream (os : Ostream.t) (cmd : string)
    (opts : list OptionBase) (min_w : Z) :
  let os' := print_help os cmd opts min_w in
  Ostream.flags os' = Ostream.flags os /\
  Ostream.fill os' = Ostream.fill os /\
  Ostream.width os' = 0 /\
  exists text, Ostream.buffer os' = Ostream.buffer os +:+ text.
Proof.
  cbn zeta. split; [done|].
  assert (stream_extends os (print_help os cmd opts min_w)) as [Hfill Hbuf].
  { unfold print_help.
    assert (stream_extends os (Ostream.std_left os)) as H0.
    { split; [done|]. exists "". by rewrite append_nil_r. }
    eapply stream_extends_trans; [exact H0|].
    assert (forall a b, stream_extends a b ->
              stream_extends a (Ostream.set_flags b (Ostream.flags os)))
      as Hset by (intros a b [? ?]; by split).
    apply Hset.
    eapply stream_extends_trans;
      [|apply fold_left_extends; intros; apply print_option_extends].
    eapply stream_extends_trans; [|apply put_extends].
    eapply stream_extends_trans;
      [|apply fold_left_extends; intros; apply print_positional_extends].
    destruct (_ <? _)%nat.
    - eapply stream_extends_trans; [|apply put_extends].
      eapply stream_extends_trans; apply put_extends.
    - eapply stream_extends_trans; apply put_extends. }
  split; [done|]. split; [|done].
  unfold print_help, Ostream.set_flags. cbn [Ostream.width].
  by apply print_options_width.
Qed.

(** ** Help before and after a parse *)

Lemma indices_of_same ty l l' :
  Forall2 same_descriptor l l' ->
  forall q, indices_of ty l' q = indices_of ty l q.
Proof.
  induction 1 as [|o o' l l' [_ Hty _ _ _] _ IH]; intros q; [done|].
  simpl. by rewrite Hty, IH.
Qed.

Lemma print_positional_same opts opts' os p :
  Forall2 same_descriptor opts opts' ->
  print_positional opts' os p = print_positional opts os p.
Proof.
  intros H. unfold print_positional.
  destruct (opts' !! p) as [o'|] eqn:Hp'.
  - destruct (Forall2_lookup_r _ _ _ _ _ H Hp') as (o & -> & [Hh _ _ _ _]).
    by rewrite Hh.
  - apply lookup_ge_None in Hp'. rewrite <- (Forall2_length _ _ _ H) in Hp'.
    apply lookup_ge_None in Hp'. by rewrite Hp'.
Qed.

Lemma fold_left_same {A B} (f g : A -> B -> A) (l : list B) :
  (forall a b, f a b = g a b) -> forall a, fold_left f l a = fold_left g l a.
Proof.
  intros Hfg. induction l as [|b l IH]; intros a; [done|].
  simpl. by rewrite Hfg, IH.
Qed.

Lemma print_options_same min_w l l' :
  Forall2 same_descriptor l l' ->
  forall os, fold_left (print_option min_w) l' os
             = fold_left (print_option min_w) l os.
Proof.
  induction 1 as [|o o' l l' [Hh _ _ _ _] _ IH]; intros os; [done|].
  cbn [fold_left]. rewrite IH. unfold print_option. by rewrite Hh.
Qed.

(** The help text does not depend on what has been parsed: however a parse
    ends, [print_help] on the registry it leaves writes what it would have
    written before it. *)
Theorem help_unchanged_by_parse (argc : Z) (argv : list string)
    (opts : list OptionBase) (skip_first_n : Z)
    (out : result (list string)) (opts' : list OptionBase)
    (os : Ostream.t) (cmd : string) (min_w : Z) :
  parse argc argv opts skip_first_n = Some (out, opts') ->
  print_help os cmd opts' min_w = print_help os cmd opts min_w.
Proof.
  intros Hparse. apply parse_same_registry in Hparse.
  unfold print_help. rewrite !split_options_indices.
  cbn [keyword positional].
  rewrite !(indices_of_same _ _ _ Hparse).
  rewrite (print_options_same _ _ _ Hparse).
  by rewrite (fold_left_same (print_positional opts') (print_positional opts))
    by (intros; by apply print_positional_same).
Qed.

Lemma help_unchanged_by_parse_witness :
  let opts := [new_KeywordOption ["--count"] "How many." (VInt 0)] in
  let opts' := [KeywordOption ["--count"] "How many." true (VInt 3)] in
  let os := Ostream.mk "" (Ostream.mk_fmtflags false false false 0) 0 " " in
  parse 3 ["prog"; "--count"; "3"] opts 1 = Some (Return [], opts') /\
  print_help os "prog" opts' 25 = print_help os "prog" opts 25.
Proof.
  intros opts opts' os. split; [reflexivity|].
  exact (help_unchanged_by_parse 3 ["prog"; "--count"; "3"] opts 1 (Return [])
           opts' os "prog" 25 eq_refl).
Defined.

(** ** The first revision *)
Section FlatLoop.

Lemma flat_parse_loop_unfold fuel argc argv i this :
  Flat.parse_loop fuel argc argv i this
  = if i <? argc then
      match fuel with
      | O => None
      | S fuel' =>
          match argv_at argv i with
          | None => Some (Flat.Undefined, this)
          | Some arg =>
              match Flat.find_option arg (Flat.options_ this) with
              | Some (opt, str) =>
                  match Flat.opt_type opt with
                  | Flat.FLAG =>
                      match Flat.set_value this opt "" with
                      | (Flat.Return tt, this') =>
                          Flat.parse_loop fuel' argc argv (i + 1) this'
                      | (Flat.Throw e, this') => Some (Flat.Throw e, this')
                      | (Flat.Undefined, this') => Some (Flat.Undefined, this')
                      end
                  | _ =>
                      if i + 1 <? argc then
                        match argv_at argv (i + 1) with
                        | None => Some (Flat.Undefined, this)
                        | Some value =>
                            match Flat.set_value this opt value with
                            | (Flat.Return tt, this') =>
                                Flat.parse_loop fuel' argc argv (i + 1 + 1)
                                  this'
                            | (Flat.Throw (Flat.invalid_argument _), this') =>
                                Some (Flat.Throw
                                        (Flat.invalid_argument
                                           ("Invalid argument type after: "
                                            +:+ (Flat.dquote
                                                 +:+ (str +:+ Flat.dquote)))),
                                      this')
                            | (Flat.Throw e, this') =>
                                Some (Flat.Throw e, this')
                            | (Flat.Undefined, this') =>
                                Some (Flat.Undefined, this')
                            end
                        end
                      else
                        Some (Flat.Throw
                                (Flat.logic_error
                                   ("Missing argument after: "
                                    +:+ (Flat.dquote
                                         +:+ (str +:+ Flat.dquote)))),
                              this)
                  end
              | None =>
                  Flat.parse_loop fuel' argc argv (i + 1)
                    (Flat.push_unrecognised this arg)
              end
          end
      end
    else Some (Flat.Return (Flat.empty (Flat.unrecognised this)), this).
Proof. destruct fuel; reflexivity. Qed.

Lemma find_identifier_Some arg ids str :
  Flat.find_identifier arg ids = Some str -> str = arg /\ arg ∈ ids.
Proof.
  induction ids as [|id ids IH]; simpl; [done|].
  destruct (String.eqb_spec id arg) as [->|].
  - intros [= <-]. split; [done | left].
  - intros H. destruct (IH H). split; [done | by right].
Qed.

Lemma find_identifier_None arg ids :
  Flat.find_identifier arg ids = None <-> arg ∉ ids.
Proof.
  induction ids as [|id ids IH]; simpl.
  - split; [intros _ H; inversion H | done].
  - destruct (String.eqb_spec id arg) as [->|Hne].
    + split; [done|]. intros H. destruct H. left.
    + rewrite IH, not_elem_of_cons. split; [by split | by intros [_ ?]].
Qed.

Lemma find_option_Some arg opts opt str :
  Flat.find_option arg opts = Some (opt, str) ->
  opt ∈ opts /\ str = arg /\ arg ∈ Flat.identifiers opt.
Proof.
  induction opts as [|o opts IH]; simpl; [done|].
  destruct (Flat.find_identifier arg (Flat.identifiers o)) as [s|] eqn:E.
  - intros [= <- <-]. apply find_identifier_Some in E as [-> ?].
    split; [left | done].
  - intros H. destruct (IH H) as (? & ? & ?). split; [by right | done].
Qed.

Lemma find_option_None arg opts :
  Flat.find_option arg opts = None <->
  forall opt, opt ∈ opts -> arg ∉ Flat.identifiers opt.
Proof.
  induction opts as [|o opts IH]; simpl.
  - split; [intros _ opt H; inversion H | done].
  - destruct (Flat.find_identifier arg (Flat.identifiers o)) as [s|] eqn:E.
    + split; [done|]. intros H. apply find_identifier_Some in E as [_ Hin].
      destruct (H o); [left | done].
    + rewrite IH. apply find_identifier_None in E. split.
      * intros H opt Hopt. apply elem_of_cons in Hopt as [->|]; auto.
      * intros H opt Hopt. apply H. by right.
Qed.

Variable P : Flat.t -> Flat.t -> Prop.
Hypothesis P_refl : forall this, P this this.
Hypothesis P_trans : forall a b c, P a b -> P b c -> P a c.
Hypothesis P_set : forall this opt value r this',
  opt ∈ Flat.options_ this ->
  Flat.set_value this opt value = (r, this') -> P this this'.
Hypothesis P_push : forall this arg, P this (Flat.push_unrecognised this arg).

Lemma flat_parse_loop_preserves fuel argc argv :
  forall i this r this',
    Flat.parse_loop fuel argc argv i this = Some (r, this') -> P this this'.
Proof.
  induction fuel as [|fuel IH]; intros i this r this';
    rewrite flat_parse_loop_unfold; destruct (i <? argc);
    try (by intros [= _ <-]); try done.
  destruct (argv_at argv i) as [arg|]; [|by intros [= _ <-]].
  destruct (Flat.find_option arg (Flat.options_ this)) as [[opt str]|] eqn:Hf.
  - apply find_option_Some in Hf as (Hopt & _ & _).
    destruct (Flat.opt_type opt).
    + destruct (Flat.set_value this opt "") as [[[]|e|] this1] eqn:Hs;
        apply P_set in Hs; try done.
      * intros H. apply IH in H. by eapply P_trans.
      * by intros [= _ <-].
      * by intros [= _ <-].
    + destruct (i + 1 <? argc); [|by intros [= _ <-]].
      destruct (argv_at argv (i + 1)) as [value|]; [|by intros [= _ <-]].
      destruct (Flat.set_value this opt value) as [[[]|e|] this1] eqn:Hs;
        apply P_set in Hs; try done.
      * intros H. apply IH in H. by eapply P_trans.
      * destruct e; by intros [= _ <-].
      * by intros [= _ <-].
    + destruct (i + 1 <? argc); [|by intros [= _ <-]].
      destruct (argv_at argv (i + 1)) as [value|]; [|by intros [= _ <-]].
      destruct (Flat.set_value this opt value) as [[[]|e|] this1] eqn:Hs;
        apply P_set in Hs; try done.
      * intros H. apply IH in H. by eapply P_trans.
      * destruct e; by intros [= _ <-].
      * by intros [= _ <-].
  - intros H. apply IH in H. eapply P_trans; [apply P_push | done].
Qed.

End FlatLoop.

Lemma map_insert_subseteq {V} (k : string) (v : V) (m : gmap string V) :
  m ⊆ Flat.map_insert k v m.
Proof.
  unfold Flat.map_insert. destruct (m !! k) eqn:E; [done|].
  by apply insert_subseteq.
Qed.

Lemma flat_grows_refl this : flat_grows this this.
Proof. by split. Qed.

Lemma flat_grows_trans a b c : flat_grows a b -> flat_grows b c -> flat_grows a c.
Proof.
  intros [] []. split; try congruence; by etrans.
Qed.

Lemma set_value_grows this opt value r this' :
  Flat.set_value this opt value = (r, this') -> flat_grows this this'.
Proof.
  unfold Flat.set_value. destruct (Flat.opt_type opt).
  - intros [= _ <-]. split; try done. apply map_insert_subseteq.
  - intros [= _ <-]. split; try done. apply map_insert_subseteq.
  - destruct (Flat.stoi value); intros [= _ <-]; split; try done.
    apply map_insert_subseteq.
Qed.

(** A parse of the first revision never overwrites or removes a stored
    value: what [get_flag], [get_string] and [get_int] answered for a name
    that had a value, they answer afterwards, so that of two occurrences of
    an option the first one counts; the option list and the defaults are
    left alone. This holds however the parse ends. *)
Theorem flat_parse_keeps_stored_values (this : Flat.t) (argc : Z)
    (argv : list string) (skip_first_n : Z) (r : Flat.result bool)
    (this' : Flat.t) :
  Flat.parse this argc argv skip_first_n = Some (r, this') ->
  flat_grows this this' /\
  (forall n, is_Some (Flat.options_flag this !! n) ->
             Flat.get_flag this' n = Flat.get_flag this n) /\
  (forall n, is_Some (Flat.options_string this !! n) ->
             Flat.get_string this' n = Flat.get_string this n) /\
  (forall n, is_Some (Flat.options_int this !! n) ->
             Flat.get_int this' n = Flat.get_int this n).
Proof.
  intros H.
  assert (flat_grows this this') as Hg.
  { revert H. apply flat_parse_loop_preserves.
    - apply flat_grows_refl.
    - apply flat_grows_trans.
    - intros ????? _. apply set_value_grows.
    - intros. by split. }
  split; [done|]. destruct Hg as [_ _ _ _ Hf Hs Hi].
  unfold Flat.get_flag, Flat.get_string, Flat.get_int.
  repeat split; intros n [v Hv].
  - by rewrite (lookup_weaken _ _ _ _ Hv Hf), Hv.
  - by rewrite (lookup_weaken _ _ _ _ Hv Hs), Hv.
  - by rewrite (lookup_weaken _ _ _ _ Hv Hi), Hv.
Qed.

Lemma flat_parse_keeps_stored_values_witness :
  let this := Flat.new [Flat.mk_Option "name" ["-n"] Flat.STRING ""] in
  exists r this',
    Flat.parse this 5 ["prog"; "-n"; "first"; "-n"; "second"] 1
    = Some (r, this') /\
    Flat.get_string this' "name" = "first" /\
    flat_grows this this'.
Proof.
  intros this.
  destruct (Flat.parse this 5 ["prog"; "-n"; "first"; "-n"; "second"] 1)
    as [[r this']|] eqn:E; [|discriminate].
  exists r, this'. split; [reflexivity|].
  split; [by injection E as <- <-|].
  exact (proj1 (flat_parse_keeps_stored_values this 5
                  ["prog"; "-n"; "first"; "-n"; "second"] 1 r this' E)).
Defined.

Lemma stoi_range str n :
  Flat.stoi str = Flat.Return n -> Istream.INT_MIN <= n <= Istream.INT_MAX.
Proof.
  unfold Flat.stoi. destruct (Istream.field _) as [v|]; [|done].
  destruct (Z.ltb_spec v Istream.INT_MIN); [done|].
  destruct (Z.ltb_spec Istream.INT_MAX v); [done|].
  intros [= <-]. lia.
Qed.

Lemma map_insert_lookup {V} (k : string) (v : V) (m : gmap string V) n x :
  Flat.map_insert k v m !! n = Some x ->
  m !! n = Some x \/ (n = k /\ x = v).
Proof.
  unfold Flat.map_insert. destruct (m !! k) eqn:E; [by left|].
  destruct (decide (k = n)) as [->|Hne].
  - rewrite lookup_insert_eq. intros [= <-]. by right.
  - rewrite lookup_insert_ne by done. by left.
Qed.

Lemma set_value_well_keyed this opt value r this' :
  opt ∈ Flat.options_ this ->
  Flat.set_value this opt value = (r, this') ->
  flat_well_keyed this -> flat_well_keyed this'.
Proof.
  intros Hopt. unfold Flat.set_value.
  destruct (Flat.opt_type opt) eqn:Hty.
  - intros [= _ <-] [Hf Hs Hi]. split; simpl; try done.
    intros n b Hn. apply map_insert_lookup in Hn as [Hn|[-> ->]]; [eauto|].
    split; [done|]. by exists opt.
  - intros [= _ <-] [Hf Hs Hi]. split; simpl; try done.
    intros n v Hn. apply map_insert_lookup in Hn as [Hn|[-> ->]]; [eauto|].
    by exists opt.
  - destruct (Flat.stoi value) as [z| |] eqn:Hz; intros [= _ <-]; try done.
    intros [Hf Hs Hi]. split; simpl; try done.
    intros n v Hn. apply map_insert_lookup in Hn as [Hn|[-> ->]]; [eauto|].
    split; [by eapply stoi_range | by exists opt].
Qed.

(** The stored values always belong to the declared options: in a parser
    object built by the constructor and taken through any number of parses,
    a name has a flag only if a FLAG option bears it, and then the flag is
    true; it has a string only if a STRING option bears it; it has a number
    only if an INT option bears it, and then the number fits an [int]. A
    getter of a type that no option of that name has answers the default. *)
Theorem flat_values_belong_to_options :
  (forall options, flat_well_keyed (Flat.new options)) /\
  (forall this argc argv skip_first_n r this',
     flat_well_keyed this ->
     Flat.parse this argc argv skip_first_n = Some (r, this') ->
     flat_well_keyed this') /\
  (forall this n,
     flat_well_keyed this ->
     (forall opt, opt ∈ Flat.options_ this -> Flat.name opt = n ->
        Flat.opt_type opt <> Flat.INT) ->
     Flat.get_int this n = Flat.default_int this).
Proof.
  split; [|split].
  - intros options. split; simpl; intros n v H; by rewrite lookup_empty in H.
  - intros this argc argv skip r this' Hwk H. revert Hwk.
    set (Q := fun a b => Flat.options_ b = Flat.options_ a /\
                         (flat_well_keyed a -> flat_well_keyed b)).
    assert (forall a, Q a a) as Q_refl by (by intros a).
    assert (forall a b c, Q a b -> Q b c -> Q a c) as Q_trans.
    { intros a b c [Ho1 H1] [Ho2 H2]. split; [congruence | auto]. }
    assert (forall a opt value r0 b,
              opt ∈ Flat.options_ a ->
              Flat.set_value a opt value = (r0, b) -> Q a b) as Q_set.
    { intros a opt value r0 b Hopt Hs. split.
      - by destruct (set_value_grows _ _ _ _ _ Hs).
      - by eapply set_value_well_keyed. }
    assert (forall a arg, Q a (Flat.push_unrecognised a arg)) as Q_push.
    { intros a arg. split; [done|]. by intros []. }
    exact (proj2 (flat_parse_loop_preserves Q Q_refl Q_trans Q_set Q_push
                    _ _ _ _ _ _ _ H)).
  - intros this n [_ _ Hi] Hnone. unfold Flat.get_int.
    destruct (Flat.options_int this !! n) as [v|] eqn:Hv; [|done].
    destruct (Hi n v Hv) as (_ & opt & Hopt & Hname & Hty).
    by destruct (Hnone opt Hopt Hname).
Qed.

Lemma flat_values_belong_to_options_witness :
  let this := Flat.new [Flat.mk_Option "name" ["-n"] Flat.STRING ""] in
  exists r this',
    Flat.parse this 3 ["prog"; "-n"; "7"] 1 = Some (r, this') /\
    flat_well_keyed this' /\
    Flat.get_int this' "name" = -1.
Proof.
  intros this.
  destruct (Flat.parse this 3 ["prog"; "-n"; "7"] 1) as [[r this']|] eqn:E;
    [|discriminate].
  exists r, this'. split; [reflexivity|].
  destruct flat_values_belong_to_options as (Hnew & Hstep & _).
  split; [exact (Hstep this 3 ["prog"; "-n"; "7"] 1 r this' (Hnew _) E)|].
  by injection E as <- <-.
Defined.

Lemma argv_at_Some argv i a :
  argv_at argv i = Some a -> 0 <= i /\ argv !! Z.to_nat i = Some a.
Proof. unfold argv_at. destruct (Z.ltb_spec i 0); [done|]. by split. Qed.

Lemma set_value_unrecognised this opt value r this' :
  Flat.set_value this opt value = (r, this') ->
  Flat.unrecognised this' = Flat.unrecognised this /\
  Flat.options_ this' = Flat.options_ this.
Proof.
  unfold Flat.set_value. destruct (Flat.opt_type opt).
  - by intros [= _ <-].
  - by intros [= _ <-].
  - destruct (Flat.stoi value); by intros [= _ <-].
Qed.

Lemma flat_unrecognised_loop fuel argc argv :
  forall i this b this',
    Flat.parse_loop fuel argc argv i this = Some (Flat.Return b, this') ->
    exists w,
      Flat.unrecognised this' = Flat.unrecognised this ++ w /\
      w `sublist_of` drop (Z.to_nat i) argv /\
      Forall (fun t => Flat.find_option t (Flat.options_ this) = None) w /\
      b = Flat.empty (Flat.unrecognised this').
Proof.
  induction fuel as [|fuel IH]; intros i this b this';
    rewrite flat_parse_loop_unfold; destruct (i <? argc);
    try (intros [= <- <-]; exists []; rewrite app_nil_r;
         repeat split; [apply sublist_nil_l | constructor]);
    try done.
  destruct (argv_at argv i) as [arg|] eqn:Harg; [|done].
  apply argv_at_Some in Harg as [Hi Harg].
  assert (forall j, (Z.to_nat i <= j)%nat ->
            drop j argv `sublist_of` drop (Z.to_nat i) argv) as Hdrop.
  { intros j Hj. replace j with (Z.to_nat i + (j - Z.to_nat i))%nat by lia.
    rewrite <- drop_drop. apply sublist_drop. }
  assert (forall this1 r1 opt value,
            Flat.set_value this opt value = (r1, this1) ->
            forall j, (Z.to_nat i <= Z.to_nat j)%nat ->
            Flat.parse_loop fuel argc argv j this1
            = Some (Flat.Return b, this') ->
            exists w,
              Flat.unrecognised this' = Flat.unrecognised this ++ w /\
              w `sublist_of` drop (Z.to_nat i) argv /\
              Forall (fun t => Flat.find_option t (Flat.options_ this) = None)
                w /\
              b = Flat.empty (Flat.unrecognised this')) as Hstep.
  { intros this1 r1 opt value Hs j Hj H.
    apply set_value_unrecognised in Hs as [Hu Ho].
    apply IH in H as (w & Hw & Hsub & Hall & Hb).
    exists w. rewrite <- Hu, <- Ho. repeat split; try done.
    etrans; [exact Hsub | by apply Hdrop]. }
  destruct (Flat.find_option arg (Flat.options_ this)) as [[opt str]|] eqn:Hf.
  - destruct (Flat.opt_type opt).
    + destruct (Flat.set_value this opt "") as [[[]|e|] this1] eqn:Hs;
        try done.
      intros H. eapply Hstep; [exact Hs | | exact H]. lia.
    + destruct (i + 1 <? argc); [|done].
      destruct (argv_at argv (i + 1)) as [value|]; [|done].
      destruct (Flat.set_value this opt value) as [[[]|e|] this1] eqn:Hs;
        try done; [|by destruct e].
      intros H. eapply Hstep; [exact Hs | | exact H]. lia.
    + destruct (i + 1 <? argc); [|done].
      destruct (argv_at argv (i + 1)) as [value|]; [|done].
      destruct (Flat.set_value this opt value) as [[[]|e|] this1] eqn:Hs;
        try done; [|by destruct e].
      intros H. eapply Hstep; [exact Hs | | exact H]. lia.
  - intros H. apply IH in H as (w & Hw & Hsub & Hall & Hb).
    exists (arg :: w). simpl in Hw. rewrite <- app_assoc in Hw.
    split; [done|]. split; [|split; [by constructor | done]].
    rewrite (drop_S _ _ _ Harg).
    replace (S (Z.to_nat i)) with (Z.to_nat (i + 1)) by lia.
    by apply sublist_skip.
Qed.

(** When a parse of the first revision returns, the tokens it has added to
    the unrecognised ones are a subsequence, in order, of the command line
    from the skip offset on, none of them is an identifier of any option,
    and the boolean tells whether the object holds no unrecognised token,
    from this parse or an earlier one. *)
Theorem flat_unrecognised_tokens (this : Flat.t) (argc : Z)
    (argv : list string) (skip_first_n : Z) (b : bool) (this' : Flat.t) :
  Flat.parse this argc argv skip_first_n = Some (Flat.Return b, this') ->
  exists w,
    Flat.get_unrecognised this' = Flat.get_unrecognised this ++ w /\
    w `sublist_of` drop (Z.to_nat skip_first_n) argv /\
    Forall (fun t => forall opt, opt ∈ Flat.options_ this ->
                       t ∉ Flat.identifiers opt) w /\
    (b = true <-> Flat.get_unrecognised this' = []).
Proof.
  intros H. apply flat_unrecognised_loop in H as (w & Hw & Hsub & Hall & ->).
  exists w. split; [done|]. split; [done|]. split.
  - eapply Forall_impl; [exact Hall|]. intros t Ht.
    by apply find_option_None.
  - unfold Flat.get_unrecognised. by destruct (Flat.unrecognised this').
Qed.

Lemma flat_unrecognised_tokens_witness :
  let this := Flat.new [Flat.mk_Option "v" ["-v"] Flat.FLAG ""] in
  exists this' w,
    Flat.parse this 4 ["prog"; "a"; "-v"; "b"] 1
    = Some (Flat.Return false, this') /\
    Flat.get_unrecognised this' = Flat.get_unrecognised this ++ w /\
    w `sublist_of` drop (Z.to_nat 1) ["prog"; "a"; "-v"; "b"].
Proof.
  intros this.
  destruct (Flat.parse this 4 ["prog"; "a"; "-v"; "b"] 1)
    as [[[[]| |] this']|] eqn:E; try discriminate.
  destruct (flat_unrecognised_tokens this 4 ["prog"; "a"; "-v"; "b"] 1 false
              this' E) as (w & Hw & Hsub & _).
  by exists this', w.
Defined.

(** One turn of the loop on an identifier of an option that takes a
    value, with a token behind it. *)
Lemma flat_parse_loop_value fuel argv i this tok value opt str :
  0 <= i -> argv !! Z.to_nat i = Some tok ->
  argv !! S (Z.to_nat i) = Some value ->
  Flat.find_option tok (Flat.options_ this) = Some (opt, str) ->
  Flat.opt_type opt <> Flat.FLAG ->
  Flat.parse_loop (S fuel) (argc_of argv) argv i this
  = match Flat.set_value this opt value with
    | (Flat.Return tt, this') =>
        Flat.parse_loop fuel (argc_of argv) argv (i + 2) this'
    | (Flat.Throw (Flat.invalid_argument _), this') =>
        Some (Flat.Throw
                (Flat.invalid_argument
                   ("Invalid argument type after: "
                    +:+ (Flat.dquote +:+ (tok +:+ Flat.dquote)))),
              this')
    | (Flat.Throw e, this') => Some (Flat.Throw e, this')
    | (Flat.Undefined, this') => Some (Flat.Undefined, this')
    end.
Proof.
  intros Hi Htok Hvalue Hf Hty.
  destruct (find_option_Some _ _ _ _ Hf) as (_ & -> & _).
  assert (i + 1 < argc_of argv) as Hlt.
  { apply lookup_lt_Some in Hvalue. unfold argc_of. lia. }
  rewrite flat_parse_loop_unfold.
  destruct (Z.ltb_spec i (argc_of argv)); [|lia].
  rewrite argv_at_lookup, Htok, Hf by done.
  destruct (Z.ltb_spec (i + 1) (argc_of argv)); [|lia].
  rewrite argv_at_lookup by lia.
  replace (Z.to_nat (i + 1)) with (S (Z.to_nat i)) by lia.
  rewrite Hvalue. replace (i + 1 + 1) with (i + 2) by lia.
  by destruct (Flat.opt_type opt).
Qed.

(** One turn of the loop on the last token, when it is an identifier of an
    option that takes a value. *)
Lemma flat_parse_loop_missing fuel argv this tok opt str :
  let last := argc_of argv - 1 in
  0 <= last -> argv !! Z.to_nat last = Some tok ->
  Flat.find_option tok (Flat.options_ this) = Some (opt, str) ->
  Flat.opt_type opt <> Flat.FLAG ->
  Flat.parse_loop (S fuel) (argc_of argv) argv last this
  = Some (Flat.Throw
            (Flat.logic_error
               ("Missing argument after: "
                +:+ (Flat.dquote +:+ (tok +:+ Flat.dquote)))),
          this).
Proof.
  intros last Hlast Htok Hf Hty.
  destruct (find_option_Some _ _ _ _ Hf) as (_ & -> & _).
  rewrite flat_parse_loop_unfold.
  destruct (Z.ltb_spec last (argc_of argv)); [|lia].
  rewrite argv_at_lookup, Htok, Hf by done.
  destruct (Z.ltb_spec (last + 1) (argc_of argv)); [lia|].
  by destruct (Flat.opt_type opt).
Qed.

(** [std::stoi] in terms of the number that the token begins with. *)
Lemma stoi_field str :
  Flat.stoi str
  = match Istream.field (Istream.skipws str) with
    | None => Flat.Throw (Flat.invalid_argument "stoi")
    | Some v =>
        if v <? Istream.INT_MIN then Flat.Throw (Flat.out_of_range "stoi")
        else if Istream.INT_MAX <? v
        then Flat.Throw (Flat.out_of_range "stoi")
        else Flat.Return v
    end.
Proof.
  unfold Flat.stoi. destruct (Istream.field _) as [v|]; [|done].
  by destruct (v <? Istream.INT_MIN), (Istream.INT_MAX <? v).
Qed.

(** Where the errors of the first revision come from: every failure of the
    loop is at an identifier of an option that takes a value, either the
    last token (the value is missing) or an INT option whose value token
    holds no number or one beyond [int]. *)
Lemma flat_parse_loop_throws fuel argc argv :
  forall i this e this',
    0 <= i ->
    Flat.parse_loop fuel argc argv i this = Some (Flat.Throw e, this') ->
    exists j tok opt,
      i <= j /\ argv !! Z.to_nat j = Some tok /\
      Flat.find_option tok (Flat.options_ this) = Some (opt, tok) /\
      Flat.opt_type opt <> Flat.FLAG /\
      ((j = argc - 1 /\
        e = Flat.logic_error
              ("Missing argument after: "
               +:+ (Flat.dquote +:+ (tok +:+ Flat.dquote)))) \/
       (Flat.opt_type opt = Flat.INT /\
        exists value,
          argv !! S (Z.to_nat j) = Some value /\
          ((Istream.field (Istream.skipws value) = None /\
            e = Flat.invalid_argument
                  ("Invalid argument type after: "
                   +:+ (Flat.dquote +:+ (tok +:+ Flat.dquote)))) \/
           (exists n,
              Istream.field (Istream.skipws value) = Some n /\
              (n < Istream.INT_MIN \/ Istream.INT_MAX < n) /\
              e = Flat.out_of_range "stoi")))).
Proof.
  induction fuel as [|fuel IH]; intros i this e this' Hi;
    rewrite flat_parse_loop_unfold;
    destruct (Z.ltb_spec i argc) as [Hlt|]; try done.
  destruct (argv_at argv i) as [arg|] eqn:Harg; [|done].
  apply argv_at_Some in Harg as [_ Harg].
  assert (forall this1 k,
            Flat.options_ this1 = Flat.options_ this -> i <= k ->
            Flat.parse_loop fuel argc argv k this1
            = Some (Flat.Throw e, this') ->
            exists j tok opt,
              i <= j /\ argv !! Z.to_nat j = Some tok /\
              Flat.find_option tok (Flat.options_ this) = Some (opt, tok) /\
              Flat.opt_type opt <> Flat.FLAG /\
              ((j = argc - 1 /\
                e = Flat.logic_error
                      ("Missing argument after: "
                       +:+ (Flat.dquote +:+ (tok +:+ Flat.dquote)))) \/
               (Flat.opt_type opt = Flat.INT /\
                exists value,
                  argv !! S (Z.to_nat j) = Some value /\
                  ((Istream.field (Istream.skipws value) = None /\
                    e = Flat.invalid_argument
                          ("Invalid argument type after: "
                           +:+ (Flat.dquote +:+ (tok +:+ Flat.dquote)))) \/
                   (exists n,
                      Istream.field (Istream.skipws value) = Some n /\
                      (n < Istream.INT_MIN \/ Istream.INT_MAX < n) /\
                      e = Flat.out_of_range "stoi"))))) as Hnext.
  { intros this1 k Hopts Hk H. apply IH in H as (j & tok & opt & Hj & H);
      [|lia].
    rewrite Hopts in H. exists j, tok, opt. split; [lia|done]. }
  destruct (Flat.find_option arg (Flat.options_ this)) as [[opt str]|] eqn:Hf.
  - destruct (find_option_Some _ _ _ _ Hf) as (_ & -> & _).
    destruct (Flat.opt_type opt) eqn:Hty.
    + destruct (Flat.set_value this opt "") as [[[]|e1|] this1] eqn:Hs.
      * apply set_value_unrecognised in Hs as [_ Ho]. apply Hnext; [done|lia].
      * unfold Flat.set_value in Hs. by rewrite Hty in Hs.
      * done.
    + destruct (Z.ltb_spec (i + 1) argc).
      * destruct (argv_at argv (i + 1)) as [value|]; [|done].
        unfold Flat.set_value. rewrite Hty. apply Hnext; [done|lia].
      * intros [= <- <-]. exists i, arg, opt. split; [lia|].
        split; [done|]. split; [done|]. split; [by rewrite Hty|].
        left. split; [lia|done].
    + destruct (Z.ltb_spec (i + 1) argc).
      * destruct (argv_at argv (i + 1)) as [value|] eqn:Hvalue; [|done].
        apply argv_at_Some in Hvalue as [_ Hvalue].
        replace (Z.to_nat (i + 1)) with (S (Z.to_nat i)) in Hvalue by lia.
        unfold Flat.set_value. rewrite Hty, stoi_field.
        destruct (Istream.field (Istream.skipws value)) as [n|] eqn:Hn.
        -- destruct (Z.ltb_spec n Istream.INT_MIN).
           { intros [= <- <-]. exists i, arg, opt. split; [lia|].
             split; [done|]. split; [done|]. split; [by rewrite Hty|].
             right. split; [done|]. exists value. split; [done|].
             right. exists n. auto. }
           destruct (Z.ltb_spec Istream.INT_MAX n).
           { intros [= <- <-]. exists i, arg, opt. split; [lia|].
             split; [done|]. split; [done|]. split; [by rewrite Hty|].
             right. split; [done|]. exists value. split; [done|].
             right. exists n. auto. }
           apply Hnext; [done|lia].
        -- intros [= <- <-]. exists i, arg, opt. split; [lia|].
           split; [done|]. split; [done|]. split; [by rewrite Hty|].
           right. split; [done|]. exists value. split; [done|]. by left.
      * intros [= <- <-]. exists i, arg, opt. split; [lia|].
        split; [done|]. split; [done|]. split; [by rewrite Hty|].
        left. split; [lia|done].
  - apply Hnext; [done|lia].
Qed.

(** In the first revision the error for a missing value names the option:
    whenever the loop comes to the last token, in whatever state, and that
    token is an identifier of an option that is no flag, the parse fails
    with a [std::logic_error] whose message quotes that token, and the
    parser object is left as the loop found it. (A last token that is taken
    as the value of the option before it is never looked at in this way.)
    Conversely a [std::logic_error] out of [parse] always comes about in
    this way: the last token is an identifier of an option that is no flag
    and the message quotes it. *)
Theorem flat_missing_argument :
  (forall fuel this argv tok opt str,
     let last := argc_of argv - 1 in
     0 <= last -> argv !! Z.to_nat last = Some tok ->
     Flat.find_option tok (Flat.options_ this) = Some (opt, str) ->
     Flat.opt_type opt <> Flat.FLAG ->
     Flat.parse_loop (S fuel) (argc_of argv) argv last this
     = Some (Flat.Throw
               (Flat.logic_error
                  ("Missing argument after: "
                   +:+ (Flat.dquote +:+ (tok +:+ Flat.dquote)))),
             this)) /\
  (forall this argv tok opt str,
     let last := argc_of argv - 1 in
     0 <= last -> argv !! Z.to_nat last = Some tok ->
     Flat.find_option tok (Flat.options_ this) = Some (opt, str) ->
     Flat.opt_type opt <> Flat.FLAG ->
     Flat.parse this (argc_of argv) argv last
     = Some (Flat.Throw
               (Flat.logic_error
                  ("Missing argument after: "
                   +:+ (Flat.dquote +:+ (tok +:+ Flat.dquote)))),
             this)) /\
  (forall this argv skip_first_n w this',
     0 <= skip_first_n ->
     Flat.parse this (argc_of argv) argv skip_first_n
     = Some (Flat.Throw (Flat.logic_error w), this') ->
     exists tok opt,
       argv !! Z.to_nat (argc_of argv - 1) = Some tok /\
       skip_first_n <= argc_of argv - 1 /\
       Flat.find_option tok (Flat.options_ this) = Some (opt, tok) /\
       Flat.opt_type opt <> Flat.FLAG /\
       w = "Missing argument after: "
           +:+ (Flat.dquote +:+ (tok +:+ Flat.dquote))).
Proof.
  split; [|split].
  - intros fuel this argv tok opt str. apply flat_parse_loop_missing.
  - intros this argv tok opt str last Hlast Htok Hf Hty. unfold Flat.parse.
    destruct (Z.to_nat (argc_of argv)) as [|fuel] eqn:Hfuel; [lia|].
    by apply (flat_parse_loop_missing fuel argv this tok opt str).
  - intros this argv skip w this' Hskip H. unfold Flat.parse in H.
    apply flat_parse_loop_throws in H
      as (j & tok & opt & Hj & Htok & Hf & Hty & Hcases); [|done].
    destruct Hcases as [[-> [= ->]]|(_ & value & _ & [[_ ?]|(n & _ & _ & ?)])];
      [|done|done].
    by exists tok, opt.
Qed.

Lemma flat_missing_argument_witness :
  let this := Flat.new [Flat.mk_Option "count" ["-c"] Flat.INT ""] in
  0 <= argc_of ["prog"; "-c"] - 1 /\
  Flat.parse this (argc_of ["prog"; "-c"]) ["prog"; "-c"] 1
  = Some (Flat.Throw
            (Flat.logic_error
               ("Missing argument after: "
                +:+ (Flat.dquote +:+ ("-c" +:+ Flat.dquote)))),
          this).
Proof.
  intros this. split; [unfold argc_of; simpl; lia|].
  apply (proj1 (proj2 flat_missing_argument) this ["prog"; "-c"] "-c"
           (Flat.mk_Option "count" ["-c"] Flat.INT "") "-c");
    [unfold argc_of; simpl; lia | reflexivity | reflexivity | discriminate].
Defined.

Lemma stoi_digits digits garbage :
  digits <> "" -> all_digits digits = true ->
  starts_with Istream.isdigit garbage = false ->
  decimal digits <= Istream.INT_MAX ->
  Flat.stoi (digits +:+ garbage) = Flat.Return (decimal digits).
Proof.
  intros Hne Hd Hg Hmax. destruct digits as [|c ds]; [done|].
  pose proof (decimal_nonneg (String c ds)) as Hpos.
  cbn [all_digits] in Hd. apply andb_true_iff in Hd as [Hc Hds].
  unfold Flat.stoi. rewrite append_String. cbn [Istream.skipws].
  rewrite (digit_is_not_space c Hc), (field_of_digit c _ Hc).
  cbn [Istream.accumulate]. rewrite Hc.
  rewrite (accumulate_digits ds garbage _ Hds Hg).
  replace (10 * default 0 None + Istream.digit_value c)
    with (Istream.digit_value c) by (cbn [default]; lia).
  change (Istream.digit_value c * 10 ^ Z.of_nat (String.length ds)
          + decimal ds) with (decimal (String c ds)).
  destruct (Z.ltb_spec (decimal (String c ds)) Istream.INT_MIN);
    [unfold Istream.INT_MIN in *; lia|].
  by destruct (Z.ltb_spec Istream.INT_MAX (decimal (String c ds))); [lia|].
Qed.

(** The value of an INT option in the first revision. [std::stoi] reads
    the number that the token begins with (white space, an optional sign,
    digits) and ignores what follows it: a number that fits an [int] is the
    result, one that does not is a [std::out_of_range], and a token that
    does not begin with a number is a [std::invalid_argument]. Whenever the
    loop comes to an identifier of an INT option with a token behind it, in
    whatever state: a number that fits is stored under the name of the
    option, unless a value is there already, and the loop goes on behind
    the value; without a number the parse fails with the parser's own
    [std::invalid_argument], whose message quotes the identifier; with a
    number beyond [int] the [std::out_of_range] of [std::stoi] leaves the
    parser unwrapped; nothing is stored in either case. Conversely these
    two errors out of [parse] always come about in this way. *)
Theorem flat_int_conversion :
  (forall digits garbage,
     digits <> "" -> all_digits digits = true ->
     starts_with Istream.isdigit garbage = false ->
     decimal digits <= Istream.INT_MAX ->
     Flat.stoi (digits +:+ garbage) = Flat.Return (decimal digits)) /\
  (forall str n,
     leading_number str n ->
     Flat.stoi str
     = if (n <? Istream.INT_MIN) || (Istream.INT_MAX <? n)
       then Flat.Throw (Flat.out_of_range "stoi")
       else Flat.Return n) /\
  (forall str,
     (forall n, ~ leading_number str n) ->
     Flat.stoi str = Flat.Throw (Flat.invalid_argument "stoi")) /\
  (forall fuel this argv i tok value opt str,
     0 <= i ->
     argv !! Z.to_nat i = Some tok ->
     argv !! S (Z.to_nat i) = Some value ->
     Flat.find_option tok (Flat.options_ this) = Some (opt, str) ->
     Flat.opt_type opt = Flat.INT ->
     (forall n,
        leading_number value n ->
        Istream.INT_MIN <= n <= Istream.INT_MAX ->
        Flat.parse_loop (S fuel) (argc_of argv) argv i this
        = Flat.parse_loop fuel (argc_of argv) argv (i + 2)
            (Flat.mk (Flat.options_ this) (Flat.options_flag this)
               (Flat.options_string this)
               (Flat.map_insert (Flat.name opt) n (Flat.options_int this))
               (Flat.unrecognised this) (Flat.default_flag this)
               (Flat.default_string this) (Flat.default_int this))) /\
     ((forall n, ~ leading_number value n) ->
      Flat.parse_loop (S fuel) (argc_of argv) argv i this
      = Some (Flat.Throw
                (Flat.invalid_argument
                   ("Invalid argument type after: "
                    +:+ (Flat.dquote +:+ (tok +:+ Flat.dquote)))),
              this)) /\
     (forall n,
        leading_number value n ->
        n < Istream.INT_MIN \/ Istream.INT_MAX < n ->
        Flat.parse_loop (S fuel) (argc_of argv) argv i this
        = Some (Flat.Throw (Flat.out_of_range "stoi"), this))) /\
  (forall this argv skip_first_n e this',
     0 <= skip_first_n ->
     Flat.parse this (argc_of argv) argv skip_first_n
     = Some (Flat.Throw e, this') ->
     (forall w, e <> Flat.logic_error w) ->
     exists j tok opt value,
       skip_first_n <= j /\ argv !! Z.to_nat j = Some tok /\
       argv !! S (Z.to_nat j) = Some value /\
       Flat.find_option tok (Flat.options_ this) = Some (opt, tok) /\
       Flat.opt_type opt = Flat.INT /\
       (((forall n, ~ leading_number value n) /\
         e = Flat.invalid_argument
               ("Invalid argument type after: "
                +:+ (Flat.dquote +:+ (tok +:+ Flat.dquote)))) \/
        (exists n,
           leading_number value n /\
           (n < Istream.INT_MIN \/ Istream.INT_MAX < n) /\
           e = Flat.out_of_range "stoi"))).
Proof.
  split; [apply stoi_digits|].
  split.
  { intros str n Hn. apply leading_number_field in Hn.
    unfold Flat.stoi. by rewrite Hn. }
  split.
  { intros str Hnone. apply no_leading_number in Hnone.
    unfold Flat.stoi. by rewrite Hnone. }
  split.
  - intros fuel this argv i tok value opt str Hi Htok Hvalue Hf Hty.
    assert (Flat.opt_type opt <> Flat.FLAG) as Hnf by (by rewrite Hty).
    rewrite (flat_parse_loop_value fuel argv i this tok value opt str)
      by done.
    unfold Flat.set_value. rewrite Hty, stoi_field.
    split; [|split].
    + intros n Hn Hrange. apply leading_number_field in Hn. rewrite Hn.
      destruct (Z.ltb_spec n Istream.INT_MIN); [lia|].
      by destruct (Z.ltb_spec Istream.INT_MAX n); [lia|].
    + intros Hnone. apply no_leading_number in Hnone. by rewrite Hnone.
    + intros n Hn Hrange. apply leading_number_field in Hn. rewrite Hn.
      destruct (Z.ltb_spec n Istream.INT_MIN); [done|].
      by destruct (Z.ltb_spec Istream.INT_MAX n); [|lia].
  - intros this argv skip e this' Hskip H Hnl. unfold Flat.parse in H.
    apply flat_parse_loop_throws in H
      as (j & tok & opt & Hj & Htok & Hf & _ & Hcases); [|done].
    destruct Hcases as [[_ ->]|(Hty & value & Hvalue & Hcases)];
      [by destruct (Hnl _ eq_refl)|].
    exists j, tok, opt, value. repeat (split; [done|]).
    destruct Hcases as [[Hnone ->]|(n & Hn & Hrange & ->)].
    + left. split; [by apply no_leading_number|done].
    + right. exists n. split; [by apply leading_number_field|done].
Qed.

Lemma flat_int_conversion_witness :
  let this := Flat.new [Flat.mk_Option "name" ["-n"] Flat.STRING "";
                        Flat.mk_Option "count" ["-c"] Flat.INT ""] in
  Flat.stoi "12abc" = Flat.Return 12 /\
  Flat.stoi " -42" = Flat.Return (-42) /\
  Flat.stoi "99999999999" = Flat.Throw (Flat.out_of_range "stoi") /\
  Flat.stoi "abc" = Flat.Throw (Flat.invalid_argument "stoi") /\
  Flat.parse_loop 1 (argc_of ["prog"; "x"; "-c"; "abc"])
    ["prog"; "x"; "-c"; "abc"] 2 this
  = Some (Flat.Throw
            (Flat.invalid_argument
               ("Invalid argument type after: "
                +:+ (Flat.dquote +:+ ("-c" +:+ Flat.dquote)))),
          this).
Proof.
  intros this.
  destruct flat_int_conversion as (Hdigits & Hnum & Hnone & Hloop & _).
  split; [|split; [|split; [|split]]].
  - apply (Hdigits "12" "abc");
      [discriminate | reflexivity | reflexivity | vm_compute; discriminate].
  - exact (Hnum " -42" (-42)
             (leading_minus " " "42" "" eq_refl ltac:(discriminate)
                eq_refl eq_refl)).
  - exact (Hnum "99999999999" 99999999999
             (leading_unsigned "" "99999999999" "" eq_refl
                ltac:(discriminate) eq_refl eq_refl)).
  - apply (Hnone "abc"). by apply no_leading_number.
  - apply (proj1 (proj2 (Hloop 0%nat this ["prog"; "x"; "-c"; "abc"] 2 "-c"
                           "abc" (Flat.mk_Option "count" ["-c"] Flat.INT "")
                           "-c" ltac:(lia) eq_refl eq_refl eq_refl
                           eq_refl))).
    by apply no_leading_number.
Defined.

(** ** Edge cases of the renderer and of the conversions *)

(** A column width below 2 makes [min_w - 2] wrap around as a [size_t]:
    every name then counts as fitting, the width handed to [std::setw] is
    negative, and the entry is the bare name, two spaces and the help text,
    with no padding and no line break after a long name. *)
Theorem narrow_help_column (min_w : Z) (os : Ostream.t) (o : OptionBase) :
  0 <= min_w < 2 -> Ostream.width os = 0 ->
  Z.of_nat (String.length (get_help o).1) < 2 ^ 64 - 2 ->
  print_option min_w os o
  = Ostream.mk
      (Ostream.buffer os
       +:+ ((get_help o).1
            +:+ ("  "
                 +:+ (indent_text (get_help o).2 (Z.to_nat min_w) " "
                      +:+ String newline ""))))
      (Ostream.flags os) 0 (Ostream.fill os).
Proof.
  intros Hmin Hw Hlen. unfold print_option.
  assert (size_sub min_w 2 = 2 ^ 64 - 2 + min_w) as ->.
  { unfold size_sub.
    replace (min_w - 2) with (2 ^ 64 - 2 + min_w + (-1) * 2 ^ 64) by lia.
    rewrite Z_mod_plus_full. apply Z.mod_small. lia. }
  destruct (Z.leb_spec (Z.of_nat (String.length (get_help o).1))
              (2 ^ 64 - 2 + min_w)); [|lia].
  assert (int_of_size (2 ^ 64 - 2 + min_w) = min_w - 2) as ->.
  { unfold int_of_size.
    replace (2 ^ 64 - 2 + min_w)
      with (2 ^ 32 - 2 + min_w + (2 ^ 32 - 1) * 2 ^ 32) by lia.
    rewrite Z_mod_plus_full, Z.mod_small by lia.
    destruct (Z.ltb_spec (2 ^ 32 - 2 + min_w) (2 ^ 31)); lia. }
  assert (Ostream.put (Ostream.setw (min_w - 2) os) (get_help o).1
          = Ostream.mk (Ostream.buffer os +:+ (get_help o).1)
              (Ostream.flags os) 0 (Ostream.fill os)) as ->.
  { unfold Ostream.put, Ostream.padded, Ostream.setw.
    cbn [Ostream.buffer Ostream.flags Ostream.fill Ostream.width].
    replace (Z.to_nat (min_w - 2 - Z.of_nat (String.length (get_help o).1)))
      with 0%nat by lia.
    cbn [Ostream.fill_n]. rewrite append_nil_r, append_empty.
    by destruct (_ && _). }
  rewrite (put_plain (Ostream.mk _ _ _ _)) by done.
  rewrite (indented_plain _ _ _ (Ostream.mk _ _ _ _)) by done.
  rewrite (put_plain (Ostream.mk _ _ _ _)) by done.
  cbn [Ostream.buffer Ostream.flags Ostream.fill Ostream.width].
  by rewrite !append_assoc.
Qed.

Lemma narrow_help_column_witness :
  let os := Ostream.mk "" (Ostream.mk_fmtflags true false false 0) 0 " " in
  let o := new_KeywordOption ["--verbose"] "Be verbose." (VBool false) in
  0 <= 1 < 2 /\ Ostream.width os = 0 /\
  Ostream.buffer (print_option 1 os o)
  = "--verbose  Be verbose." +:+ String newline "".
Proof.
  intros os o. split; [lia|]. split; [reflexivity|].
  rewrite (narrow_help_column 1 os o ltac:(lia) eq_refl
             ltac:(vm_compute; reflexivity)).
  reflexivity.
Defined.

Lemma get_long_no_number tok :
  starts_with
    (fun c => negb (Istream.isspace c || Istream.isdigit c || is_sign c)) tok
  = true ->
  Istream.get_long tok = Some (true, 0).
Proof.
  destruct tok as [|c s]; [done|]. cbn [starts_with].
  destruct c as [[] [] [] [] [] [] [] []]; try discriminate; reflexivity.
Qed.

(** A positional descriptor of type [bool] reads a number, not a word. The
    token begins with a number when it is white space, an optional sign,
    digits and then anything that does not go on with a digit. If that
    number is 0 the value is false, if it is 1 the value is true, and the
    descriptor is set; every other number (negative, greater than 1, even
    beyond [long]) is a ConversionError that leaves true behind. A token
    that does not begin with a number, such as "true", is a ConversionError
    that leaves false behind, unless the token is empty or all white space,
    when the value stays as it was. Every token is in exactly one of these
    cases. *)
Theorem bool_positional_reads_a_number (name help : string)
    (is_required s b : bool) (tok : string) (strings : list string) :
  let o := PositionalOption name help is_required s (VBool b) in
  (starts_with
     (fun c => negb (Istream.isspace c || Istream.isdigit c || is_sign c)) tok
   = true ->
   OptionBase_parse o (tok :: strings)
   = (Throw ConversionError,
      PositionalOption name help is_required s (VBool false))) /\
  (forall digits garbage,
     tok = digits +:+ garbage ->
     digits <> "" -> all_digits digits = true ->
     starts_with Istream.isdigit garbage = false ->
     decimal digits <= Istream.LONG_MAX ->
     OptionBase_parse o (tok :: strings)
     = if decimal digits =? 0
       then (Return tt, PositionalOption name help is_required true
                          (VBool false))
       else if decimal digits =? 1
       then (Return tt, PositionalOption name help is_required true
                          (VBool true))
       else (Throw ConversionError,
             PositionalOption name help is_required s (VBool true))) /\
  (forall n,
     leading_number tok n ->
     OptionBase_parse o (tok :: strings)
     = if n =? 0
       then (Return tt, PositionalOption name help is_required true
                          (VBool false))
       else if n =? 1
       then (Return tt, PositionalOption name help is_required true
                          (VBool true))
       else (Throw ConversionError,
             PositionalOption name help is_required s (VBool true))) /\
  ((forall n, ~ leading_number tok n) ->
   OptionBase_parse o (tok :: strings)
   = (Throw ConversionError,
      PositionalOption name help is_required s
        (VBool (if all_spaces tok then b else false)))) /\
  ((exists n, leading_number tok n) \/ (forall n, ~ leading_number tok n)).
Proof.
  intros o. unfold o. rewrite bool_parse_unfold.
  split; [|split; [|split; [|split]]].
  - intros Hother. unfold Istream.extract_bool.
    by rewrite get_long_no_number.
  - intros digits garbage -> Hne Hd Hg Hmax. unfold Istream.extract_bool.
    rewrite get_long_digits by done.
    destruct (decimal digits =? 0); [done|].
    by destruct (decimal digits =? 1).
  - intros n Hn. apply leading_number_field in Hn.
    rewrite extract_bool_field.
    destruct (all_spaces tok) eqn:Hsp.
    { apply all_spaces_no_number in Hsp. congruence. }
    rewrite Hn. destruct (n =? 0); [done|]. by destruct (n =? 1).
  - intros Hnone. apply no_leading_number in Hnone.
    rewrite extract_bool_field, Hnone. by destruct (all_spaces tok).
  - destruct (Istream.field (Istream.skipws tok)) as [n|] eqn:E.
    + left. exists n. by apply leading_number_field.
    + right. by apply no_leading_number.
Qed.

Lemma bool_positional_reads_a_number_witness :
  let o := new_PositionalOption "force" "" false (VBool false) in
  OptionBase_parse o ["true"]
  = (Throw ConversionError, PositionalOption "force" "" false false (VBool false))
  /\ OptionBase_parse o ["1"]
     = (Return tt, PositionalOption "force" "" false true (VBool true))
  /\ OptionBase_parse o [" +0x"]
     = (Return tt, PositionalOption "force" "" false true (VBool false))
  /\ OptionBase_parse o ["-1"]
     = (Throw ConversionError,
        PositionalOption "force" "" false false (VBool true))
  /\ OptionBase_parse o ["99999999999999999999"]
     = (Throw ConversionError,
        PositionalOption "force" "" false false (VBool true))
  /\ OptionBase_parse (new_PositionalOption "force" "" false (VBool true)) [""]
     = (Throw ConversionError,
        PositionalOption "force" "" false false (VBool true)).
Proof.
  intros o. split; [|split; [|split; [|split; [|split]]]].
  - apply (proj1 (bool_positional_reads_a_number "force" "" false false false
                    "true" [])).
    reflexivity.
  - apply (proj1 (proj2 (bool_positional_reads_a_number "force" "" false
                           false false "1" [])) "1" "");
      [reflexivity | discriminate | reflexivity | reflexivity
      | vm_compute; discriminate].
  - exact (proj1 (proj2 (proj2 (bool_positional_reads_a_number "force" ""
                                  false false false " +0x" []))) 0
             (leading_plus " " "0" "x" eq_refl ltac:(discriminate)
                eq_refl eq_refl)).
  - exact (proj1 (proj2 (proj2 (bool_positional_reads_a_number "force" ""
                                  false false false "-1" []))) (-1)
             (leading_minus "" "1" "" eq_refl ltac:(discriminate)
                eq_refl eq_refl)).
  - exact (proj1 (proj2 (proj2 (bool_positional_reads_a_number "force" ""
                                  false false false
                                  "99999999999999999999" [])))
             99999999999999999999
             (leading_unsigned "" "99999999999999999999" "" eq_refl
                ltac:(discriminate) eq_refl eq_refl)).
  - apply (proj1 (proj2 (proj2 (proj2
             (bool_positional_reads_a_number "force" "" false false true
                "" []))))).
    by apply no_leading_number.
Defined.

(** A keyword descriptor matches a token exactly when the token is one of
    its identifiers, character for character, whatever its value and
    whether or not it has been set before; so it can be matched again and
    again, and a parse does not change what it matches. *)
Theorem keyword_matches_exactly (ids : list string) (help : string)
    (s : bool) (v : Value) (t : string) :
  (matches (KeywordOption ids help s v) t = true <-> t ∈ ids) /\
  (forall strings,
     matches (OptionBase_parse (KeywordOption ids help s v) strings).2 t
     = matches (KeywordOption ids help s v) t).
Proof.
  split; [apply matches_identifiers_elem|].
  intros strings.
  by destruct (parse_same_descriptor (KeywordOption ids help s v) strings)
    as [_ _ _ _ ->].
Qed.
